(** * OKVIS2 estimation core: relative-pose residual, loop-closure
      correspondence adapter and session component.

    Shallow embedding of
      - okvis_ceres/src/RelativePoseError.cpp
      - okvis_frontend/src/LoopclosureNoncentralAbsoluteAdapter.cpp
      - okvis/Component.hpp

    Conventions.  C++ [double] is modelled by the real numbers [R] (exact
    arithmetic, no NaN and no infinity), so "within numerical tolerance"
    reads as equality.  [size_t] loop counters are [nat], [uint64_t]
    identifiers are [N].  [std::map] is [gmap]; [std::vector] with
    [push_back] is a list extended at its end.  C++ exceptions are an
    explicit outcome next to the object state reached when they are
    thrown. *)

From Stdlib Require Import Reals Lra Lia String Epsilon RNsatz.
From stdpp Require Import gmap list sorting.

Set Default Proof Using "Type".

(* ================================================================== *)
(** * Part I: definitions                                              *)
(* ================================================================== *)

#[global] Instance Rlt_decision (a b : R) : Decision (a < b)%R := Rlt_dec a b.
#[global] Instance Rle_decision (a b : R) : Decision (a <= b)%R := Rle_dec a b.

(** ** Exceptions and the state-with-exceptions monad *)

Inductive exn : Type :=
| Exception (msg : string)   (* OKVIS_DEFINE_EXCEPTION(Exception, std::runtime_error) *)
| out_of_range.              (* std::out_of_range, thrown by std::map::at *)

(** A computation over an object state [S]: it returns the state it
    reached and either the exception it threw or its value. *)
Definition M (S A : Type) : Type := S -> S * (exn + A).

Definition ret {S A} (a : A) : M S A := fun s => (s, inr a).
Definition throw {S A} (e : exn) : M S A := fun s => (s, inl e).
Definition bind {S A B} (m : M S A) (k : A -> M S B) : M S B :=
  fun s => match m s with
           | (s', inl e) => (s', inl e)
           | (s', inr a) => k a s'
           end.
Definition modify {S} (f : S -> S) : M S unit := fun s => (f s, inr tt).

#[global] Instance M_ret {S} : MRet (M S) := fun A => @ret S A.
#[global] Instance M_bind {S} : MBind (M S) := fun A B k m => @bind S A B m k.

(** [for (x : l) body] *)
Fixpoint for_each {S A} (l : list A) (body : A -> M S unit) : M S unit :=
  match l with
  | [] => ret tt
  | x :: l' => body x ;; for_each l' body
  end.

(** OKVIS_ASSERT_TRUE(Exception, cond, msg): throws when [cond] is false
    (the macro is active in every build type).  [msg] is the message
    argument of the macro; the source position that the macro adds to it
    is left out. *)
Definition OKVIS_ASSERT_TRUE {S} (cond : bool) (msg : string) : M S unit :=
  if cond then ret tt else throw (Exception msg).

(** ** Eigen vectors (Eigen is a library outside of the repository; its
       operations are modelled by what they compute) *)

Module Eigen.

Record Vector3d : Type := mkVector3d { v3x : R; v3y : R; v3z : R }.
Record Vector4d : Type := mkVector4d { h0 : R; h1 : R; h2 : R; h3 : R }.
Definition Matrix3d : Type := (Vector3d * Vector3d * Vector3d)%type.

Definition scale3 (c : R) (v : Vector3d) : Vector3d :=
  mkVector3d (c * v3x v) (c * v3y v) (c * v3z v).
Definition div3 (v : Vector3d) (c : R) : Vector3d :=
  mkVector3d (v3x v / c) (v3y v / c) (v3z v / c).
Definition squaredNorm3 (v : Vector3d) : R :=
  (v3x v * v3x v + v3y v * v3y v + v3z v * v3z v)%R.
Definition norm3 (v : Vector3d) : R := sqrt (squaredNorm3 v).

(** hp.head<3>() *)
Definition head3 (hp : Vector4d) : Vector3d := mkVector3d (h0 hp) (h1 hp) (h2 hp).

(** MatrixBase::normalize(): divides by the norm; a vector of squared
    norm zero is left unchanged. *)
Definition normalize (v : Vector3d) : Vector3d :=
  let z := squaredNorm3 v in
  if decide (0 < z)%R then div3 v (sqrt z) else v.

End Eigen.

(** ** LoopclosureNoncentralAbsoluteAdapter *)

Module Adapter.
Import Eigen.

(** okvis::cameras::NCameraSystem::DistortionType (declared outside of
    src/).  The constructor's switch names three families;
    [OtherDistortion] stands for every other value of the enumeration,
    which the switch sends to its default. *)
Inductive DistortionType : Type :=
| Equidistant | RadialTangential | RadialTangential8 | OtherDistortion.

#[global] Instance DistortionType_eq_dec : EqDecision DistortionType.
Proof. solve_decision. Defined.

(** The part of okvis::cameras::NCameraSystem the constructor reads (the
    class is declared outside of src/; its two accessors are the fields). *)
Record NCameraSystem : Type := {
  numCameras : nat;
  distortionType : nat -> DistortionType
}.

(** okvis::KeypointIdentifier(frameId, cameraIndex, keypointIndex). *)
Definition KeypointIdentifier : Type := (N * nat * nat)%type.

(** The part of okvis::MultiFrame the constructor reads (the class is
    declared outside of src/; the accessors called are the fields).
    [focalLengthU d im] is geometryAs<PinholeCamera<d>>(im)->focalLengthU();
    [getBackProjection im k] is [Some bearing] when the call returns true
    and [None] when it returns false. *)
Record MultiFrame : Type := {
  id : N;
  T_SC_r : nat -> Vector3d;
  T_SC_C : nat -> Matrix3d;
  numKeypoints : nat -> nat;
  focalLengthU : DistortionType -> nat -> R;
  getKeypointSize : nat -> nat -> R;
  getBackProjection : nat -> nat -> option Vector3d
}.

(** The member arrays of the adapter. *)
Record t : Type := {
  camOffsets_ : list Vector3d;
  camRotations_ : list Matrix3d;
  points_ : list Vector3d;
  bearingVectors_ : list Vector3d;
  sigmaAngles_ : list R;
  camIndices_ : list nat;
  keypointIndices_ : list nat
}.

Definition empty : t :=
  {| camOffsets_ := []; camRotations_ := []; points_ := [];
     bearingVectors_ := []; sigmaAngles_ := []; camIndices_ := [];
     keypointIndices_ := [] |}.

(** camOffsets_.push_back(r); camRotations_.push_back(C); *)
Definition push_camera (r : Vector3d) (C : Matrix3d) (a : t) : t :=
  {| camOffsets_ := camOffsets_ a ++ [r];
     camRotations_ := camRotations_ a ++ [C];
     points_ := points_ a;
     bearingVectors_ := bearingVectors_ a;
     sigmaAngles_ := sigmaAngles_ a;
     camIndices_ := camIndices_ a;
     keypointIndices_ := keypointIndices_ a |}.

(** The five push_back calls of one accepted keypoint. *)
Definition push_correspondence (p b : Vector3d) (sigma : R) (im k : nat)
    (a : t) : t :=
  {| camOffsets_ := camOffsets_ a;
     camRotations_ := camRotations_ a;
     points_ := points_ a ++ [p];
     bearingVectors_ := bearingVectors_ a ++ [b];
     sigmaAngles_ := sigmaAngles_ a ++ [sigma];
     camIndices_ := camIndices_ a ++ [im];
     keypointIndices_ := keypointIndices_ a ++ [k] |}.

Section Constructor.
Variable points : gmap N Vector4d.
Variable matches : gmap KeypointIdentifier N.
Variable nCameraSystem : NCameraSystem.
Variable frameB : MultiFrame.

(** Lines 63-67: the distortion type of camera 0 against every other. *)
Definition find_distortion_type : M t DistortionType :=
  let distortionType0 := distortionType nCameraSystem 0 in
  for_each (seq 1 (numCameras nCameraSystem - 1)) (fun i =>
    OKVIS_ASSERT_TRUE
      (bool_decide (distortionType0 = distortionType nCameraSystem i))
      "mixed frame types are not supported yet") ;;
  ret distortionType0.

(** Lines 78-107: the focal length by distortion family. *)
Definition focal_length (d : DistortionType) (im : nat) : M t R :=
  match d with
  | RadialTangential => ret (focalLengthU frameB RadialTangential im)
  | RadialTangential8 => ret (focalLengthU frameB RadialTangential8 im)
  | Equidistant => ret (focalLengthU frameB Equidistant im)
  | OtherDistortion => throw (Exception "Unsupported distortion type")
  end.

(** The bearing of lines 136-139 and 144. *)
Definition bearing_of (im k : nat) : Vector3d :=
  normalize (match getBackProjection frameB im k with
             | Some bearing => bearing
             | None => mkVector3d 1 0 0
             end).

(** Lines 135 and 142. *)
Definition sigma_of (fu : R) (im k : nat) : R :=
  let keypointStdDev := (0.8 * getKeypointSize frameB im k / 12.0)%R in
  (sqrt 2 * keypointStdDev * keypointStdDev / (fu * fu))%R.

(** Lines 109-151: the body of the keypoint loop. *)
Definition keypoint_body (fu : R) (im k : nat) : M t unit :=
  let kid : KeypointIdentifier := (id frameB, im, k) in
  match matches !! kid with
  | None => ret tt
  | Some lmId =>
      if decide (lmId = 0%N) then ret tt
      else
        match points !! lmId with
        | None => throw out_of_range
        | Some hp =>
            if decide (Rabs (h3 hp) < 1.0e-8)%R then ret tt
            else
              modify (push_correspondence
                        (div3 (head3 hp) (h3 hp))
                        (bearing_of im k)
                        (sigma_of fu im k) im k)
        end
  end.

(** Lines 69-154: the body of the camera loop. *)
Definition camera_body (d : DistortionType) (im : nat) : M t unit :=
  modify (push_camera (T_SC_r frameB im) (T_SC_C frameB im)) ;;
  let numK := numKeypoints frameB im in
  fu ← focal_length d im;
  for_each (seq 0 numK) (keypoint_body fu im).

(** The constructor, run on the object under construction. *)
Definition construct : M t unit :=
  let numCameras := numCameras nCameraSystem in
  d ← find_distortion_type;
  for_each (seq 0 numCameras) (camera_body d).

(** The constructor as a caller sees it: an adapter, or the exception
    together with the member arrays as they were when it was thrown. *)
Definition LoopclosureNoncentralAbsoluteAdapter : t * (exn + unit) :=
  construct empty.
End Constructor.

(** Accessors.  [operator[]] on a vector is only defined in range: the
    accessors return [None] out of range. *)
Definition getBearingVector (a : t) (index : nat) : option Vector3d :=
  bearingVectors_ a !! index.
Definition getPoint (a : t) (index : nat) : option Vector3d :=
  points_ a !! index.
Definition getCamOffset (a : t) (index : nat) : option Vector3d :=
  i ← camIndices_ a !! index; camOffsets_ a !! i.
Definition getCamRotation (a : t) (index : nat) : option Matrix3d :=
  i ← camIndices_ a !! index; camRotations_ a !! i.
Definition getNumberCorrespondences (a : t) : nat := length (points_ a).
Definition getSigmaAngle (a : t) (index : nat) : option R :=
  sigmaAngles_ a !! index.

(** *** The outcome of the constructor, in closed form *)

Section Outcome.
Variable points : gmap N Vector4d.
Variable matches : gmap KeypointIdentifier N.
Variable nCameraSystem : NCameraSystem.
Variable frameB : MultiFrame.

(** What the keypoint loop does with one keypoint. *)
Inductive status : Type :=
| Skip                      (* one of the three [continue]s *)
| Missing                   (* points.at(lmId) throws *)
| Accept (hp : Vector4d).

Definition classify (im k : nat) : status :=
  match matches !! (id frameB, im, k) with
  | None => Skip
  | Some lmId =>
      if decide (lmId = 0%N) then Skip
      else match points !! lmId with
           | None => Missing
           | Some hp =>
               if decide (Rabs (h3 hp) < 1.0e-8)%R then Skip else Accept hp
           end
  end.

(** The specification's wording of a usable pair: the association
    exists, is not the sentinel 0 and refers to a landmark with
    |w| >= 1e-8. *)
Definition valid_association (im k : nat) : Prop :=
  exists lmId hp,
    matches !! (id frameB, im, k) = Some lmId /\ lmId <> 0%N /\
    points !! lmId = Some hp /\ (1.0e-8 <= Rabs (h3 hp))%R.

(** A non-sentinel association whose landmark is not in the table. *)
Definition dangling_association (im k : nat) : Prop :=
  exists lmId,
    matches !! (id frameB, im, k) = Some lmId /\ lmId <> 0%N /\
    points !! lmId = None.

(** Every (camera, keypoint) pair of the frame, in loop order. *)
Definition all_pairs : list (nat * nat) :=
  flat_map (fun im => map (pair im) (seq 0 (numKeypoints frameB im)))
           (seq 0 (numCameras nCameraSystem)).

Definition accepted_in (im : nat) (ks : list nat)
    : list (nat * nat * Vector4d) :=
  omap (fun k => match classify im k with
                 | Accept hp => Some (im, k, hp)
                 | _ => None
                 end) ks.

Definition accepted_of (ims : list nat) : list (nat * nat * Vector4d) :=
  flat_map (fun im => accepted_in im (seq 0 (numKeypoints frameB im))) ims.

(** The accepted keypoints with their landmarks, in loop order. *)
Definition accepted : list (nat * nat * Vector4d) :=
  accepted_of (seq 0 (numCameras nCameraSystem)).

Definition point_of (c : nat * nat * Vector4d) : Vector3d :=
  div3 (head3 c.2) (h3 c.2).
Definition cam_of (c : nat * nat * Vector4d) : nat := c.1.1.
Definition kp_of (c : nat * nat * Vector4d) : nat := c.1.2.
Definition bearing_at (c : nat * nat * Vector4d) : Vector3d :=
  bearing_of frameB (cam_of c) (kp_of c).
Definition sigma_at (d : DistortionType) (c : nat * nat * Vector4d) : R :=
  sigma_of frameB (focalLengthU frameB d (cam_of c)) (cam_of c) (kp_of c).

(** The arrays after the cameras [ims], with accepted keypoints [cs],
    were processed from state [a] without an exception. *)
Definition after (d : DistortionType) (a : t) (ims : list nat)
    (cs : list (nat * nat * Vector4d)) : t :=
  {| camOffsets_ := camOffsets_ a ++ map (T_SC_r frameB) ims;
     camRotations_ := camRotations_ a ++ map (T_SC_C frameB) ims;
     points_ := points_ a ++ map point_of cs;
     bearingVectors_ := bearingVectors_ a ++ map bearing_at cs;
     sigmaAngles_ := sigmaAngles_ a ++ map (sigma_at d) cs;
     camIndices_ := camIndices_ a ++ map cam_of cs;
     keypointIndices_ := keypointIndices_ a ++ map kp_of cs |}.

Definition supported (d : DistortionType) : Prop := d <> OtherDistortion.

(** Two cameras of the rig have different distortion families. *)
Definition mixed_rig : Prop :=
  exists i j, i < numCameras nCameraSystem /\ j < numCameras nCameraSystem /\
    distortionType nCameraSystem i <> distortionType nCameraSystem j.

(** Every camera has the family of camera 0. *)
Definition single_family : Prop :=
  forall i, i < numCameras nCameraSystem ->
    distortionType nCameraSystem i = distortionType nCameraSystem 0.

(** A single family, one of the three the switch knows (when there is a
    camera at all). *)
Definition rig_ok : Prop :=
  single_family /\
  (0 < numCameras nCameraSystem -> supported (distortionType nCameraSystem 0)).

(** Every non-sentinel landmark id matched to a keypoint of the frame
    is in the landmark table. *)
Definition ids_present : Prop :=
  forall im k, im < numCameras nCameraSystem ->
    k < numKeypoints frameB im -> ~ dangling_association im k.

#[global] Instance valid_association_dec im k :
  Decision (valid_association im k).
Proof.
  unfold valid_association.
  destruct (matches !! (id frameB, im, k)) as [lm|].
  2:{ right. intros (? & ? & ? & _). discriminate. }
  destruct (decide (lm = 0%N)) as [->|Hlm].
  { right. intros (? & ? & [= <-] & ? & _). congruence. }
  destruct (points !! lm) as [hp|] eqn:Ep.
  2:{ right. intros (? & ? & [= <-] & _ & ? & _). congruence. }
  destruct (decide (1.0e-8 <= Rabs (h3 hp))%R) as [Hw|Hw].
  - left. exists lm, hp. auto.
  - right. intros (? & ? & [= <-] & _ & ? & ?). apply Hw. congruence.
Defined.

(** The number of usable pairs, in the specification's wording. *)
Definition count_valid_pairs : nat :=
  length (filter (fun p => valid_association p.1 p.2) all_pairs).

(** [has_dangling im k]: the lookup of keypoint [k] of camera [im] fails. *)
Definition has_dangling (im k : nat) : bool :=
  match matches !! (id frameB, im, k) with
  | None => false
  | Some lmId =>
      if decide (lmId = 0%N) then false
      else match points !! lmId with None => true | Some _ => false end
  end.

(** No keypoint of the cameras [ims] makes the table lookup throw. *)
Definition no_missing (ims : list nat) : Prop :=
  forall im k, im ∈ ims -> k < numKeypoints frameB im ->
    classify im k <> Missing.
End Outcome.

End Adapter.

(** ** Eigen dense matrices, LLT and inverse *)

Module Dense.

(** An n x n matrix of doubles is the function of its entries; only the
    entries [i, j < n] are meant.  A vector likewise. *)
Definition Matrix : Type := nat -> nat -> R.
Definition Vector : Type := nat -> R.

(** [sum n f] is f 0 + ... + f (n-1). *)
Fixpoint sum (n : nat) (f : nat -> R) : R :=
  match n with
  | 0 => 0%R
  | S m => (sum m f + f m)%R
  end.

Definition mat_eq (n : nat) (A B : Matrix) : Prop :=
  forall i j, i < n -> j < n -> A i j = B i j.
Definition vec_eq (n : nat) (u v : Vector) : Prop :=
  forall i, i < n -> u i = v i.

Definition Zero : Matrix := fun _ _ => 0%R.
Definition Identity : Matrix := fun i j => if decide (i = j) then 1%R else 0%R.
Definition transpose (A : Matrix) : Matrix := fun i j => A j i.
Definition mmul (n : nat) (A B : Matrix) : Matrix :=
  fun i j => sum n (fun k => A i k * B k j)%R.
Definition mvmul (n : nat) (A : Matrix) (v : Vector) : Vector :=
  fun i => sum n (fun k => A i k * v k)%R.

(** v^T A v *)
Definition quad (n : nat) (A : Matrix) (v : Vector) : R :=
  sum n (fun i => sum n (fun j => v i * A i j * v j))%R.

Definition symmetric (n : nat) (A : Matrix) : Prop :=
  forall i j, i < n -> j < n -> A i j = A j i.

Definition nonzero (n : nat) (v : Vector) : Prop :=
  exists i, i < n /\ v i <> 0%R.

Definition positive_definite (n : nat) (A : Matrix) : Prop :=
  forall v, nonzero n v -> (0 < quad n A v)%R.

(** Symmetric positive definite. *)
Definition SPD (n : nat) (A : Matrix) : Prop :=
  symmetric n A /\ positive_definite n A.

(** [B] is the inverse of [A]. *)
Definition is_inverse (n : nat) (A B : Matrix) : Prop :=
  mat_eq n (mmul n A B) Identity /\ mat_eq n (mmul n B A) Identity.

(** MatrixBase::inverse().  In exact arithmetic the LU decomposition
    behind it returns the inverse of an invertible matrix; the model is
    the inverse where there is one (and the zero matrix outside of the
    n x n block, which Eigen does not have). *)
Definition inverse (n : nat) (A : Matrix) : Matrix :=
  let B := epsilon (inhabits Zero) (is_inverse n A) in
  fun i j => if decide (i < n /\ j < n) then B i j else 0%R.

(** Eigen::ComputationInfo, as far as LLT uses it. *)
Inductive ComputationInfo : Type := Success | NumericalIssue.

(** One iteration of internal::llt_inplace<Scalar, Lower>::unblocked:
      x = mat(k,k) - A10.squaredNorm();
      if (x <= 0) return k;
      mat(k,k) = x = sqrt(x);
      A21 -= A20 * A10.adjoint();  A21 /= x;
    where A10 is row k left of the diagonal, A21 is column k below the
    diagonal and A20 is the block left of A21.  [None] is the early
    return. *)
Definition llt_step (size : nat) (mat : Matrix) (k : nat) : option Matrix :=
  let x := (mat k k - sum k (fun p => mat k p * mat k p))%R in
  if decide (x <= 0)%R then None
  else
    let x' := sqrt x in
    Some (fun i j =>
            if decide (i = k /\ j = k) then x'
            else if decide (j = k /\ k < i < size) then
              ((mat i k - sum k (fun p => mat i p * mat k p)) / x')%R
            else mat i j).

(** The loop [for (k = 0; k < size; ++k)] over the remaining columns
    [ks]: the matrix as the loop left it, and the column at which it
    returned early ([None] for the final [return -1]). *)
Fixpoint llt_loop (size : nat) (ks : list nat) (mat : Matrix)
    : Matrix * option nat :=
  match ks with
  | [] => (mat, None)
  | k :: ks' =>
      match llt_step size mat k with
      | None => (mat, Some k)
      | Some mat' => llt_loop size ks' mat'
      end
  end.

Definition unblocked (size : nat) (mat : Matrix) : Matrix * option nat :=
  llt_loop size (seq 0 size) mat.

(** Eigen::LLT<MatrixType, Lower>: the matrix decomposed in place and the
    status that info() reports. *)
Record LLT : Type := { m_matrix : Matrix; m_info : ComputationInfo }.

(** LLT::compute. *)
Definition compute (size : nat) (a : Matrix) : LLT :=
  let '(mat, ret) := unblocked size a in
  {| m_matrix := mat;
     m_info := match ret with None => Success | Some _ => NumericalIssue end |}.

(** LLT::matrixL(): the lower triangular view of the decomposed matrix,
    whatever info() is. *)
Definition matrixL (llt : LLT) : Matrix :=
  fun i j => if decide (j <= i) then m_matrix llt i j else 0%R.

End Dense.

(** *** The loop invariant of the decomposition *)

Module LLTInvariant.
Import Dense.

(** What is left of [A] once the first [k] columns of the factor are
    taken out. *)
Definition schur (A mat : Matrix) (k : nat) : Matrix :=
  fun i j => (A i j - sum k (fun p => mat i p * mat j p))%R.

(** After [k] iterations on input [A]: outside of the lower parts of the
    first [k] columns [mat] is still [A]; the first [k] diagonal entries
    are positive; and the first [k] columns satisfy the equations of the
    Cholesky factor. *)
Definition columns_done (n : nat) (A mat : Matrix) (k : nat) : Prop :=
  (forall i j, ~ (j < k /\ j <= i < n) -> mat i j = A i j) /\
  (forall j, j < k -> (0 < mat j j)%R) /\
  (forall i j, j < k -> j <= i < n ->
     sum (S j) (fun p => mat i p * mat j p)%R = A i j).

(** The remainder is positive definite on the vectors that vanish on the
    first [k] coordinates. *)
Definition schur_pd (n : nat) (A mat : Matrix) (k : nat) : Prop :=
  forall v, (forall i, i < k -> v i = 0%R) -> nonzero n v ->
    (0 < quad n (schur A mat k) v)%R.

(** The unit vector e_k and [w + t e_k]. *)
Definition unit_vector (k : nat) : Vector :=
  fun i => if decide (i = k) then 1%R else 0%R.
Definition axpy (t : R) (u w : Vector) : Vector :=
  fun i => (w i + t * u i)%R.

End LLTInvariant.

(** *** Triangular systems (used to exhibit the inverse of a symmetric
        positive definite matrix) *)

Module Triangular.
Import Dense.

(** Solve equation [i] of [T x = b] for [x i], the other entries fixed. *)
Definition tstep (n : nat) (T : Matrix) (b : Vector) (x : Vector) (i : nat)
    : Vector :=
  fun p => if decide (p = i)
           then ((b i - sum n (fun q => T i q * x q)) / T i i)%R
           else x p.

(** Substitution along the equations [order], from the zero vector. *)
Definition tsolve (n : nat) (T : Matrix) (b : Vector) (order : list nat)
    : Vector :=
  fold_left (tstep n T b) order (fun _ => 0%R).

(** [T i p = 0] whenever [i] comes before [p] in the list. *)
Fixpoint tri_order (T : Matrix) (l : list nat) : Prop :=
  match l with
  | [] => True
  | i :: l' => Forall (fun p => T i p = 0%R) l' /\ tri_order T l'
  end.

(** n-1, ..., 0 *)
Fixpoint down (n : nat) : list nat :=
  match n with
  | 0 => []
  | S m => m :: down m
  end.

(** The solution of [L L^T x = b] by forward and backward substitution. *)
Definition solve_llt (n : nat) (L : Matrix) (b : Vector) : Vector :=
  tsolve n (transpose L) (tsolve n L b (seq 0 n)) (down n).

(** Column [j] of the result solves against column [j] of the identity. *)
Definition inverse_llt (n : nat) (L : Matrix) : Matrix :=
  fun i j => solve_llt n L (fun k => Identity k j) i.

End Triangular.

(** ** Eigen::Quaterniond *)

Module Quaternion.
Import Eigen.

(** The coefficients in the order of the constructor Quaterniond(w, x, y, z). *)
Record t : Type := mk { w : R; x : R; y : R; z : R }.

Definition squaredNorm (q : t) : R :=
  (x q * x q + y q * y q + z q * z q + w q * w q)%R.

(** QuaternionBase::normalized(): the coefficients divided by their norm;
    a quaternion of squared norm zero is returned unchanged. *)
Definition normalized (q : t) : t :=
  let n2 := squaredNorm q in
  if decide (0 < n2)%R then
    mk (w q / sqrt n2) (x q / sqrt n2) (y q / sqrt n2) (z q / sqrt n2)
  else q.

(** operator*: the Hamilton product. *)
Definition mul (a b : t) : t :=
  mk (w a * w b - x a * x b - y a * y b - z a * z b)
     (w a * x b + x a * w b + y a * z b - z a * y b)
     (w a * y b + y a * w b + z a * x b - x a * z b)
     (w a * z b + z a * w b + x a * y b - y a * x b).

Definition conjugate (q : t) : t := mk (w q) (- x q) (- y q) (- z q).

(** QuaternionBase::inverse(): the conjugate over the squared norm, and
    the zero quaternion when the squared norm is zero. *)
Definition inverse (q : t) : t :=
  let n2 := squaredNorm q in
  if decide (0 < n2)%R then
    mk (w q / n2) (- x q / n2) (- y q / n2) (- z q / n2)
  else mk 0 0 0 0.

(** coeffs().head<3>(): the imaginary part (x, y, z). *)
Definition vec (q : t) : Vector3d := mkVector3d (x q) (y q) (z q).

(** QuaternionBase::toRotationMatrix(), by rows. *)
Definition toRotationMatrix (q : t) : Matrix3d :=
  let tx := (2 * x q)%R in let ty := (2 * y q)%R in let tz := (2 * z q)%R in
  let twx := (tx * w q)%R in let twy := (ty * w q)%R in
  let twz := (tz * w q)%R in
  let txx := (tx * x q)%R in let txy := (ty * x q)%R in
  let txz := (tz * x q)%R in
  let tyy := (ty * y q)%R in let tyz := (tz * y q)%R in
  let tzz := (tz * z q)%R in
  (mkVector3d (1 - (tyy + tzz)) (txy - twz) (txz + twy),
   mkVector3d (txy + twz) (1 - (txx + tzz)) (tyz - twx),
   mkVector3d (txz - twy) (tyz + twx) (1 - (txx + tyy)))%R.

End Quaternion.

(** ** okvis::kinematics::Transformation *)

Module Transformation.
Import Eigen.

Definition add3 (u v : Vector3d) : Vector3d :=
  mkVector3d (v3x u + v3x v) (v3y u + v3y v) (v3z u + v3z v).
Definition sub3 (u v : Vector3d) : Vector3d :=
  mkVector3d (v3x u - v3x v) (v3y u - v3y v) (v3z u - v3z v).
Definition neg3 (u : Vector3d) : Vector3d :=
  mkVector3d (- v3x u) (- v3y u) (- v3z u).
Definition dot3 (u v : Vector3d) : R :=
  (v3x u * v3x v + v3y u * v3y v + v3z u * v3z v)%R.
Definition mat3_mul_vec (C : Matrix3d) (v : Vector3d) : Vector3d :=
  let '(r0, r1, r2) := C in mkVector3d (dot3 r0 v) (dot3 r1 v) (dot3 r2 v).
Definition transpose3 (C : Matrix3d) : Matrix3d :=
  let '(r0, r1, r2) := C in
  (mkVector3d (v3x r0) (v3x r1) (v3x r2),
   mkVector3d (v3y r0) (v3y r1) (v3y r2),
   mkVector3d (v3z r0) (v3z r1) (v3z r2)).

(** Modelled from the spec: the class okvis::kinematics::Transformation is
    not in src/.  A pose is a translation and a unit quaternion; its
    rotation matrix is the one of the quaternion. *)
Record t : Type := mk { r : Vector3d; q : Quaternion.t }.

(** Modelled from the spec: the rotation matrix C() of a Transformation,
    which is not in src/. *)
Definition C (T : t) : Matrix3d := Quaternion.toRotationMatrix (q T).

(** Modelled from the spec: the constructor Transformation(r, q), which is
    not in src/; it keeps the translation and renormalises the
    quaternion. *)
Definition make (r_AB : Vector3d) (q_AB : Quaternion.t) : t :=
  mk r_AB (Quaternion.normalized q_AB).

(** Modelled from the spec: Transformation::inverse(), which is not in
    src/: the pose with rotation C^T and translation -(C^T r). *)
Definition inverse (T : t) : t :=
  make (neg3 (mat3_mul_vec (transpose3 (C T)) (r T)))
       (Quaternion.inverse (q T)).

(** Modelled from the spec: Transformation::operator*, which is not in
    src/: the composition of two poses. *)
Definition mul (T1 T2 : t) : t :=
  make (add3 (mat3_mul_vec (C T1) (r T2)) (r T1))
       (Quaternion.mul (q T1) (q T2)).

(** Modelled from the spec: the default Transformation, which is not in
    src/: the identity. *)
Definition identity : t :=
  mk (mkVector3d 0 0 0) (Quaternion.mk 1 0 0 0).

End Transformation.

(** ** okvis::ceres::RelativePoseError *)

Module RelativePoseError.
Import Eigen Dense.

(** The members of the error term. *)
Record t : Type := {
  T_AB_ : Transformation.t;
  information_ : Matrix;
  covariance_ : Matrix;
  squareRootInformation_ : Matrix
}.

(** Lines 69-75. *)
Definition setInformation (information : Matrix) : M t unit :=
  modify (fun s =>
    let lltOfInformation := compute 6 information in
    {| T_AB_ := T_AB_ s;
       information_ := information;
       covariance_ := inverse 6 information;
       squareRootInformation_ := transpose (matrixL lltOfInformation) |}).

(** The members before the body of a constructor has run. *)
Definition blank : t :=
  {| T_AB_ := Transformation.identity;
     information_ := Zero; covariance_ := Zero;
     squareRootInformation_ := Zero |}.

Definition set_T_AB (T_AB : Transformation.t) : M t unit :=
  modify (fun s =>
    {| T_AB_ := T_AB;
       information_ := information_ s;
       covariance_ := covariance_ s;
       squareRootInformation_ := squareRootInformation_ s |}).

(** Lines 48-52: construct with measurement and information matrix. *)
Definition RelativePoseError (information : Matrix)
    (T_AB : Transformation.t) : t * (exn + unit) :=
  (set_T_AB T_AB ;; setInformation information) blank.

(** Lines 58-63: the block diagonal information matrix of the variances. *)
Definition variance_information (translationVariance rotationVariance : R)
    : Matrix :=
  fun i j =>
    if decide (i < 3 /\ j < 3) then
      (Identity i j * 1.0 / translationVariance)%R
    else if decide (3 <= i < 6 /\ 3 <= j < 6) then
      (Identity (i - 3)%nat (j - 3)%nat * 1.0 / rotationVariance)%R
    else 0%R.

(** Lines 55-66: construct with measurement and variance. *)
Definition RelativePoseError_variance
    (translationVariance rotationVariance : R) (T_AB : Transformation.t)
    : t * (exn + unit) :=
  (set_T_AB T_AB ;;
   setInformation (variance_information translationVariance rotationVariance))
    blank.

(** Lines 90-97: the pose of a parameter block (position, then the
    quaternion as x, y, z, w), with the quaternion renormalised. *)
Definition pose_of (p : nat -> R) : Transformation.t :=
  Transformation.make
    (mkVector3d (p 0) (p 1) (p 2))
    (Quaternion.normalized (Quaternion.mk (p 6) (p 3) (p 4) (p 5))).

(** Line 100: the estimated relative transform. *)
Definition estimated_T_AB (parameters : nat -> nat -> R) : Transformation.t :=
  let T_WA := pose_of (parameters 0) in
  let T_WB := pose_of (parameters 1) in
  Transformation.mul (Transformation.inverse T_WA) T_WB.

(** Lines 101-103: the error vector. *)
Definition error (s : t) (parameters : nat -> nat -> R) : Vector :=
  let T_AB := estimated_T_AB parameters in
  let head := Transformation.sub3 (Transformation.r (T_AB_ s))
                                  (Transformation.r T_AB) in
  let tail := scale3 2.0%R
                (Quaternion.vec
                   (Quaternion.mul (Transformation.q (T_AB_ s))
                      (Quaternion.inverse (Transformation.q T_AB)))) in
  fun i =>
    match i with
    | 0 => v3x head | 1 => v3y head | 2 => v3z head
    | 3 => v3x tail | 4 => v3y tail | 5 => v3z tail
    | _ => 0%R
    end.

(** Lines 85-167, as far as the residual goes: the return value and the
    six residuals written (the Jacobians written on request do not enter
    the residual and are left out). *)
Definition EvaluateWithMinimalJacobians (s : t) (parameters : nat -> nat -> R)
    : bool * Vector :=
  (true, mvmul 6 (squareRootInformation_ s) (error s parameters)).

(** Lines 78-81. *)
Definition Evaluate (s : t) (parameters : nat -> nat -> R) : bool * Vector :=
  EvaluateWithMinimalJacobians s parameters.

(** The estimated relative transform is the measured one: the same
    translation and the same rotation. *)
Definition same_transform (T1 T2 : Transformation.t) : Prop :=
  Transformation.r T1 = Transformation.r T2 /\
  Transformation.C T1 = Transformation.C T2.

(** The quaternion of a parameter block is not the zero quaternion. *)
Definition proper_pose (p : nat -> R) : Prop :=
  (0 < Quaternion.squaredNorm
         (Quaternion.mk (p 6%nat) (p 3%nat) (p 4%nat) (p 5%nat)))%R.

End RelativePoseError.

(** ** okvis::Component *)

Module Component.

Section Component.
Variables ImuParameters NCameraSystem GraphContent MultiFrame : Type.

(** [fullGraph_] points to a graph of the caller or to the graph that
    [fullGraphOwn_] owns. *)
Inductive ownership : Type := Owned | Borrowed.

(** The members declared in okvis/Component.hpp; the graph is kept by the
    content [fullGraph_] points to, with the kind of the pointer. *)
Record t : Type := {
  imuParameters_ : ImuParameters;
  nCameraSystem_ : NCameraSystem;
  fullGraph_ : GraphContent;
  graph_ownership : ownership;
  multiFrames_ : gmap N MultiFrame
}.

(** Modelled from the spec: what is persisted at a location, which is
    not in src/: the four parts of a component, each of which may fail to
    deserialize ([None]). *)
Record Persisted : Type := {
  p_imuParameters : option ImuParameters;
  p_nCameraSystem : option NCameraSystem;
  p_graph : option GraphContent;
  p_multiFrames : option (gmap N MultiFrame)
}.

(** Modelled from the spec: the deserialization done by Component::load,
    which is not in src/: every part has to be read. *)
Definition deserialize (file : Persisted)
    : option (ImuParameters * NCameraSystem * GraphContent *
              gmap N MultiFrame) :=
  imu ← p_imuParameters file;
  rig ← p_nCameraSystem file;
  graph ← p_graph file;
  frames ← p_multiFrames file;
  Some (imu, rig, graph, frames).

(** Modelled from the spec: Component::load, of which only the
    declaration is in src/.  Either all four parts are read and replace
    the ones of the component, and the result is true, or the component is
    left as it was and the result is false. *)
Definition load (storage : gmap string Persisted) (path : string) (c : t)
    : bool * t :=
  match storage !! path ≫= deserialize with
  | Some (imu, rig, graph, frames) =>
      (true,
       {| imuParameters_ := imu;
          nCameraSystem_ := rig;
          fullGraph_ := graph;
          graph_ownership := graph_ownership c;
          multiFrames_ := frames |})
  | None => (false, c)
  end.

End Component.

End Component.

(** ** The adapter: further notions *)

Module AdapterOrder.
Import Eigen Adapter.

(** The (camera index, keypoint index) pair of every correspondence, in
    the order of the arrays. *)
Definition stored_pairs (a : t) : list (nat * nat) :=
  zip (camIndices_ a) (keypointIndices_ a).

(** Camera first, then keypoint: the order in which the two loops of the
    constructor visit the keypoints. *)
Definition pair_lt (p q : nat * nat) : Prop :=
  p.1 < q.1 \/ (p.1 = q.1 /\ p.2 < q.2).

End AdapterOrder.

Module AdapterSimulation.
Import Eigen Adapter.

(** Two adapter states with the same 3D points, camera indices and
    keypoint indices. *)
Definition same_geometry (a1 a2 : t) : Prop :=
  points_ a1 = points_ a2 /\ camIndices_ a1 = camIndices_ a2 /\
  keypointIndices_ a1 = keypointIndices_ a2.

(** Two frames with the same id and the same number of keypoints in
    every camera. *)
Definition same_layout (f1 f2 : MultiFrame) : Prop :=
  id f1 = id f2 /\ forall im, numKeypoints f1 im = numKeypoints f2 im.

End AdapterSimulation.

(** ** RelativePoseError: further notions *)

Module PoseVariants.
Import Eigen Dense.

(** Two matrices with the same lower triangle (diagonal included). *)
Definition same_lower (n : nat) (A B : Matrix) : Prop :=
  forall i j, j <= i < n -> A i j = B i j.

(** A parameter block with its quaternion (entries 3 to 6) multiplied by
    [c]; the position is kept. *)
Definition scale_quaternion (c : R) (p : nat -> R) : nat -> R :=
  fun i => if decide (3 <= i < 7) then (c * p i)%R else p i.

(** Both parameter blocks with their quaternions rescaled. *)
Definition rescale (cA cB : R) (parameters : nat -> nat -> R)
    : nat -> nat -> R :=
  fun b => match b with
           | 0 => scale_quaternion cA (parameters 0)
           | 1 => scale_quaternion cB (parameters 1)
           | _ => parameters b
           end.

(** The quaternion of block [b0] replaced by its negative, which stands
    for the same rotation. *)
Definition flip (b0 : nat) (parameters : nat -> nat -> R)
    : nat -> nat -> R :=
  fun b => if decide (b = b0) then scale_quaternion (-1) (parameters b)
           else parameters b.

(** The diagonal of the information matrix that the variance constructor
    builds. *)
Definition variance_diagonal (translationVariance rotationVariance : R)
    (i : nat) : R :=
  if decide (i < 3) then (1 * 1.0 / translationVariance)%R
  else if decide (i < 6) then (1 * 1.0 / rotationVariance)%R
  else 0%R.

(** The negative of a quaternion, and a pose with its quaternion
    negated. *)
Definition qneg (q : Quaternion.t) : Quaternion.t :=
  Quaternion.mk (- Quaternion.w q) (- Quaternion.x q)
                (- Quaternion.y q) (- Quaternion.z q).
Definition tneg (T : Transformation.t) : Transformation.t :=
  Transformation.mk (Transformation.r T) (qneg (Transformation.q T)).

End PoseVariants.

(** ** RelativePoseError: the minimal Jacobians of lines 109-147 *)

Module RelativePoseErrorJacobians.
Import Eigen Dense RelativePoseError.

(** The entries of a 3 x 3 matrix given by rows. *)
Definition entries3 (C : Matrix3d) : Matrix :=
  fun i j =>
    let '(r0, r1, r2) := C in
    let row := match i with 0 => Some r0 | 1 => Some r1 | 2 => Some r2
               | _ => None end in
    match row, j with
    | Some v, 0 => v3x v | Some v, 1 => v3y v | Some v, 2 => v3z v
    | _, _ => 0%R
    end.

(** Unary minus on a matrix. *)
Definition mopp (A : Matrix) : Matrix := fun i j => (- A i j)%R.

Section Jacobians.
(** Functions of okvis::kinematics that are declared outside of src/;
    they are parameters here. *)
Variable crossMx : Vector3d -> Matrix.                (* 3 x 3 *)
Variable plus : Quaternion.t -> Matrix.               (* 4 x 4 *)
Variable oplus : Quaternion.t -> Matrix.              (* 4 x 4 *)

Variable s : t.
Variable parameters : nat -> nat -> R.

Definition T_WA : Transformation.t := pose_of (parameters 0).
Definition T_WB : Transformation.t := pose_of (parameters 1).
Definition T_AW : Transformation.t := Transformation.inverse T_WA.
Definition T_BW : Transformation.t := Transformation.inverse T_WB.

(** -T_AW.C() * crossMx(T_WB.r() - T_WA.r()) *)
Definition translation_rotation_block : Matrix :=
  mmul 3 (mopp (entries3 (Transformation.C T_AW)))
         (crossMx (Transformation.sub3 (Transformation.r T_WB)
                                       (Transformation.r T_WA))).

(** plus(T_AB_.q() * T_BW.q()) * oplus(T_WA.q()), of which the top left
    3 x 3 corner is used. *)
Definition rotation_block : Matrix :=
  mmul 4 (plus (Quaternion.mul (Transformation.q (T_AB_ s))
                               (Transformation.q T_BW)))
         (oplus (Transformation.q T_WA)).

(** Lines 117-121: J0_minimal before it is weighted. *)
Definition J0_unweighted : Matrix :=
  fun i j =>
    if decide (i < 3 /\ j < 3) then entries3 (Transformation.C T_AW) i j
    else if decide (i < 3 /\ 3 <= j < 6) then
      translation_rotation_block i (j - 3)
    else if decide (3 <= i < 6 /\ 3 <= j < 6) then
      rotation_block (i - 3) (j - 3)
    else Identity i j.

(** Lines 143-146: J1_minimal before it is weighted. *)
Definition J1_unweighted : Matrix :=
  fun i j =>
    if decide (i < 3 /\ j < 3) then
      mopp (entries3 (Transformation.C T_AW)) i j
    else if decide (3 <= i < 6 /\ 3 <= j < 6) then
      mopp rotation_block (i - 3) (j - 3)
    else Identity i j.

(** Lines 122 and 147. *)
Definition J0_minimal : Matrix := mmul 6 (squareRootInformation_ s) J0_unweighted.
Definition J1_minimal : Matrix := mmul 6 (squareRootInformation_ s) J1_unweighted.

(** The block of J0_minimal that J1_minimal has no counterpart for. *)
Definition coupling : Matrix :=
  fun i j =>
    if decide (i < 3 /\ 3 <= j < 6) then translation_rotation_block i (j - 3)
    else 0%R.

End Jacobians.

End RelativePoseErrorJacobians.

(** ** The relative pose of two parameter blocks *)

Module RelativePose.
Import Eigen.

(** Lines 91 and 95: the position of a parameter block, its entries 0..2. *)
Definition position (p : nat -> R) : Vector3d :=
  mkVector3d (p 0%nat) (p 1%nat) (p 2%nat).

(** Lines 92-93 and 96-97: the rotation matrix of a parameter block, that
    of its renormalised quaternion, read as x, y, z, w from the entries
    3..6. *)
Definition rotation (p : nat -> R) : Matrix3d :=
  Quaternion.toRotationMatrix
    (Quaternion.normalized
       (Quaternion.mk (p 6%nat) (p 3%nat) (p 4%nat) (p 5%nat))).

(** The columns of a matrix given by its rows, and the scalar product. *)
Definition col_x (C : Matrix3d) : Vector3d :=
  let '(r0, r1, r2) := C in mkVector3d (v3x r0) (v3x r1) (v3x r2).
Definition col_y (C : Matrix3d) : Vector3d :=
  let '(r0, r1, r2) := C in mkVector3d (v3y r0) (v3y r1) (v3y r2).
Definition col_z (C : Matrix3d) : Vector3d :=
  let '(r0, r1, r2) := C in mkVector3d (v3z r0) (v3z r1) (v3z r2).
Definition dot (u v : Vector3d) : R :=
  (v3x u * v3x v + v3y u * v3y v + v3z u * v3z v)%R.

(** Modelled from the spec: the translation of inverse(pose A) composed
    with pose B, written out on the two blocks: C_A^T (r_B - r_A), whose
    entry i is column i of C_A times the difference of the positions. *)
Definition relative_translation (pA pB : nat -> R) : Vector3d :=
  let C_A := rotation pA in
  let d := mkVector3d (v3x (position pB) - v3x (position pA))
                      (v3y (position pB) - v3y (position pA))
                      (v3z (position pB) - v3z (position pA)) in
  mkVector3d (dot (col_x C_A) d) (dot (col_y C_A) d) (dot (col_z C_A) d).

(** Modelled from the spec: the rotation of inverse(pose A) composed with
    pose B, written out on the two blocks: C_A^T C_B, whose entry (i, j)
    is column i of C_A times column j of C_B. *)
Definition relative_rotation (pA pB : nat -> R) : Matrix3d :=
  let C_A := rotation pA in
  let C_B := rotation pB in
  (mkVector3d (dot (col_x C_A) (col_x C_B)) (dot (col_x C_A) (col_y C_B))
              (dot (col_x C_A) (col_z C_B)),
   mkVector3d (dot (col_y C_A) (col_x C_B)) (dot (col_y C_A) (col_y C_B))
              (dot (col_y C_A) (col_z C_B)),
   mkVector3d (dot (col_z C_A) (col_x C_B)) (dot (col_z C_A) (col_y C_B))
              (dot (col_z C_A) (col_z C_B))).

(** A point of frame B seen through a pose with rotation C and
    translation r: C p + r, by rows. *)
Definition transform_point (C : Matrix3d) (r p : Vector3d) : Vector3d :=
  let '(r0, r1, r2) := C in
  mkVector3d (dot r0 p + v3x r) (dot r1 p + v3y r) (dot r2 p + v3z r).

End RelativePose.

(** ** Concrete inputs used by the examples *)

Module AdapterExamples.
Import Eigen Adapter.

Definition hp_finite : Vector4d := mkVector4d 2 4 6 2.
Definition hp_infinite : Vector4d := mkVector4d 1 1 1 0.

(** A landmark table with one finite landmark and one at infinity. *)
Definition ex_points : gmap N Vector4d :=
  <[5%N := hp_finite]> (<[9%N := hp_infinite]> ∅).

(** Frame 7: two cameras with two keypoints each; back-projection works
    for keypoint 0 and fails for keypoint 1. *)
Definition ex_frame : MultiFrame :=
  {| id := 7%N;
     T_SC_r := fun _ => mkVector3d 0 0 0;
     T_SC_C := fun _ => (mkVector3d 1 0 0, mkVector3d 0 1 0, mkVector3d 0 0 1);
     numKeypoints := fun _ => 2;
     focalLengthU := fun _ _ => 400%R;
     getKeypointSize := fun _ _ => 6%R;
     getBackProjection := fun _ k =>
       match k with 0 => Some (mkVector3d 0 0 2) | _ => None end |}.

Definition ex_matches : gmap KeypointIdentifier N :=
  <[(7%N, 0, 0) := 5%N]> (<[(7%N, 0, 1) := 0%N]>
  (<[(7%N, 1, 0) := 9%N]> (<[(7%N, 1, 1) := 5%N]> ∅))).

(** An association to landmark 3, which is not in [ex_points]. *)
Definition ex_matches_dangling : gmap KeypointIdentifier N :=
  <[(7%N, 0, 0) := 3%N]> ∅.

Definition ex_rig : NCameraSystem :=
  {| numCameras := 2; distortionType := fun _ => Equidistant |}.

Definition ex_rig_mixed : NCameraSystem :=
  {| numCameras := 2;
     distortionType := fun i => match i with 0 => Equidistant | _ => RadialTangential end |}.

Definition ex_rig_other : NCameraSystem :=
  {| numCameras := 1; distortionType := fun _ => OtherDistortion |}.

(** [ex_frame] with other extrinsics, focal lengths and keypoint sizes,
    and with every back-projection failing. *)
Definition ex_frame_other_pixels : MultiFrame :=
  {| id := 7%N;
     T_SC_r := fun _ => mkVector3d 1 1 1;
     T_SC_C := fun _ => (mkVector3d 1 0 0, mkVector3d 0 1 0, mkVector3d 0 0 1);
     numKeypoints := fun _ => 2;
     focalLengthU := fun _ _ => 500%R;
     getKeypointSize := fun _ _ => 9%R;
     getBackProjection := fun _ _ => None |}.

End AdapterExamples.

Module PoseExamples.
Import Eigen Dense.

(** Both poses at the origin with the identity quaternion
    (x, y, z, w) = (0, 0, 0, 1). *)
Definition ex_parameters : nat -> nat -> R :=
  fun _ i => match i with 6 => 1%R | _ => 0%R end.

(** A symmetric matrix that is not positive definite. *)
Definition ex_not_pd : Matrix := Zero.

(** The identity with the entry (0, 1) above the diagonal changed. *)
Definition ex_upper_changed : Matrix :=
  fun i j => if decide (i = 0 /\ j = 1) then 5%R else Identity i j.

(** Pose A with the zero quaternion, pose B with the identity quaternion. *)
Definition ex_parameters_zero_A : nat -> nat -> R :=
  fun b i => match b, i with 1, 6 => 1%R | _, _ => 0%R end.

(** The 2 x 2 matrix [[4, 2], [2, 3]], positive definite. *)
Definition ex_spd2 : Matrix :=
  fun i j =>
    match i, j with
    | 0, 0 => 4%R | 0, 1 => 2%R | 1, 0 => 2%R | 1, 1 => 3%R
    | _, _ => 0%R
    end.

(** The 2 x 2 matrix [[1, 2], [2, 1]], symmetric and indefinite. *)
Definition ex_indefinite2 : Matrix :=
  fun i j =>
    match i, j with
    | 0, 0 => 1%R | 0, 1 => 2%R | 1, 0 => 2%R | 1, 1 => 1%R
    | _, _ => 0%R
    end.

End PoseExamples.

(* ================================================================== *)
(** * Part II: lemmas and theorems                                     *)
(* ================================================================== *)

(** ** The monad *)

Ltac munfold :=
  unfold mbind, M_bind, mret, M_ret, bind, ret, throw, modify,
    OKVIS_ASSERT_TRUE in *.

Lemma for_each_cons {S A} (x : A) (l : list A) (body : A -> M S unit) s :
  for_each (x :: l) body s =
  match body x s with
  | (s', inl e) => (s', inl e)
  | (s', inr _) => for_each l body s'
  end.
Proof. reflexivity. Qed.

Lemma for_each_assert {S A} (c : A -> bool) msg (l : list A) (s : S) :
  for_each l (fun i => OKVIS_ASSERT_TRUE (c i) msg) s =
  if forallb c l then (s, inr tt) else (s, inl (Exception msg)).
Proof.
  induction l as [|x l IH]; [reflexivity|].
  rewrite for_each_cons. simpl. unfold OKVIS_ASSERT_TRUE at 1.
  destruct (c x); simpl; [exact IH | reflexivity].
Qed.

(** ** LoopclosureNoncentralAbsoluteAdapter *)

Module AdapterFacts.
Import Eigen Adapter.

Section Constructor.
Variable points : gmap N Vector4d.
Variable matches : gmap KeypointIdentifier N.
Variable nCameraSystem : NCameraSystem.
Variable frameB : MultiFrame.

Local Abbreviation n := (numCameras nCameraSystem) (only parsing).
Local Abbreviation dt := (distortionType nCameraSystem) (only parsing).
Local Abbreviation classify := (classify points matches frameB) (only parsing).

Lemma classify_Accept im k hp :
  classify im k = Accept hp <->
  exists lmId, matches !! (id frameB, im, k) = Some lmId /\ lmId <> 0%N /\
    points !! lmId = Some hp /\ (1.0e-8 <= Rabs (h3 hp))%R.
Proof.
  unfold Adapter.classify. split.
  - destruct (matches !! _) as [lm|] eqn:Em; [|discriminate].
    destruct (decide (lm = 0%N)); [discriminate|].
    destruct (points !! lm) as [hp'|] eqn:E; [|discriminate].
    destruct (decide _) as [|Hw]; [discriminate|].
    intros [= ->]. exists lm.
    split; [reflexivity|]. split; [assumption|]. split; [assumption|].
    apply Rnot_lt_le, Hw.
  - intros (lm & -> & Hlm & -> & Hw).
    destruct (decide (lm = 0%N)); [contradiction|].
    destruct (decide _) as [Hlt|]; [|reflexivity].
    exfalso. apply (Rlt_not_le _ _ Hlt), Hw.
Qed.

Lemma classify_Missing im k :
  classify im k = Missing <-> dangling_association points matches frameB im k.
Proof.
  unfold Adapter.classify, dangling_association. split.
  - destruct (matches !! _) as [lm|]; [|discriminate].
    destruct (decide (lm = 0%N)); [discriminate|].
    destruct (points !! lm) as [hp'|] eqn:E.
    + destruct (decide _); discriminate.
    + intros _. exists lm. auto.
  - intros (lm & -> & Hlm & ->).
    destruct (decide (lm = 0%N)); [contradiction | reflexivity].
Qed.

Lemma valid_association_classify im k :
  valid_association points matches frameB im k <->
  exists hp, classify im k = Accept hp.
Proof.
  split.
  - intros (lm & hp & H). exists hp. apply classify_Accept. eauto.
  - intros (hp & H). apply classify_Accept in H as (lm & H).
    exists lm, hp. exact H.
Qed.

(** The loop body, by the status of its keypoint. *)
Lemma keypoint_body_classify fu im k a :
  keypoint_body points matches frameB fu im k a =
  match classify im k with
  | Skip => (a, inr tt)
  | Missing => (a, inl out_of_range)
  | Accept hp =>
      (push_correspondence (div3 (head3 hp) (h3 hp)) (bearing_of frameB im k)
         (sigma_of frameB fu im k) im k a, inr tt)
  end.
Proof.
  unfold keypoint_body, Adapter.classify.
  destruct (matches !! _) as [lm|]; [|reflexivity].
  destruct (decide (lm = 0%N)); [reflexivity|].
  destruct (points !! lm) as [hp|]; [|reflexivity].
  destruct (decide _); reflexivity.
Qed.

Local Abbreviation after := (after frameB) (only parsing).
Local Abbreviation accepted_in := (accepted_in points matches frameB) (only parsing).
Local Abbreviation accepted_of := (accepted_of points matches frameB) (only parsing).

Lemma after_nil d a : after d a [] [] = a.
Proof. destruct a; unfold Adapter.after; simpl. by rewrite !app_nil_r. Qed.

Lemma after_push_correspondence d a im k hp cs :
  after d (push_correspondence (div3 (head3 hp) (h3 hp))
             (bearing_of frameB im k)
             (sigma_of frameB (focalLengthU frameB d im) im k) im k a) [] cs =
  after d a [] ((im, k, hp) :: cs).
Proof.
  unfold Adapter.after, push_correspondence; simpl.
  by rewrite <- !app_assoc.
Qed.

Lemma after_push_camera d a im ims cs :
  after d (after d (push_camera (T_SC_r frameB im) (T_SC_C frameB im) a) [] cs)
        ims [] =
  after d (after d a [] cs) (im :: ims) [].
Proof.
  unfold Adapter.after, push_camera; simpl.
  by rewrite !app_nil_r, <- !app_assoc.
Qed.

Lemma after_after d a ims cs ims' cs' :
  after d (after d a ims cs) ims' cs' = after d a (ims ++ ims') (cs ++ cs').
Proof.
  unfold Adapter.after; simpl. by rewrite !map_app, !app_assoc.
Qed.

(** *** The keypoint loop *)

Lemma keypoint_loop_ok d im ks a :
  (forall k, k ∈ ks -> classify im k <> Missing) ->
  for_each ks (keypoint_body points matches frameB (focalLengthU frameB d im) im) a =
  (after d a [] (accepted_in im ks), inr tt).
Proof.
  revert a. induction ks as [|k ks IH]; intros a Hks.
  - simpl. by rewrite after_nil.
  - rewrite for_each_cons, keypoint_body_classify.
    assert (Hk : classify im k <> Missing) by (apply Hks; left).
    assert (Hks' : forall k', k' ∈ ks -> classify im k' <> Missing)
      by (intros; apply Hks; by right).
    unfold Adapter.accepted_in. simpl.
    destruct (Adapter.classify _ _ _ im k) as [| |hp]; [| contradiction |].
    + apply IH, Hks'.
    + rewrite IH by exact Hks'. by rewrite after_push_correspondence.
Qed.

Lemma keypoint_loop_missing fu im ks a :
  (exists k, k ∈ ks /\ classify im k = Missing) ->
  exists a', for_each ks (keypoint_body points matches frameB fu im) a =
             (a', inl out_of_range).
Proof.
  revert a. induction ks as [|k ks IH]; intros a (k0 & Hin & Hk0).
  - by apply elem_of_nil in Hin.
  - rewrite for_each_cons, keypoint_body_classify.
    apply elem_of_cons in Hin as [->|Hin].
    + rewrite Hk0. eauto.
    + destruct (Adapter.classify _ _ _ im k); eauto.
Qed.

(** *** The camera loop *)

Lemma focal_length_supported d im a :
  supported d ->
  focal_length frameB d im a = (a, inr (focalLengthU frameB d im)).
Proof. unfold supported. destruct d; intros H; [reflexivity.. | contradiction]. Qed.

Lemma camera_loop_ok d ims a :
  supported d -> no_missing points matches frameB ims ->
  for_each ims (camera_body points matches frameB d) a =
  (after d a ims (accepted_of ims), inr tt).
Proof.
  intros Hd. revert a. induction ims as [|im ims IH]; intros a Hims.
  - simpl. by rewrite after_nil.
  - rewrite for_each_cons. unfold camera_body at 1. munfold.
    rewrite (focal_length_supported _ _ _ Hd).
    rewrite keypoint_loop_ok.
    2:{ intros k Hk. apply Hims; [by left|].
        apply elem_of_seq in Hk. lia. }
    rewrite IH.
    2:{ intros im' k Him'. apply Hims. by right. }
    unfold Adapter.after, push_camera, Adapter.accepted_of. simpl.
    by rewrite !map_app, <- !app_assoc.
Qed.

Lemma keypoint_loop_inv fu im ks a a' :
  for_each ks (keypoint_body points matches frameB fu im) a = (a', inr tt) ->
  forall k, k ∈ ks -> classify im k <> Missing.
Proof.
  revert a. induction ks as [|k ks IH]; intros a Hrun k0 Hin.
  - by apply elem_of_nil in Hin.
  - rewrite for_each_cons, keypoint_body_classify in Hrun.
    apply elem_of_cons in Hin as [->|Hin].
    + destruct (Adapter.classify _ _ _ im k); congruence.
    + destruct (Adapter.classify _ _ _ im k); try discriminate;
        eapply IH; eauto.
Qed.

Lemma camera_body_unsupported im a :
  camera_body points matches frameB OtherDistortion im a =
  (push_camera (T_SC_r frameB im) (T_SC_C frameB im) a,
   inl (Exception "Unsupported distortion type")).
Proof. reflexivity. Qed.

Lemma camera_body_supported d im a :
  supported d ->
  camera_body points matches frameB d im a =
  for_each (seq 0 (numKeypoints frameB im))
    (keypoint_body points matches frameB (focalLengthU frameB d im) im)
    (push_camera (T_SC_r frameB im) (T_SC_C frameB im) a).
Proof.
  intros Hd. unfold camera_body. munfold.
  by rewrite (focal_length_supported _ _ _ Hd).
Qed.

Lemma camera_loop_inv d ims a a' :
  for_each ims (camera_body points matches frameB d) a = (a', inr tt) ->
  (ims <> [] -> supported d) /\ no_missing points matches frameB ims.
Proof.
  destruct (decide (d = OtherDistortion)) as [->|Hd].
  - destruct ims as [|im ims]; [split; [done|]|].
    + intros im k Him. by apply elem_of_nil in Him.
    + rewrite for_each_cons, camera_body_unsupported. discriminate.
  - intros Hrun. split; [done|].
    revert a Hrun. induction ims as [|im ims IH]; intros a Hrun im0 k Him Hk.
    + by apply elem_of_nil in Him.
    + rewrite for_each_cons, camera_body_supported in Hrun by exact Hd.
      destruct (for_each (seq 0 _) _ _) as [a1 [e|[]]] eqn:E; [discriminate|].
      apply elem_of_cons in Him as [->|Him].
      * eapply keypoint_loop_inv; [exact E|]. apply elem_of_seq. lia.
      * eapply IH; eauto.
Qed.

Lemma camera_loop_missing d ims a :
  supported d ->
  (exists im k, im ∈ ims /\ k < numKeypoints frameB im /\
                classify im k = Missing) ->
  exists a', for_each ims (camera_body points matches frameB d) a =
             (a', inl out_of_range).
Proof.
  intros Hd. revert a.
  induction ims as [|im ims IH]; intros a (im0 & k & Him & Hk & Hm).
  - by apply elem_of_nil in Him.
  - rewrite for_each_cons, camera_body_supported by exact Hd.
    apply elem_of_cons in Him as [->|Him].
    + destruct (keypoint_loop_missing (focalLengthU frameB d im) im
                  (seq 0 (numKeypoints frameB im))
                  (push_camera (T_SC_r frameB im) (T_SC_C frameB im) a))
        as [a' ->]; [|eauto].
      exists k. split; [apply elem_of_seq; lia | exact Hm].
    + destruct (for_each (seq 0 _) _ _) as [a1 [e|[]]] eqn:E.
      * (* an earlier keypoint of this camera already threw: it can only
           be the lookup *)
        assert (e = out_of_range) as ->; [|eauto].
        clear -E. revert E.
        generalize (push_camera (T_SC_r frameB im) (T_SC_C frameB im) a).
        induction (seq 0 (numKeypoints frameB im)) as [|k ks IHk];
          intros a0; [discriminate|].
        rewrite for_each_cons, keypoint_body_classify.
        destruct (Adapter.classify _ _ _ im k); eauto; congruence.
      * apply IH. eauto.
Qed.

(** *** The rig check *)

Lemma find_distortion_type_single a :
  single_family nCameraSystem ->
  find_distortion_type nCameraSystem a = (a, inr (dt 0)).
Proof.
  intros Hs. unfold find_distortion_type, mbind, M_bind, bind, ret.
  rewrite (for_each_assert
             (fun i => bool_decide (dt 0 = dt i))).
  replace (forallb _ _) with true; [reflexivity|].
  symmetry. apply forallb_forall. intros i Hi.
  apply bool_decide_eq_true. symmetry. apply Hs.
  apply in_seq in Hi. lia.
Qed.

Lemma mixed_rig_witness :
  mixed_rig nCameraSystem ->
  exists i, 1 <= i < n /\ dt 0 <> dt i.
Proof.
  intros (i & j & Hi & Hj & Hij).
  destruct (decide (dt 0 = dt i)) as [E0|N0].
  - exists j. split.
    + destruct j; [|lia]. congruence.
    + congruence.
  - exists i. split; [|exact N0]. destruct i; [congruence | lia].
Qed.

Lemma find_distortion_type_mixed a :
  mixed_rig nCameraSystem ->
  find_distortion_type nCameraSystem a =
  (a, inl (Exception "mixed frame types are not supported yet")).
Proof.
  intros Hm. unfold find_distortion_type, mbind, M_bind, bind, ret.
  rewrite (for_each_assert (fun i => bool_decide (dt 0 = dt i))).
  destruct (forallb _ _) eqn:E; [|reflexivity].
  exfalso. apply mixed_rig_witness in Hm as (i & Hi & Hne).
  rewrite forallb_forall in E.
  specialize (E i). rewrite bool_decide_eq_true in E.
  apply Hne, E, in_seq. lia.
Qed.

Lemma single_or_mixed :
  single_family nCameraSystem \/ mixed_rig nCameraSystem.
Proof.
  destruct (Forall_Exists_dec (fun i => dt 0 = dt i) (fun i => dt 0 <> dt i)
              (fun i => decide (dt 0 = dt i)) (seq 0 n)) as [Hall|Hex].
  - left. intros i Hi. symmetry.
    eapply Forall_forall in Hall; [exact Hall|]. apply elem_of_seq. lia.
  - right. apply Exists_exists in Hex as (i & Hi & Hne).
    apply elem_of_seq in Hi. exists 0, i. repeat split; try lia. exact Hne.
Qed.

(** *** The constructor *)

Local Abbreviation outcome :=
  (LoopclosureNoncentralAbsoluteAdapter points matches nCameraSystem frameB)
  (only parsing).
Local Abbreviation built :=
  (Adapter.after frameB (dt 0) empty (seq 0 n)
     (accepted points matches nCameraSystem frameB)) (only parsing).

Lemma ids_present_no_missing :
  ids_present points matches nCameraSystem frameB <->
  no_missing points matches frameB (seq 0 n).
Proof.
  unfold ids_present, no_missing. split; intros H im k Him Hk.
  - rewrite classify_Missing. apply H; [|exact Hk].
    apply elem_of_seq in Him. lia.
  - rewrite <- classify_Missing. apply H; [|exact Hk].
    apply elem_of_seq. lia.
Qed.

Lemma construct_ok :
  rig_ok nCameraSystem -> ids_present points matches nCameraSystem frameB ->
  outcome = (built, inr tt).
Proof.
  intros [Hs Hd] Hids.
  unfold LoopclosureNoncentralAbsoluteAdapter, construct, mbind, M_bind, bind.
  rewrite find_distortion_type_single by exact Hs.
  destruct (decide (n = 0)) as [E|Hn].
  - unfold Adapter.accepted. rewrite E. reflexivity.
  - apply camera_loop_ok; [apply Hd; lia|].
    by apply ids_present_no_missing.
Qed.

Lemma construct_inv a :
  outcome = (a, inr tt) ->
  rig_ok nCameraSystem /\ ids_present points matches nCameraSystem frameB /\
  a = built.
Proof.
  unfold LoopclosureNoncentralAbsoluteAdapter, construct, mbind, M_bind, bind.
  destruct single_or_mixed as [Hs|Hm].
  2:{ rewrite find_distortion_type_mixed by exact Hm. discriminate. }
  rewrite find_distortion_type_single by exact Hs.
  intros Hrun. pose proof Hrun as Hinv.
  apply camera_loop_inv in Hinv as [Hd Hmiss].
  assert (Hrig : rig_ok nCameraSystem).
  { split; [exact Hs|]. intros Hn. apply Hd.
    destruct n; [lia | discriminate]. }
  assert (Hids : ids_present points matches nCameraSystem frameB)
    by (by apply ids_present_no_missing).
  split; [exact Hrig|]. split; [exact Hids|].
  pose proof (construct_ok Hrig Hids) as Hok.
  unfold LoopclosureNoncentralAbsoluteAdapter, construct, mbind, M_bind, bind
    in Hok.
  rewrite find_distortion_type_single in Hok by exact Hs.
  rewrite Hok in Hrun. by injection Hrun as <-.
Qed.

Lemma construct_mixed :
  mixed_rig nCameraSystem ->
  outcome = (empty, inl (Exception "mixed frame types are not supported yet")).
Proof.
  intros Hm.
  unfold LoopclosureNoncentralAbsoluteAdapter, construct, mbind, M_bind, bind.
  by rewrite find_distortion_type_mixed.
Qed.

Lemma construct_unsupported :
  single_family nCameraSystem -> 0 < n -> dt 0 = OtherDistortion ->
  outcome = (push_camera (T_SC_r frameB 0) (T_SC_C frameB 0) empty,
             inl (Exception "Unsupported distortion type")).
Proof.
  intros Hs Hn Hd.
  unfold LoopclosureNoncentralAbsoluteAdapter, construct, mbind, M_bind, bind.
  rewrite find_distortion_type_single by exact Hs.
  destruct n as [|m]; [lia|]. simpl seq.
  by rewrite for_each_cons, Hd, camera_body_unsupported.
Qed.

Lemma construct_dangling :
  rig_ok nCameraSystem ->
  (exists im k, im < n /\ k < numKeypoints frameB im /\
     dangling_association points matches frameB im k) ->
  exists a', outcome = (a', inl out_of_range).
Proof.
  intros [Hs Hd] (im & k & Him & Hk & Hdang).
  unfold LoopclosureNoncentralAbsoluteAdapter, construct, mbind, M_bind, bind.
  rewrite find_distortion_type_single by exact Hs.
  apply camera_loop_missing; [apply Hd; lia|].
  exists im, k. split; [apply elem_of_seq; lia|].
  split; [exact Hk|]. by apply classify_Missing.
Qed.

(** *** The arrays of a constructed adapter *)

Lemma has_dangling_spec im k :
  has_dangling points matches frameB im k = true <->
  dangling_association points matches frameB im k.
Proof.
  rewrite <- classify_Missing. unfold has_dangling, Adapter.classify.
  destruct (matches !! _) as [lm|]; [|split; discriminate].
  destruct (decide (lm = 0%N)); [split; discriminate|].
  destruct (points !! lm); [|done].
  destruct (decide _); split; discriminate.
Qed.

Lemma ids_present_check :
  forallb (fun p => negb (has_dangling points matches frameB p.1 p.2))
          (all_pairs nCameraSystem frameB) = true ->
  ids_present points matches nCameraSystem frameB.
Proof.
  rewrite forallb_forall. intros H im k Him Hk Hd.
  apply has_dangling_spec in Hd.
  specialize (H (im, k)). simpl in H. rewrite Hd in H.
  enough (true = false) by discriminate. symmetry. apply H.
  unfold all_pairs. apply in_flat_map. exists im.
  split; [apply in_seq; lia|]. apply in_map, in_seq. lia.
Qed.

Lemma accepted_in_cons im k ks :
  Adapter.accepted_in points matches frameB im (k :: ks) =
  match classify im k with
  | Accept hp => (im, k, hp) :: Adapter.accepted_in points matches frameB im ks
  | _ => Adapter.accepted_in points matches frameB im ks
  end.
Proof.
  unfold Adapter.accepted_in. simpl.
  destruct (Adapter.classify _ _ _ im k); reflexivity.
Qed.

Lemma accepted_in_length im ks :
  length (Adapter.accepted_in points matches frameB im ks) =
  length (filter (fun p => valid_association points matches frameB p.1 p.2)
                 (map (pair im) ks)).
Proof.
  induction ks as [|k ks IH]; [reflexivity|].
  rewrite accepted_in_cons. cbn [map]. rewrite filter_cons. cbn [fst snd].
  destruct (decide (valid_association _ _ _ im k)) as [Hv|Hv].
  - apply valid_association_classify in Hv as [hp ->].
    cbn [length]. by rewrite IH.
  - destruct (Adapter.classify _ _ _ im k) as [| |hp] eqn:E; try exact IH.
    exfalso. apply Hv, valid_association_classify. eauto.
Qed.

Lemma accepted_length :
  length (accepted points matches nCameraSystem frameB) =
  count_valid_pairs points matches nCameraSystem frameB.
Proof.
  unfold accepted, count_valid_pairs, all_pairs, Adapter.accepted_of.
  induction (seq 0 n) as [|im ims IH]; [reflexivity|].
  simpl. rewrite filter_app, !length_app, IH. f_equal.
  apply accepted_in_length.
Qed.

Lemma accepted_in_elem im ks c :
  c ∈ Adapter.accepted_in points matches frameB im ks <->
  exists k, c = (im, k, c.2) /\ k ∈ ks /\ classify im k = Accept c.2.
Proof.
  unfold Adapter.accepted_in. rewrite list_elem_of_omap. split.
  - intros (k & Hk & Hc). exists k.
    destruct (Adapter.classify _ _ _ im k) as [| |hp] eqn:E; try discriminate.
    injection Hc as <-. auto.
  - intros (k & Hc & Hk & Hcl). exists k. split; [exact Hk|].
    rewrite Hcl. by rewrite Hc at 2.
Qed.

Lemma accepted_elem c :
  c ∈ accepted points matches nCameraSystem frameB <->
  cam_of c < n /\ kp_of c < numKeypoints frameB (cam_of c) /\
  classify (cam_of c) (kp_of c) = Accept c.2.
Proof.
  unfold accepted, Adapter.accepted_of.
  rewrite list_elem_of_In, in_flat_map. split.
  - intros (im & Him & Hc). apply list_elem_of_In, accepted_in_elem in Hc
      as (k & Hc & Hk & Hcl).
    apply in_seq in Him. apply elem_of_seq in Hk.
    rewrite Hc. unfold cam_of, kp_of. simpl. repeat split; try lia. exact Hcl.
  - intros (Him & Hk & Hcl). exists (cam_of c). split; [apply in_seq; lia|].
    apply list_elem_of_In, accepted_in_elem. exists (kp_of c).
    split; [by destruct c as [[??]?]|].
    split; [apply elem_of_seq; lia | exact Hcl].
Qed.

(** Every accepted pair is at some index of the accepted list. *)
Lemma accepted_lookup im k hp :
  im < n -> k < numKeypoints frameB im -> classify im k = Accept hp ->
  exists i, accepted points matches nCameraSystem frameB !! i = Some (im, k, hp).
Proof.
  intros Him Hk Hcl. apply list_elem_of_lookup, accepted_elem.
  unfold cam_of, kp_of. simpl. auto.
Qed.

Lemma built_lookup i c :
  accepted points matches nCameraSystem frameB !! i = Some c ->
  points_ built !! i = Some (point_of c) /\
  bearingVectors_ built !! i = Some (bearing_at frameB c) /\
  sigmaAngles_ built !! i = Some (sigma_at frameB (dt 0) c) /\
  camIndices_ built !! i = Some (cam_of c) /\
  keypointIndices_ built !! i = Some (kp_of c).
Proof.
  intros Hc. unfold Adapter.after. simpl.
  rewrite !list_lookup_fmap, Hc. auto.
Qed.

Lemma built_lengths :
  let m := length (accepted points matches nCameraSystem frameB) in
  length (points_ built) = m /\ length (bearingVectors_ built) = m /\
  length (sigmaAngles_ built) = m /\ length (camIndices_ built) = m /\
  length (keypointIndices_ built) = m /\
  length (camOffsets_ built) = n /\ length (camRotations_ built) = n.
Proof.
  unfold Adapter.after. simpl. rewrite !length_map, length_seq. auto 10.
Qed.

End Constructor.

(** *** Eigen facts used by the adapter *)

Lemma squaredNorm3_nonneg v : (0 <= squaredNorm3 v)%R.
Proof. unfold squaredNorm3. nra. Qed.

Lemma normalize_unit v :
  (0 < squaredNorm3 v)%R -> norm3 (normalize v) = 1%R.
Proof.
  intros Hz. unfold normalize, norm3.
  destruct (decide _) as [_|Hn]; [|contradiction].
  assert (Hs : (0 < sqrt (squaredNorm3 v))%R) by (by apply sqrt_lt_R0).
  assert (Hsq : (sqrt (squaredNorm3 v) * sqrt (squaredNorm3 v) =
                 squaredNorm3 v)%R) by (apply sqrt_sqrt; lra).
  replace (squaredNorm3 (div3 v (sqrt (squaredNorm3 v)))) with 1%R;
    [apply sqrt_1|].
  unfold div3. unfold squaredNorm3 at 1. simpl.
  set (s := sqrt (squaredNorm3 v)) in *.
  transitivity (squaredNorm3 v / (s * s))%R.
  - rewrite Hsq. field. lra.
  - unfold squaredNorm3. field. lra.
Qed.

Lemma normalize_fallback :
  normalize (mkVector3d 1 0 0) = mkVector3d 1 0 0.
Proof.
  unfold normalize, squaredNorm3, div3. simpl.
  replace (1 * 1 + 0 * 0 + 0 * 0)%R with 1%R by ring.
  destruct (decide _) as [_|Hn]; [|exfalso; apply Hn; lra].
  rewrite sqrt_1. f_equal; field.
Qed.

Lemma bearing_of_unit frameB im k :
  (forall b, getBackProjection frameB im k = Some b -> (0 < squaredNorm3 b)%R) ->
  norm3 (bearing_of frameB im k) = 1%R.
Proof.
  intros H. unfold bearing_of.
  destruct (getBackProjection frameB im k) as [b|].
  - apply normalize_unit, H. reflexivity.
  - rewrite normalize_fallback. unfold norm3, squaredNorm3. simpl.
    replace (1 * 1 + 0 * 0 + 0 * 0)%R with 1%R by ring. apply sqrt_1.
Qed.

Lemma bearing_of_fallback frameB im k :
  getBackProjection frameB im k = None ->
  bearing_of frameB im k = mkVector3d 1 0 0.
Proof. intros H. unfold bearing_of. rewrite H. apply normalize_fallback. Qed.

End AdapterFacts.

(** ** The adapter: properties of the specification *)

Module AdapterClaims.
Import Eigen Adapter AdapterFacts AdapterExamples.

(** Facts about the example inputs. *)

Lemma ex_rig_ok : rig_ok ex_rig.
Proof. split; [intros i _; reflexivity | intros _; discriminate]. Qed.

Lemma ex_ids_present : ids_present ex_points ex_matches ex_rig ex_frame.
Proof. apply ids_present_check. vm_compute. reflexivity. Qed.

Lemma ex_rig_mixed_is_mixed : mixed_rig ex_rig_mixed.
Proof. exists 0, 1. simpl. repeat split; [lia | lia | discriminate]. Qed.

Lemma ex_dangling :
  dangling_association ex_points ex_matches_dangling ex_frame 0 0.
Proof.
  exists 3%N. split; [vm_compute; reflexivity|].
  split; [discriminate | vm_compute; reflexivity].
Qed.

Lemma ex_backprojection_nonzero im k b :
  getBackProjection ex_frame im k = Some b -> (0 < squaredNorm3 b)%R.
Proof.
  simpl. destruct k; [|discriminate]. intros [= <-].
  unfold squaredNorm3. simpl. lra.
Qed.

(** C4: a rig in which two cameras have different distortion families
    makes the constructor throw the "mixed frame types" exception, for
    every landmark table, association map and frame; the member arrays are
    still empty when it is thrown, so no camera and no keypoint was
    processed. *)
Theorem mixed_rig_is_fatal points matches nCameraSystem frameB :
  mixed_rig nCameraSystem ->
  LoopclosureNoncentralAbsoluteAdapter points matches nCameraSystem frameB =
  (empty, inl (Exception "mixed frame types are not supported yet")).
Proof. apply construct_mixed. Qed.

Lemma mixed_rig_is_fatal_witness :
  LoopclosureNoncentralAbsoluteAdapter ex_points ex_matches ex_rig_mixed
    ex_frame =
  (empty, inl (Exception "mixed frame types are not supported yet")).
Proof.
  exact (mixed_rig_is_fatal ex_points ex_matches ex_rig_mixed ex_frame
           ex_rig_mixed_is_mixed).
Defined.

(** C3 as stated fails: with a single-family rig the constructor can
    still throw, from the table lookup of an id that is not in the
    landmark table, or from the switch on a family it does not know; then
    there is no adapter and no count. *)
Lemma correspondence_count_counterexample :
  (single_family ex_rig /\
   ~ exists a,
       LoopclosureNoncentralAbsoluteAdapter ex_points ex_matches_dangling
         ex_rig ex_frame = (a, inr tt) /\
       getNumberCorrespondences a =
       count_valid_pairs ex_points ex_matches_dangling ex_rig ex_frame) /\
  (single_family ex_rig_other /\
   ~ exists a,
       LoopclosureNoncentralAbsoluteAdapter ex_points ex_matches
         ex_rig_other ex_frame = (a, inr tt) /\
       getNumberCorrespondences a =
       count_valid_pairs ex_points ex_matches ex_rig_other ex_frame).
Proof.
  split; split; try (intros i _; reflexivity).
  - intros (a & Hrun & _).
    destruct (construct_dangling ex_points ex_matches_dangling ex_rig ex_frame
                ex_rig_ok) as [a' Ha'].
    + exists 0, 0. simpl. repeat split; [lia | lia | exact ex_dangling].
    + rewrite Ha' in Hrun. discriminate.
  - intros (a & Hrun & _).
    rewrite (construct_unsupported ex_points ex_matches ex_rig_other ex_frame)
      in Hrun; [discriminate | intros i _; reflexivity | simpl; lia
               | reflexivity].
Qed.

(** C3, amended: for a rig with a single family that the switch knows,
    and when every non-sentinel id matched to a keypoint of the frame is
    in the landmark table, the constructor returns an adapter whose
    number of correspondences is the number of (camera, keypoint) pairs
    with an existing, non-sentinel association to a landmark with
    |w| >= 1e-8; every stored correspondence comes from such a pair and
    stores its dehomogenised landmark, so a landmark with |w| < 1e-8 is
    never stored. *)
Theorem correspondence_count points matches nCameraSystem frameB :
  rig_ok nCameraSystem ->
  ids_present points matches nCameraSystem frameB ->
  exists a,
    LoopclosureNoncentralAbsoluteAdapter points matches nCameraSystem frameB =
    (a, inr tt) /\
    getNumberCorrespondences a =
    count_valid_pairs points matches nCameraSystem frameB /\
    forall i, i < getNumberCorrespondences a ->
      exists im k lmId hp,
        camIndices_ a !! i = Some im /\ keypointIndices_ a !! i = Some k /\
        im < numCameras nCameraSystem /\ k < numKeypoints frameB im /\
        matches !! (id frameB, im, k) = Some lmId /\ lmId <> 0%N /\
        points !! lmId = Some hp /\ (1.0e-8 <= Rabs (h3 hp))%R /\
        getPoint a i = Some (div3 (head3 hp) (h3 hp)) /\
        is_Some (getBearingVector a i).
Proof.
  intros Hrig Hids. eexists. split; [by apply construct_ok|].
  pose proof (built_lengths points matches nCameraSystem frameB)
    as (Hp & Hb & _).
  unfold getNumberCorrespondences. rewrite Hp.
  split; [apply accepted_length|].
  intros i Hi. apply lookup_lt_is_Some_2 in Hi as [c Hc].
  pose proof (built_lookup points matches nCameraSystem frameB i c Hc)
    as (Hpt & Hbr & _ & Hcam & Hkp).
  apply list_elem_of_lookup_2, accepted_elem in Hc as (Him & Hk & Hcl).
  apply classify_Accept in Hcl as (lm & Hm & Hlm & Hpts & Hw).
  exists (cam_of c), (kp_of c), lm, c.2.
  unfold getPoint, getBearingVector. rewrite Hbr. eauto 12.
Qed.

Lemma correspondence_count_witness :
  exists a,
    LoopclosureNoncentralAbsoluteAdapter ex_points ex_matches ex_rig ex_frame =
    (a, inr tt) /\
    getNumberCorrespondences a =
    count_valid_pairs ex_points ex_matches ex_rig ex_frame /\
    forall i, i < getNumberCorrespondences a ->
      exists im k lmId hp,
        camIndices_ a !! i = Some im /\ keypointIndices_ a !! i = Some k /\
        im < numCameras ex_rig /\ k < numKeypoints ex_frame im /\
        ex_matches !! (id ex_frame, im, k) = Some lmId /\ lmId <> 0%N /\
        ex_points !! lmId = Some hp /\ (1.0e-8 <= Rabs (h3 hp))%R /\
        getPoint a i = Some (div3 (head3 hp) (h3 hp)) /\
        is_Some (getBearingVector a i).
Proof.
  exact (correspondence_count ex_points ex_matches ex_rig ex_frame
           ex_rig_ok ex_ids_present).
Defined.

(** The example, evaluated: two of the four keypoints are accepted. *)
Lemma ex_accepted :
  accepted ex_points ex_matches ex_rig ex_frame =
  [(0, 0, hp_finite); (1, 1, hp_finite)].
Proof.
  assert (H00 : classify ex_points ex_matches ex_frame 0 0 = Accept hp_finite).
  { apply classify_Accept. exists 5%N.
    split; [vm_compute; reflexivity|]. split; [discriminate|].
    split; [vm_compute; reflexivity|]. simpl. rewrite Rabs_right; lra. }
  assert (H01 : classify ex_points ex_matches ex_frame 0 1 = Skip).
  { unfold classify.
    replace (ex_matches !! (id ex_frame, 0, 1)) with (Some 0%N)
      by (vm_compute; reflexivity).
    reflexivity. }
  assert (H10 : classify ex_points ex_matches ex_frame 1 0 = Skip).
  { unfold classify.
    replace (ex_matches !! (id ex_frame, 1, 0)) with (Some 9%N)
      by (vm_compute; reflexivity).
    replace (ex_points !! 9%N) with (Some hp_infinite)
      by (vm_compute; reflexivity).
    simpl. rewrite Rabs_R0.
    destruct (decide (0 < 1.0e-8)%R) as [_|Hn]; [reflexivity | lra]. }
  assert (H11 : classify ex_points ex_matches ex_frame 1 1 = Accept hp_finite).
  { apply classify_Accept. exists 5%N.
    split; [vm_compute; reflexivity|]. split; [discriminate|].
    split; [vm_compute; reflexivity|]. simpl. rewrite Rabs_right; lra. }
  unfold accepted, accepted_of, accepted_in. simpl.
  rewrite H00, H01, H10, H11. reflexivity.
Qed.

(** C5: for an adapter the constructor returns, every keypoint of the
    frame that passes the landmark checks is stored at some correspondence
    index, also when its back-projection fails; in that case the stored
    bearing vector is exactly (1,0,0), and the 3D point, the angular sigma,
    the camera index and the keypoint index are the ones computed from the
    landmark and the keypoint alone.  At the level of one loop iteration:
    an accepted keypoint whose back-projection fails makes the body push
    that correspondence and continue without an exception. *)
Theorem failed_backprojection_fallback points matches nCameraSystem frameB a :
  LoopclosureNoncentralAbsoluteAdapter points matches nCameraSystem frameB =
  (a, inr tt) ->
  forall im k lmId hp,
    im < numCameras nCameraSystem -> k < numKeypoints frameB im ->
    matches !! (id frameB, im, k) = Some lmId -> lmId <> 0%N ->
    points !! lmId = Some hp -> (1.0e-8 <= Rabs (h3 hp))%R ->
    getBackProjection frameB im k = None ->
    (exists i,
       i < getNumberCorrespondences a /\
       getBearingVector a i = Some (mkVector3d 1 0 0) /\
       getPoint a i = Some (div3 (head3 hp) (h3 hp)) /\
       getSigmaAngle a i =
         Some (sigma_of frameB
                 (focalLengthU frameB (distortionType nCameraSystem 0) im)
                 im k) /\
       camIndices_ a !! i = Some im /\ keypointIndices_ a !! i = Some k) /\
    (forall fu a0,
       keypoint_body points matches frameB fu im k a0 =
       (push_correspondence (div3 (head3 hp) (h3 hp)) (mkVector3d 1 0 0)
          (sigma_of frameB fu im k) im k a0, inr tt)).
Proof.
  intros Hrun im k lm hp Him Hk Hm Hlm Hpts Hw Hbp.
  assert (Hcl : classify points matches frameB im k = Accept hp)
    by (apply classify_Accept; eauto).
  split.
  - apply construct_inv in Hrun as (_ & _ & ->).
    destruct (accepted_lookup points matches nCameraSystem frameB im k hp
                Him Hk Hcl) as [i Hi].
    pose proof (built_lookup points matches nCameraSystem frameB i _ Hi)
      as (Hpt & Hbr & Hsg & Hcam & Hkp).
    exists i. unfold getNumberCorrespondences, getBearingVector, getPoint,
      getSigmaAngle.
    split; [by eapply lookup_lt_Some|].
    rewrite Hbr, Hpt, Hsg, Hcam, Hkp.
    unfold bearing_at, sigma_at, point_of, cam_of, kp_of. simpl.
    by rewrite bearing_of_fallback.
  - intros fu a0. rewrite keypoint_body_classify, Hcl.
    by rewrite bearing_of_fallback.
Qed.

Lemma failed_backprojection_fallback_witness :
  let a := after ex_frame Equidistant empty [0; 1]
             [(0, 0, hp_finite); (1, 1, hp_finite)] in
  (exists i,
     i < getNumberCorrespondences a /\
     getBearingVector a i = Some (mkVector3d 1 0 0) /\
     getPoint a i = Some (div3 (head3 hp_finite) (h3 hp_finite)) /\
     getSigmaAngle a i =
       Some (sigma_of ex_frame (focalLengthU ex_frame Equidistant 1) 1 1) /\
     camIndices_ a !! i = Some 1 /\ keypointIndices_ a !! i = Some 1) /\
  (forall fu a0,
     keypoint_body ex_points ex_matches ex_frame fu 1 1 a0 =
     (push_correspondence (div3 (head3 hp_finite) (h3 hp_finite))
        (mkVector3d 1 0 0) (sigma_of ex_frame fu 1 1) 1 1 a0, inr tt)).
Proof.
  intros a.
  refine (failed_backprojection_fallback ex_points ex_matches ex_rig ex_frame
            a _ 1 1 5%N hp_finite _ _ _ _ _ _ _).
  - unfold a. rewrite <- ex_accepted.
    exact (construct_ok ex_points ex_matches ex_rig ex_frame
             ex_rig_ok ex_ids_present).
  - simpl. lia.
  - simpl. lia.
  - vm_compute. reflexivity.
  - discriminate.
  - vm_compute. reflexivity.
  - simpl. rewrite Rabs_right; lra.
  - reflexivity.
Defined.

(** C7: for an adapter the constructor returns, the angular sigma stored
    for correspondence [i], which [getSigmaAngle i] returns, is
    sqrt 2 * (0.8 * keypointStdDev / 12)^2 / focalLengthU^2, with the size
    of the keypoint [i] refers to and the focal length of its camera under
    the rig's distortion family. *)
Theorem sigma_angle_formula points matches nCameraSystem frameB a :
  LoopclosureNoncentralAbsoluteAdapter points matches nCameraSystem frameB =
  (a, inr tt) ->
  forall i, i < getNumberCorrespondences a ->
    exists im k,
      camIndices_ a !! i = Some im /\ keypointIndices_ a !! i = Some k /\
      distortionType nCameraSystem im = distortionType nCameraSystem 0 /\
      getSigmaAngle a i =
      Some (sqrt 2 * (0.8 * getKeypointSize frameB im k / 12) ^ 2 /
            focalLengthU frameB (distortionType nCameraSystem im) im ^ 2)%R.
Proof.
  intros Hrun i Hi.
  apply construct_inv in Hrun as ([Hs _] & _ & ->).
  pose proof (built_lengths points matches nCameraSystem frameB)
    as (Hp & _).
  unfold getNumberCorrespondences in Hi. rewrite Hp in Hi.
  apply lookup_lt_is_Some_2 in Hi as [c Hc].
  pose proof (built_lookup points matches nCameraSystem frameB i c Hc)
    as (_ & _ & Hsg & Hcam & Hkp).
  apply list_elem_of_lookup_2, accepted_elem in Hc as (Him & _).
  exists (cam_of c), (kp_of c).
  split; [exact Hcam|]. split; [exact Hkp|].
  split; [by apply Hs|].
  unfold getSigmaAngle. rewrite Hsg, (Hs _ Him). f_equal.
  unfold sigma_at, sigma_of.
  replace 12.0%R with 12%R by lra.
  unfold Rdiv. simpl pow. rewrite !Rmult_1_r. ring.
Qed.

Lemma sigma_angle_formula_witness :
  let a := after ex_frame Equidistant empty [0; 1]
             [(0, 0, hp_finite); (1, 1, hp_finite)] in
  exists im k,
    camIndices_ a !! 1 = Some im /\ keypointIndices_ a !! 1 = Some k /\
    distortionType ex_rig im = distortionType ex_rig 0 /\
    getSigmaAngle a 1 =
    Some (sqrt 2 * (0.8 * getKeypointSize ex_frame im k / 12) ^ 2 /
          focalLengthU ex_frame (distortionType ex_rig im) im ^ 2)%R.
Proof.
  intros a.
  refine (sigma_angle_formula ex_points ex_matches ex_rig ex_frame a _ 1 _).
  - unfold a. rewrite <- ex_accepted.
    exact (construct_ok ex_points ex_matches ex_rig ex_frame
             ex_rig_ok ex_ids_present).
  - unfold a, getNumberCorrespondences. simpl. lia.
Defined.

(** C9: when every non-sentinel landmark id matched to a keypoint of the
    frame is in the landmark table, the constructor never ends in the
    exception of the table lookup, and for a rig that passes the
    distortion checks it returns an adapter; conversely, for such a rig, a
    matched non-sentinel id that is missing from the table is not skipped:
    the lookup throws and the construction ends in std::out_of_range. *)
Theorem lookup_precondition points matches nCameraSystem frameB :
  (ids_present points matches nCameraSystem frameB ->
   (LoopclosureNoncentralAbsoluteAdapter points matches nCameraSystem
      frameB).2 <> inl out_of_range /\
   (rig_ok nCameraSystem ->
    exists a,
      LoopclosureNoncentralAbsoluteAdapter points matches nCameraSystem
        frameB = (a, inr tt))) /\
  (rig_ok nCameraSystem ->
   (exists im k, im < numCameras nCameraSystem /\
      k < numKeypoints frameB im /\
      dangling_association points matches frameB im k) ->
   (LoopclosureNoncentralAbsoluteAdapter points matches nCameraSystem
      frameB).2 = inl out_of_range).
Proof.
  split.
  - intros Hids. split.
    + destruct (single_or_mixed nCameraSystem) as [Hs|Hm].
      2:{ rewrite construct_mixed by exact Hm. discriminate. }
      destruct (decide (numCameras nCameraSystem = 0)) as [E|Hn].
      { rewrite (construct_ok points matches nCameraSystem frameB);
          [discriminate | | exact Hids].
        split; [exact Hs | lia]. }
      destruct (decide (distortionType nCameraSystem 0 = OtherDistortion))
        as [Ho|Hsup].
      * rewrite construct_unsupported; [discriminate | exact Hs | lia
                                       | exact Ho].
      * rewrite (construct_ok points matches nCameraSystem frameB);
          [discriminate | | exact Hids].
        split; [exact Hs | intros _; exact Hsup].
    + intros Hrig. eexists. by apply construct_ok.
  - intros Hrig Hd.
    destruct (construct_dangling points matches nCameraSystem frameB Hrig Hd)
      as [a' ->].
    reflexivity.
Qed.

Lemma lookup_precondition_witness :
  ((LoopclosureNoncentralAbsoluteAdapter ex_points ex_matches ex_rig
      ex_frame).2 <> inl out_of_range /\
   exists a,
     LoopclosureNoncentralAbsoluteAdapter ex_points ex_matches ex_rig
       ex_frame = (a, inr tt)) /\
  (LoopclosureNoncentralAbsoluteAdapter ex_points ex_matches_dangling ex_rig
     ex_frame).2 = inl out_of_range.
Proof.
  split.
  - destruct (lookup_precondition ex_points ex_matches ex_rig ex_frame)
      as [H _].
    destruct (H ex_ids_present) as [H1 H2].
    split; [exact H1 | exact (H2 ex_rig_ok)].
  - destruct (lookup_precondition ex_points ex_matches_dangling ex_rig
                ex_frame) as [_ H].
    apply H; [exact ex_rig_ok|].
    exists 0, 0. simpl. repeat split; [lia | lia | exact ex_dangling].
Defined.

(** C10: for an adapter the constructor returns, the arrays of points,
    bearing vectors, sigma angles, camera indices and keypoint indices all
    have the length [getNumberCorrespondences] returns; the arrays of
    camera offsets and rotations have one entry per camera and every
    stored camera index is below the number of cameras, so each accessor
    has a value at every index below the number of correspondences; and,
    when a successful back-projection never yields the zero vector, every
    stored bearing vector has norm 1.  The accessors are functions of the
    adapter: they cannot change it. *)
Theorem adapter_invariant points matches nCameraSystem frameB a :
  LoopclosureNoncentralAbsoluteAdapter points matches nCameraSystem frameB =
  (a, inr tt) ->
  let m := getNumberCorrespondences a in
  (length (points_ a) = m /\ length (bearingVectors_ a) = m /\
   length (sigmaAngles_ a) = m /\ length (camIndices_ a) = m /\
   length (keypointIndices_ a) = m) /\
  (length (camOffsets_ a) = numCameras nCameraSystem /\
   length (camRotations_ a) = numCameras nCameraSystem /\
   forall im, im ∈ camIndices_ a -> im < numCameras nCameraSystem) /\
  (forall i, i < m ->
     is_Some (getBearingVector a i) /\ is_Some (getPoint a i) /\
     is_Some (getCamOffset a i) /\ is_Some (getCamRotation a i) /\
     is_Some (getSigmaAngle a i)) /\
  ((forall im k b, getBackProjection frameB im k = Some b ->
      (0 < squaredNorm3 b)%R) ->
   forall b, b ∈ bearingVectors_ a -> norm3 b = 1%R).
Proof.
  intros Hrun m. subst m.
  apply construct_inv in Hrun as (_ & _ & ->).
  pose proof (built_lengths points matches nCameraSystem frameB)
    as (Hp & Hb & Hs & Hc & Hk & Ho & Hr).
  unfold getNumberCorrespondences. rewrite Hp.
  assert (Hcam : forall im,
             im ∈ camIndices_ (after frameB (distortionType nCameraSystem 0)
                                 empty (seq 0 (numCameras nCameraSystem))
                                 (accepted points matches nCameraSystem frameB))
             -> im < numCameras nCameraSystem).
  { intros im Him. unfold after in Him. simpl in Him.
    apply list_elem_of_fmap in Him as (c & -> & Hc').
    by apply accepted_elem in Hc' as (? & _). }
  split; [auto 10|]. split; [auto|]. split.
  - intros i Hi.
    unfold getBearingVector, getPoint, getCamOffset, getCamRotation,
      getSigmaAngle.
    assert (Hci : is_Some (camIndices_ (after frameB
                     (distortionType nCameraSystem 0) empty
                     (seq 0 (numCameras nCameraSystem))
                     (accepted points matches nCameraSystem frameB)) !! i))
      by (apply lookup_lt_is_Some_2; lia).
    destruct Hci as [im Him]. rewrite Him. cbn [mbind option_bind].
    assert (im < numCameras nCameraSystem)
      by (eapply Hcam, list_elem_of_lookup_2, Him).
    repeat split; apply lookup_lt_is_Some_2; lia.
  - intros Hbp b Hb'. unfold after in Hb'. simpl in Hb'.
    apply list_elem_of_fmap in Hb' as (c & -> & _).
    apply bearing_of_unit. intros b0. apply Hbp.
Qed.

Lemma adapter_invariant_witness :
  let a := after ex_frame Equidistant empty [0; 1]
             [(0, 0, hp_finite); (1, 1, hp_finite)] in
  let m := getNumberCorrespondences a in
  (length (points_ a) = m /\ length (bearingVectors_ a) = m /\
   length (sigmaAngles_ a) = m /\ length (camIndices_ a) = m /\
   length (keypointIndices_ a) = m) /\
  (length (camOffsets_ a) = numCameras ex_rig /\
   length (camRotations_ a) = numCameras ex_rig /\
   forall im, im ∈ camIndices_ a -> im < numCameras ex_rig) /\
  (forall i, i < m ->
     is_Some (getBearingVector a i) /\ is_Some (getPoint a i) /\
     is_Some (getCamOffset a i) /\ is_Some (getCamRotation a i) /\
     is_Some (getSigmaAngle a i)) /\
  (forall b, b ∈ bearingVectors_ a -> norm3 b = 1%R).
Proof.
  intros a.
  assert (Hrun : LoopclosureNoncentralAbsoluteAdapter ex_points ex_matches
                   ex_rig ex_frame = (a, inr tt)).
  { unfold a. rewrite <- ex_accepted.
    exact (construct_ok ex_points ex_matches ex_rig ex_frame
             ex_rig_ok ex_ids_present). }
  destruct (adapter_invariant ex_points ex_matches ex_rig ex_frame a Hrun)
    as (H1 & H2 & H3 & H4).
  split; [exact H1|]. split; [exact H2|]. split; [exact H3|].
  exact (H4 ex_backprojection_nonzero).
Defined.

End AdapterClaims.

(** ** Finite sums *)

Module SumFacts.
Import Dense.
Local Open Scope R_scope.

Lemma sum_ext n f g :
  (forall i, (i < n)%nat -> f i = g i) -> sum n f = sum n g.
Proof.
  induction n as [|n IH]; intros H; [reflexivity|].
  simpl. rewrite IH by (intros; apply H; lia). rewrite H by lia. reflexivity.
Qed.

Lemma sum_zero n f : (forall i, (i < n)%nat -> f i = 0) -> sum n f = 0.
Proof.
  induction n as [|n IH]; intros H; [reflexivity|].
  simpl. rewrite IH by (intros; apply H; lia). rewrite H by lia. ring.
Qed.

Lemma sum_plus n f g : sum n (fun i => f i + g i) = sum n f + sum n g.
Proof. induction n as [|n IH]; simpl; [ring | rewrite IH; ring]. Qed.

Lemma sum_minus n f g : sum n (fun i => f i - g i) = sum n f - sum n g.
Proof. induction n as [|n IH]; simpl; [ring | rewrite IH; ring]. Qed.

Lemma sum_scal_l n c f : sum n (fun i => c * f i) = c * sum n f.
Proof. induction n as [|n IH]; simpl; [ring | rewrite IH; ring]. Qed.

Lemma sum_scal_r n c f : sum n (fun i => f i * c) = sum n f * c.
Proof. induction n as [|n IH]; simpl; [ring | rewrite IH; ring]. Qed.

Lemma sum_delta n k f :
  (k < n)%nat -> sum n (fun i => if decide (i = k) then f i else 0) = f k.
Proof.
  induction n as [|n IH]; intros Hk; [lia|]. simpl.
  destruct (decide (n = k)) as [->|Hne].
  - rewrite sum_zero; [ring|]. intros i Hi.
    destruct (decide (i = k)); [lia | reflexivity].
  - rewrite IH by lia. ring.
Qed.

Lemma sum_truncate n m f :
  (m <= n)%nat -> (forall i, (m <= i < n)%nat -> f i = 0) ->
  sum n f = sum m f.
Proof.
  induction n as [|n IH]; intros Hm Hz.
  - replace m with 0%nat by lia. reflexivity.
  - destruct (decide (m = S n)) as [->|Hne]; [reflexivity|].
    simpl. rewrite IH by (try lia; intros; apply Hz; lia).
    rewrite Hz by lia. ring.
Qed.

Lemma sum_swap n m (f : nat -> nat -> R) :
  sum n (fun i => sum m (fun j => f i j)) =
  sum m (fun j => sum n (fun i => f i j)).
Proof.
  induction n as [|n IH]; simpl.
  - symmetry. by apply sum_zero.
  - rewrite IH, <- sum_plus. reflexivity.
Qed.

Lemma sum_mult n m f g :
  sum n f * sum m g = sum n (fun i => sum m (fun j => f i * g j)).
Proof.
  rewrite <- sum_scal_r. apply sum_ext. intros i _.
  by rewrite sum_scal_l.
Qed.

Lemma sum_nonneg n f : (forall i, (i < n)%nat -> 0 <= f i) -> 0 <= sum n f.
Proof.
  induction n as [|n IH]; intros H; simpl; [lra|].
  assert (0 <= sum n f) by (apply IH; intros; apply H; lia).
  assert (0 <= f n) by (apply H; lia). lra.
Qed.

Lemma sum_nonneg_zero n f :
  (forall i, (i < n)%nat -> 0 <= f i) -> sum n f = 0 ->
  forall i, (i < n)%nat -> f i = 0.
Proof.
  induction n as [|n IH]; intros H Hs i Hi; [lia|]. simpl in Hs.
  assert (0 <= sum n f) by (apply sum_nonneg; intros; apply H; lia).
  assert (0 <= f n) by (apply H; lia).
  destruct (decide (i = n)) as [->|Hne]; [lra|].
  apply IH; [intros; apply H; lia | lra | lia].
Qed.

End SumFacts.

(** ** The LLT decomposition *)

Module LLTFacts.
Import Dense LLTInvariant SumFacts.
Local Open Scope R_scope.

Lemma llt_step_inv n mat k mat' :
  (k < n)%nat ->
  llt_step n mat k = Some mat' ->
  0 < mat k k - sum k (fun p => mat k p * mat k p) /\
  mat' k k = sqrt (mat k k - sum k (fun p => mat k p * mat k p)) /\
  (forall i, (k < i < n)%nat ->
     mat' i k = (mat i k - sum k (fun p => mat i p * mat k p)) /
                sqrt (mat k k - sum k (fun p => mat k p * mat k p))) /\
  (forall i j, ~ (j = k /\ (k <= i < n)%nat) -> mat' i j = mat i j).
Proof.
  unfold llt_step. intros Hk H.
  set (x := mat k k - sum k (fun p => mat k p * mat k p)) in *.
  destruct (decide (x <= 0)) as [|Hx]; [discriminate|].
  injection H as <-. split; [lra|]. split; [|split].
  - destruct (decide _) as [_|Hn]; [reflexivity|]. exfalso. by apply Hn.
  - intros i Hi.
    destruct (decide (i = k /\ k = k)) as [[? _]|_]; [lia|].
    destruct (decide _) as [_|Hn]; [reflexivity|]. exfalso. apply Hn. lia.
  - intros i j Hij.
    destruct (decide (i = k /\ j = k)) as [[-> ->]|_];
      [exfalso; apply Hij; lia|].
    destruct (decide (j = k /\ (k < i < n)%nat)) as [[-> ?]|_];
      [exfalso; apply Hij; lia | reflexivity].
Qed.

Lemma llt_step_None n mat k :
  llt_step n mat k = None <->
  mat k k - sum k (fun p => mat k p * mat k p) <= 0.
Proof.
  unfold llt_step. destruct (decide _) as [Hx|Hx]; split; try done.
Qed.

(** One iteration keeps the invariant. *)
Lemma columns_done_step n A mat k mat' :
  (k < n)%nat -> columns_done n A mat k -> llt_step n mat k = Some mat' ->
  columns_done n A mat' (S k).
Proof.
  intros Hk (Hun & Hpos & Heq) Hstep.
  apply llt_step_inv in Hstep as (Hx & Hkk & Hik & Hrest); [|exact Hk].
  set (x := mat k k - sum k (fun p => mat k p * mat k p)) in *.
  assert (Hsx : 0 < sqrt x) by (by apply sqrt_lt_R0).
  assert (Hrow : forall i p, (p < k)%nat -> mat' i p = mat i p)
    by (intros; apply Hrest; lia).
  split; [|split].
  - intros i j Hij. rewrite Hrest by lia. apply Hun. lia.
  - intros j Hj. destruct (decide (j = k)) as [->|Hne].
    + by rewrite Hkk.
    + rewrite Hrest by lia. apply Hpos. lia.
  - intros i j Hj Hi. destruct (decide (j = k)) as [->|Hne].
    + simpl. rewrite (sum_ext k _ (fun p => mat i p * mat k p))
        by (intros p Hp; by rewrite !Hrow).
      rewrite Hkk. destruct (decide (i = k)) as [->|Hik'].
      * rewrite Hkk, sqrt_sqrt by lra. unfold x.
        rewrite <- (Hun k k) by lia. ring.
      * rewrite Hik by lia. rewrite <- (Hun i k) by lia. field. lra.
    + rewrite <- (Heq i j) by lia. apply sum_ext. intros p Hp.
      rewrite !Hrow by lia. reflexivity.
Qed.

(** The loop from column [k] on: it either finishes with every column
    done, or returns early at a column whose pivot is not positive. *)
Lemma llt_loop_spec n A :
  forall m k mat, (k + m = n)%nat -> columns_done n A mat k ->
    match llt_loop n (seq k m) mat with
    | (mat', None) => columns_done n A mat' n
    | (mat', Some k') =>
        (k <= k' < n)%nat /\ columns_done n A mat' k' /\
        schur A mat' k' k' k' <= 0
    end.
Proof.
  induction m as [|m IH]; intros k mat Hkm Hinv.
  - simpl. assert (k = n) as -> by lia. exact Hinv.
  - simpl. destruct (llt_step n mat k) as [mat'|] eqn:Hstep.
    + specialize (IH (S k) mat' ltac:(lia)
                    (columns_done_step n A mat k mat' ltac:(lia) Hinv Hstep)).
      destruct (llt_loop n (seq (S k) m) mat') as [mat'' [k'|]]; [|exact IH].
      destruct IH as (Hr & Hc & Hs). split; [lia|]. split; assumption.
    + apply llt_step_None in Hstep. split; [lia|]. split; [exact Hinv|].
      unfold schur. destruct Hinv as (Hun & _). rewrite <- Hun by lia.
      exact Hstep.
Qed.

Lemma columns_done_0 n A : columns_done n A A 0.
Proof. split; [|split]; intros; [reflexivity | lia | lia]. Qed.

(** *** The factor reproduces the matrix *)

Lemma factor_product n A mat :
  symmetric n A -> columns_done n A mat n ->
  let L := matrixL {| m_matrix := mat; m_info := Success |} in
  mat_eq n (mmul n L (transpose L)) A.
Proof.
  intros Hsym (_ & _ & Heq) L i j Hi Hj.
  unfold mmul, transpose, L, matrixL. simpl.
  destruct (decide (j <= i)%nat) as [Hji|Hij].
  - rewrite (sum_truncate n (S j)); [|lia|].
    + rewrite <- (Heq i j) by lia. apply sum_ext. intros p Hp.
      destruct (decide (p <= i)%nat); [|lia].
      destruct (decide (p <= j)%nat); [reflexivity | lia].
    + intros p Hp. destruct (decide (p <= j)%nat); [lia|]. ring.
  - rewrite (sum_truncate n (S i)); [|lia|].
    + rewrite (Hsym i j) by lia. rewrite <- (Heq j i) by lia.
      apply sum_ext. intros p Hp.
      destruct (decide (p <= i)%nat); [|lia].
      destruct (decide (p <= j)%nat); [ring | lia].
    + intros p Hp. destruct (decide (p <= i)%nat); [lia|]. ring.
Qed.

(** *** Positive definiteness keeps the pivots positive *)

Lemma schur_0 A mat i j : schur A mat 0 i j = A i j.
Proof. unfold schur. simpl. ring. Qed.

Lemma schur_sym n A mat k :
  symmetric n A -> symmetric n (schur A mat k).
Proof.
  intros Hsym i j Hi Hj. unfold schur. rewrite (Hsym i j) by lia.
  f_equal. apply sum_ext. intros p _. ring.
Qed.

Lemma quad_unit_vector n S k :
  (k < n)%nat -> quad n S (unit_vector k) = S k k.
Proof.
  intros Hk. unfold quad, unit_vector.
  rewrite (sum_ext n _ (fun i => if decide (i = k)
                                 then sum n (fun j => S i j *
                                        (if decide (j = k) then 1 else 0))
                                 else 0)).
  - rewrite sum_delta by exact Hk.
    rewrite (sum_ext n _ (fun j => if decide (j = k) then S k j else 0)).
    + by rewrite sum_delta.
    + intros j _. destruct (decide (j = k)); ring.
  - intros i _. destruct (decide (i = k)).
    + apply sum_ext. intros j _. ring.
    + apply sum_zero. intros j _. ring.
Qed.

Lemma pivot_positive n A mat k :
  (k < n)%nat -> schur_pd n A mat k -> 0 < schur A mat k k k.
Proof.
  intros Hk Hpd. rewrite <- (quad_unit_vector n (schur A mat k) k Hk).
  apply Hpd.
  - intros i Hi. unfold unit_vector. destruct (decide (i = k)); [lia | done].
  - exists k. split; [exact Hk|]. unfold unit_vector.
    destruct (decide (k = k)); [lra | done].
Qed.

Lemma quad_axpy n S k t w :
  (k < n)%nat ->
  quad n S (axpy t (unit_vector k) w) =
  quad n S w + t * sum n (fun i => w i * S i k)
  + t * sum n (fun j => S k j * w j) + t * t * S k k.
Proof.
  intros Hk. unfold quad, axpy.
  set (e := unit_vector k).
  rewrite (sum_ext n _
    (fun i => sum n (fun j => w i * S i j * w j)
              + t * (w i * sum n (fun j => S i j * e j))
              + (t * e i * sum n (fun j => S i j * w j)
                 + t * t * e i * sum n (fun j => S i j * e j)))).
  2:{ intros i _. rewrite <- !sum_scal_l, <- !sum_plus.
      apply sum_ext. intros j _. ring. }
  assert (He : forall i, sum n (fun j => S i j * e j) = S i k).
  { intros i. unfold e, unit_vector.
    rewrite (sum_ext n _ (fun j => if decide (j = k) then S i j else 0)).
    - by rewrite sum_delta.
    - intros j _. destruct (decide (j = k)); ring. }
  rewrite !sum_plus, sum_scal_l.
  rewrite (sum_ext n (fun i => w i * _) (fun i => w i * S i k))
    by (intros i _; by rewrite He).
  rewrite (sum_ext n (fun i => t * e i * sum n (fun j => S i j * w j))
             (fun i => if decide (i = k)
                       then t * sum n (fun j => S i j * w j) else 0)).
  2:{ intros i _. unfold e, unit_vector. destruct (decide (i = k)); ring. }
  rewrite (sum_ext n (fun i => t * t * e i * _)
             (fun i => if decide (i = k) then t * t * S i k else 0)).
  2:{ intros i _. rewrite He. unfold e, unit_vector.
      destruct (decide (i = k)); ring. }
  rewrite !sum_delta by exact Hk. ring.
Qed.

Lemma schur_step n A mat k mat' i j :
  columns_done n A mat k -> llt_step n mat k = Some mat' ->
  (k < i < n)%nat -> (k < j < n)%nat ->
  schur A mat' (S k) i j =
  schur A mat k i j
  - schur A mat k i k * schur A mat k j k / schur A mat k k k.
Proof.
  intros (Hun & _) Hstep Hi Hj.
  apply llt_step_inv in Hstep as (Hx & _ & Hik & Hrest); [|lia].
  assert (Hxk : schur A mat k k k =
                mat k k - sum k (fun p => mat k p * mat k p))
    by (unfold schur; rewrite <- Hun by lia; reflexivity).
  rewrite <- Hxk in *.
  assert (Hs : 0 < sqrt (schur A mat k k k)) by (by apply sqrt_lt_R0).
  unfold schur at 1. simpl.
  rewrite (sum_ext k _ (fun p => mat i p * mat j p))
    by (intros p Hp; rewrite !Hrest by lia; reflexivity).
  rewrite (Hik i), (Hik j) by lia.
  replace (mat i k - sum k (fun p => mat i p * mat k p))
    with (schur A mat k i k)
    by (unfold schur; rewrite <- Hun by lia; reflexivity).
  replace (mat j k - sum k (fun p => mat j p * mat k p))
    with (schur A mat k j k)
    by (unfold schur; rewrite <- Hun by lia; reflexivity).
  assert (Hsq : sqrt (schur A mat k k k) * sqrt (schur A mat k k k) =
                schur A mat k k k) by (apply sqrt_sqrt; lra).
  set (a := schur A mat k i k). set (b := schur A mat k j k).
  set (s := sqrt (schur A mat k k k)) in *. rewrite <- Hsq.
  unfold schur. field. lra.
Qed.

Lemma schur_pd_step n A mat k mat' :
  (k < n)%nat -> symmetric n A -> columns_done n A mat k ->
  schur_pd n A mat k -> llt_step n mat k = Some mat' ->
  schur_pd n A mat' (S k).
Proof.
  intros Hk Hsym Hdone Hpd Hstep w Hw Hnz.
  set (S0 := schur A mat k).
  pose proof (pivot_positive n A mat k Hk Hpd) as Hx. fold S0 in Hx.
  set (c := sum n (fun i => w i * S0 i k)).
  set (t := - c / S0 k k).
  assert (Hc' : sum n (fun j => S0 k j * w j) = c).
  { unfold c. apply sum_ext. intros j Hj.
    unfold S0. rewrite (schur_sym n A mat k Hsym k j) by lia. ring. }
  (* the remainder after the step, on the support of w *)
  assert (Hq : quad n (schur A mat' (S k)) w = quad n S0 w - c * c / S0 k k).
  { unfold quad.
    rewrite (sum_ext n _
      (fun i => sum n (fun j => w i * S0 i j * w j)
                - / S0 k k *
                  sum n (fun j => (w i * S0 i k) * (w j * S0 j k)))).
    - rewrite sum_minus, sum_scal_l. fold (quad n S0 w).
      rewrite <- (sum_mult n n (fun i => w i * S0 i k)
                    (fun j => w j * S0 j k)).
      fold c. unfold Rdiv. ring.
    - intros i Hi. rewrite <- sum_scal_l, <- sum_minus.
      apply sum_ext. intros j Hj.
      destruct (decide (i <= k)%nat) as [Hik|Hik];
        [rewrite (Hw i) by lia; ring|].
      destruct (decide (j <= k)%nat) as [Hjk|Hjk];
        [rewrite (Hw j) by lia; ring|].
      rewrite (schur_step n A mat k mat' i j Hdone Hstep) by lia.
      fold S0. unfold Rdiv. ring. }
  rewrite Hq.
  assert (Hv : 0 < quad n S0 (axpy t (unit_vector k) w)).
  { apply Hpd.
    - intros i Hi. unfold axpy, unit_vector. rewrite (Hw i) by lia.
      destruct (decide (i = k)); [lia | ring].
    - destruct Hnz as (i & Hi & Hwi). exists i. split; [exact Hi|].
      unfold axpy, unit_vector.
      destruct (decide (i = k)) as [->|_].
      + exfalso. apply Hwi, Hw. lia.
      + replace (w i + t * 0) with (w i) by ring. exact Hwi. }
  rewrite (quad_axpy n S0 k t w Hk) in Hv. rewrite Hc' in Hv. fold c in Hv.
  replace (quad n S0 w - c * c / S0 k k)
    with (quad n S0 w + t * c + t * c + t * t * S0 k k); [exact Hv|].
  unfold t. field. lra.
Qed.

(** For a symmetric positive definite matrix the loop never returns
    early. *)
Lemma llt_loop_spd n A :
  symmetric n A ->
  forall m k mat, (k + m = n)%nat -> columns_done n A mat k ->
    schur_pd n A mat k ->
    exists mat', llt_loop n (seq k m) mat = (mat', None) /\
                 columns_done n A mat' n.
Proof.
  intros Hsym. induction m as [|m IH]; intros k mat Hkm Hdone Hpd.
  - simpl. assert (k = n) as <- by lia. eauto.
  - simpl. destruct (llt_step n mat k) as [mat'|] eqn:Hstep.
    + apply (IH (S k) mat'); [lia | |].
      * eapply columns_done_step; eauto. lia.
      * eapply schur_pd_step; eauto. lia.
    + exfalso. apply llt_step_None in Hstep.
      pose proof (pivot_positive n A mat k ltac:(lia) Hpd) as Hx.
      unfold schur in Hx. destruct Hdone as (Hun & _).
      rewrite <- Hun in Hx by lia. lra.
Qed.

Lemma schur_pd_0 n A : positive_definite n A -> schur_pd n A A 0.
Proof.
  intros Hpd v _ Hnz.
  replace (quad n (schur A A 0) v) with (quad n A v); [by apply Hpd|].
  unfold quad. apply sum_ext. intros i _. apply sum_ext. intros j _.
  by rewrite schur_0.
Qed.

(** LLT of a symmetric positive definite matrix: info() is Success, the
    factor has a positive diagonal and L L^T is the matrix. *)
Lemma compute_spd n A :
  SPD n A ->
  m_info (compute n A) = Success /\
  (forall j, (j < n)%nat -> 0 < matrixL (compute n A) j j) /\
  mat_eq n (mmul n (matrixL (compute n A))
                   (transpose (matrixL (compute n A)))) A.
Proof.
  intros [Hsym Hpd].
  destruct (llt_loop_spd n A Hsym n 0 A ltac:(lia) (columns_done_0 n A)
              (schur_pd_0 n A Hpd)) as (mat' & Hrun & Hdone).
  unfold compute, unblocked. rewrite Hrun. simpl.
  split; [reflexivity|]. split.
  - intros j Hj. unfold matrixL. simpl.
    destruct (decide (j <= j)%nat); [|lia].
    destruct Hdone as (_ & Hpos & _). by apply Hpos.
  - exact (factor_product n A mat' Hsym Hdone).
Qed.

End LLTFacts.

(** ** Whitening with the Cholesky factor *)

Module WhiteningFacts.
Import Dense LLTInvariant SumFacts LLTFacts.
Local Open Scope R_scope.

(** v^T (L L^T) v is the squared norm of L^T v. *)
Lemma quad_gram n A L v :
  mat_eq n (mmul n L (transpose L)) A ->
  quad n A v =
  sum n (fun p => mvmul n (transpose L) v p * mvmul n (transpose L) v p).
Proof.
  intros HA. unfold quad, mvmul, transpose.
  rewrite (sum_ext n _
    (fun i => sum n (fun j => sum n (fun p =>
       (L i p * v i) * (L j p * v j))))).
  2:{ intros i Hi. apply sum_ext. intros j Hj.
      rewrite <- (HA i j Hi Hj). unfold mmul, transpose. symmetry.
      rewrite (sum_ext n _ (fun p => v i * (L i p * L j p) * v j))
        by (intros; ring).
      by rewrite sum_scal_r, sum_scal_l. }
  rewrite (sum_ext n _
    (fun i => sum n (fun p => sum n (fun j =>
       (L i p * v i) * (L j p * v j)))))
    by (intros i _; apply sum_swap).
  rewrite sum_swap. apply sum_ext. intros p _.
  by rewrite (sum_mult n n (fun i => L i p * v i) (fun j => L j p * v j)).
Qed.

(** With the factor of a positive definite matrix, the whitened vector
    is zero only for the zero vector. *)
Lemma whitened_zero n A L v :
  positive_definite n A -> mat_eq n (mmul n L (transpose L)) A ->
  vec_eq n (mvmul n (transpose L) v) (fun _ => 0) ->
  vec_eq n v (fun _ => 0).
Proof.
  intros Hpd HA Hz i Hi.
  destruct (Req_dec (v i) 0) as [E|Hne]; [exact E|]. exfalso.
  assert (Hq : 0 < quad n A v) by (apply Hpd; exists i; auto).
  rewrite (quad_gram n A L v HA) in Hq.
  rewrite sum_zero in Hq; [lra|].
  intros p Hp. rewrite (Hz p Hp). ring.
Qed.

Lemma mvmul_zero n A v :
  vec_eq n v (fun _ => 0) -> vec_eq n (mvmul n A v) (fun _ => 0).
Proof.
  intros Hv i _. unfold mvmul. apply sum_zero. intros k Hk.
  rewrite (Hv k Hk). ring.
Qed.

End WhiteningFacts.

(** ** Triangular systems and the inverse of an SPD matrix *)

Module TriangularFacts.
Import Dense Triangular SumFacts LLTFacts WhiteningFacts.
Local Open Scope R_scope.

Lemma sum_update n f x x' i :
  (i < n)%nat -> (forall p, p <> i -> x' p = x p) ->
  sum n (fun q => f q * x' q) =
  sum n (fun q => f q * x q) + f i * (x' i - x i).
Proof.
  intros Hi Hx.
  rewrite <- (sum_delta n i (fun q => f q * (x' q - x q)) Hi), <- sum_plus.
  apply sum_ext. intros q _.
  destruct (decide (q = i)) as [->|Hne]; [ring|].
  rewrite (Hx q Hne). ring.
Qed.

(** Substitution along [todo], started from a state that solves the
    equations [done] and is zero elsewhere. *)
Lemma tsolve_inv n T b :
  forall todo done x,
    NoDup (done ++ todo) ->
    (forall i, i ∈ todo -> (i < n)%nat /\ T i i <> 0) ->
    (forall i p, i ∈ done -> p ∈ todo -> T i p = 0) ->
    tri_order T todo ->
    (forall p, p ∉ done -> x p = 0) ->
    (forall i, i ∈ done -> sum n (fun q => T i q * x q) = b i) ->
    let x' := fold_left (tstep n T b) todo x in
    (forall p, p ∉ done ++ todo -> x' p = 0) /\
    (forall i, i ∈ done ++ todo -> sum n (fun q => T i q * x' q) = b i).
Proof.
  induction todo as [|i todo IH]; intros done x Hnd Hdiag Hcross Htri Hz Heq.
  - simpl. rewrite app_nil_r. auto.
  - simpl. destruct Htri as [Hrow Htri].
    replace (done ++ i :: todo) with ((done ++ [i]) ++ todo) in *
      by (by rewrite <- app_assoc).
    assert (Hi : (i < n)%nat /\ T i i <> 0) by (apply Hdiag; left).
    assert (Hfresh : i ∉ done).
    { apply NoDup_app in Hnd as (Hnd & _ & _).
      apply NoDup_app in Hnd as (_ & Hd & _).
      intros Hin. apply (Hd i Hin). left. }
    assert (Hxi : x i = 0) by (by apply Hz).
    assert (Hother : forall p, p <> i -> tstep n T b x i p = x p).
    { intros p Hp. unfold tstep. destruct (decide (p = i)); done. }
    assert (Hnew : tstep n T b x i i =
                   (b i - sum n (fun q => T i q * x q)) / T i i).
    { unfold tstep. destruct (decide (i = i)); done. }
    apply IH.
    + exact Hnd.
    + intros j Hj. apply Hdiag. by right.
    + intros j p Hj Hp. apply elem_of_app in Hj as [Hj|Hj].
      * apply Hcross; [exact Hj | by right].
      * apply list_elem_of_singleton in Hj as ->.
        eapply Forall_forall in Hrow; eauto.
    + exact Htri.
    + intros p Hp. rewrite Hother.
      * apply Hz. intros Hin. apply Hp, elem_of_app. by left.
      * intros ->. apply Hp, elem_of_app. right. by left.
    + intros j Hj.
      rewrite (sum_update n (T j) x (tstep n T b x i) i (proj1 Hi) Hother).
      apply elem_of_app in Hj as [Hj|Hj].
      * rewrite (Heq j Hj), (Hcross j i Hj) by (by left). ring.
      * apply list_elem_of_singleton in Hj as ->.
        rewrite Hnew, Hxi. field. exact (proj2 Hi).
Qed.

Lemma tsolve_spec n T b order :
  NoDup order ->
  (forall i, i ∈ order -> (i < n)%nat /\ T i i <> 0) ->
  tri_order T order ->
  forall i, i ∈ order -> mvmul n T (tsolve n T b order) i = b i.
Proof.
  intros Hnd Hdiag Htri i Hi.
  destruct (tsolve_inv n T b order [] (fun _ => 0)) as [_ H]; try done.
  - intros ? ? Hin. by apply elem_of_nil in Hin.
  - intros ? Hin. by apply elem_of_nil in Hin.
  - by apply H.
Qed.

Lemma tri_order_seq T k m :
  (forall i p, (i < p)%nat -> T i p = 0) -> tri_order T (seq k m).
Proof.
  intros HT. revert k. induction m as [|m IH]; intros k; [done|].
  simpl. split; [|apply IH].
  apply Forall_forall. intros p Hp. apply elem_of_seq in Hp.
  apply HT. lia.
Qed.

Lemma elem_of_down n i : i ∈ down n <-> (i < n)%nat.
Proof.
  induction n as [|n IH]; simpl.
  - split; [intros H; by apply elem_of_nil in H | lia].
  - rewrite elem_of_cons, IH. lia.
Qed.

Lemma NoDup_down n : NoDup (down n).
Proof.
  induction n as [|n IH]; simpl; [constructor|].
  constructor; [|exact IH]. rewrite elem_of_down. lia.
Qed.

Lemma tri_order_down T n :
  (forall i p, (p < i)%nat -> T i p = 0) -> tri_order T (down n).
Proof.
  intros HT. induction n as [|n IH]; [done|].
  simpl. split; [|exact IH].
  apply Forall_forall. intros p Hp. apply elem_of_down in Hp. by apply HT.
Qed.

(** [solve_llt] solves [A x = b] when [A = L L^T] for a lower triangular
    [L] with a nonzero diagonal. *)
Lemma solve_llt_spec n A L b :
  mat_eq n (mmul n L (transpose L)) A ->
  (forall i p, (i < p)%nat -> L i p = 0) ->
  (forall i, (i < n)%nat -> L i i <> 0) ->
  vec_eq n (mvmul n A (solve_llt n L b)) b.
Proof.
  intros HA Hlow Hdiag i Hi. unfold solve_llt.
  set (y := tsolve n L b (seq 0 n)).
  set (x := tsolve n (transpose L) y (down n)).
  assert (Hy : forall p, (p < n)%nat -> mvmul n L y p = b p).
  { intros p Hp. apply tsolve_spec.
    - apply NoDup_seq.
    - intros j Hj. apply elem_of_seq in Hj. split; [lia | apply Hdiag; lia].
    - by apply tri_order_seq.
    - apply elem_of_seq. lia. }
  assert (Hx : forall p, (p < n)%nat -> mvmul n (transpose L) x p = y p).
  { intros p Hp. apply tsolve_spec.
    - apply NoDup_down.
    - intros j Hj. apply elem_of_down in Hj.
      split; [lia | unfold transpose; by apply Hdiag].
    - apply tri_order_down. intros j q Hq. unfold transpose. by apply Hlow.
    - by apply elem_of_down. }
  rewrite <- (Hy i Hi). unfold mvmul.
  rewrite (sum_ext n _ (fun k => sum n (fun p => L i p * (L k p * x k)))).
  2:{ intros k Hk. rewrite <- (HA i k Hi Hk). unfold mmul, transpose.
      rewrite <- sum_scal_r. apply sum_ext. intros p _. ring. }
  rewrite sum_swap. apply sum_ext. intros p Hp.
  rewrite sum_scal_l. f_equal. rewrite <- (Hx p Hp). reflexivity.
Qed.

(** A right inverse of a symmetric matrix is its inverse. *)
Lemma right_inverse_symmetric n A B :
  symmetric n A -> mat_eq n (mmul n A B) Identity -> is_inverse n A B.
Proof.
  intros Hsym Hr. split; [exact Hr|].
  assert (Hl : mat_eq n (mmul n (transpose B) A) Identity).
  { intros i j Hi Hj. unfold mmul, transpose.
    rewrite (sum_ext n _ (fun k => A j k * B k i))
      by (intros k Hk; rewrite (Hsym k j) by lia; ring).
    fold (mmul n A B j i). rewrite (Hr j i Hj Hi). unfold Identity.
    destruct (decide (j = i)), (decide (i = j)); done || lia. }
  assert (HB : mat_eq n (transpose B) B).
  { intros i j Hi Hj.
    transitivity (sum n (fun k => transpose B i k * Identity k j)).
    - unfold Identity.
      rewrite (sum_ext n _ (fun k => if decide (k = j)
                                     then transpose B i k else 0)).
      + by rewrite sum_delta.
      + intros k _. destruct (decide (k = j)); ring.
    - rewrite (sum_ext n _
        (fun k => sum n (fun l => transpose B i k * A k l * B l j))).
      2:{ intros k Hk. rewrite <- (Hr k j Hk Hj). unfold mmul.
          rewrite <- sum_scal_l. apply sum_ext. intros l _. ring. }
      rewrite sum_swap.
      rewrite (sum_ext n _ (fun l => if decide (l = i) then B l j else 0)).
      + by rewrite sum_delta.
      + intros l Hl'. rewrite sum_scal_r.
        fold (mmul n (transpose B) A i l). rewrite (Hl i l Hi Hl').
        unfold Identity. destruct (decide (i = l)), (decide (l = i));
          try lia; ring. }
  intros i j Hi Hj. rewrite <- (Hl i j Hi Hj). unfold mmul.
  apply sum_ext. intros k Hk. by rewrite (HB i k Hi Hk).
Qed.

(** A symmetric positive definite matrix has an inverse. *)
Lemma spd_invertible n A :
  SPD n A -> is_inverse n A (inverse_llt n (matrixL (compute n A))).
Proof.
  intros HA. pose proof (compute_spd n A HA) as (_ & Hpos & Hprod).
  apply right_inverse_symmetric; [exact (proj1 HA)|].
  intros i j Hi Hj. unfold mmul, inverse_llt.
  apply (solve_llt_spec n A (matrixL (compute n A))
           (fun k => Identity k j) Hprod); [| |exact Hi].
  - intros i' p Hp. unfold matrixL. destruct (decide (p <= i')%nat); [lia|done].
  - intros i' Hi'. specialize (Hpos i' Hi'). lra.
Qed.

(** Eigen's inverse() of a symmetric positive definite matrix. *)
Lemma inverse_spd n A : SPD n A -> is_inverse n A (inverse n A).
Proof.
  intros HA.
  assert (He : is_inverse n A (epsilon (inhabits Zero) (is_inverse n A))).
  { apply epsilon_spec. eexists. by apply spd_invertible. }
  destruct He as [H1 H2]. unfold inverse. split; intros i j Hi Hj.
  - rewrite <- (H1 i j Hi Hj). unfold mmul. apply sum_ext. intros k Hk.
    destruct (decide _) as [_|Hn]; [done | lia].
  - rewrite <- (H2 i j Hi Hj). unfold mmul. apply sum_ext. intros k Hk.
    destruct (decide _) as [_|Hn]; [done | lia].
Qed.

(** *** A successful decomposition means positive definite *)

(** An upper triangular system with a nonzero diagonal has only the zero
    solution. *)
Lemma upper_triangular_injective n L v :
  (forall i p, (i < p)%nat -> L i p = 0) ->
  (forall i, (i < n)%nat -> L i i <> 0) ->
  vec_eq n (mvmul n (transpose L) v) (fun _ => 0) ->
  vec_eq n v (fun _ => 0).
Proof.
  intros Hlow Hdiag Hz.
  assert (H : forall m k, (m <= n)%nat -> (n - m <= k < n)%nat -> v k = 0).
  { induction m as [|m IH]; intros k Hm Hk; [lia|].
    destruct (decide (k = n - S m)%nat) as [->|Hne]; [|apply IH; lia].
    specialize (Hz (n - S m)%nat ltac:(lia)). unfold mvmul, transpose in Hz.
    rewrite (sum_ext n _
               (fun q => if decide (q = n - S m)%nat
                         then L q (n - S m)%nat * v q else 0)) in Hz.
    - rewrite sum_delta in Hz by lia.
      apply Rmult_integral in Hz as [Hz|Hz]; [|exact Hz].
      exfalso. apply (Hdiag (n - S m)%nat); [lia | exact Hz].
    - intros q Hq. destruct (decide (q = n - S m)%nat) as [->|Hq']; [done|].
      destruct (decide (q < n - S m)%nat).
      + rewrite Hlow by lia. ring.
      + rewrite (IH q) by lia. ring. }
  intros k Hk. apply (H n); lia.
Qed.

Lemma compute_success_pd n A :
  symmetric n A -> m_info (compute n A) = Success -> positive_definite n A.
Proof.
  intros Hsym Hinfo v (i & Hi & Hvi).
  pose proof (llt_loop_spec n A n 0 A ltac:(lia) (columns_done_0 n A))
    as Hrun.
  unfold compute, unblocked in Hinfo.
  destruct (llt_loop n (seq 0 n) A) as [mat' [k'|]]; [discriminate|].
  pose proof (factor_product n A mat' Hsym Hrun) as Hprod. simpl in Hprod.
  set (L := matrixL {| m_matrix := mat'; m_info := Success |}) in *.
  rewrite (quad_gram n A L v Hprod).
  set (y := mvmul n (transpose L) v).
  assert (Hnn : 0 <= sum n (fun p => y p * y p))
    by (apply sum_nonneg; intros; nra).
  destruct (Rle_lt_or_eq_dec _ _ Hnn) as [Hlt|Heq]; [exact Hlt|].
  exfalso. apply Hvi.
  apply (upper_triangular_injective n L v); [| | |exact Hi].
  - intros i' p Hp. unfold L, matrixL.
    destruct (decide (p <= i')%nat); [lia | done].
  - intros i' Hi'. unfold L, matrixL. simpl.
    destruct (decide (i' <= i')%nat); [|lia].
    destruct Hrun as (_ & Hpos & _). specialize (Hpos i' Hi'). lra.
  - intros p Hp. fold y.
    assert (Hsq : y p * y p = 0).
    { apply (sum_nonneg_zero n (fun p => y p * y p)); auto.
      intros; nra. }
    nra.
Qed.

(** For a symmetric matrix, info() is Success exactly when the matrix is
    positive definite. *)
Lemma compute_info n A :
  symmetric n A ->
  (m_info (compute n A) = Success <-> positive_definite n A).
Proof.
  intros Hsym. split; [by apply compute_success_pd|].
  intros Hpd. by apply compute_spd.
Qed.

End TriangularFacts.

(** ** Quaternions and poses *)

Module QuaternionFacts.
Import Eigen Quaternion.
Local Open Scope R_scope.

Lemma squaredNorm_nonneg q : 0 <= squaredNorm q.
Proof. unfold squaredNorm. nra. Qed.

Lemma squaredNorm_normalized q :
  0 < squaredNorm q -> squaredNorm (normalized q) = 1.
Proof.
  intros Hq. unfold normalized.
  destruct (decide _) as [_|Hn]; [|contradiction].
  assert (Hs : 0 < sqrt (squaredNorm q)) by (by apply sqrt_lt_R0).
  assert (Hsq : sqrt (squaredNorm q) * sqrt (squaredNorm q) = squaredNorm q)
    by (apply sqrt_sqrt; lra).
  unfold squaredNorm at 1. simpl.
  set (s := sqrt (squaredNorm q)) in *.
  transitivity (squaredNorm q / (s * s)).
  - unfold squaredNorm. field. lra.
  - rewrite Hsq. field. lra.
Qed.

Lemma normalized_unit q : squaredNorm q = 1 -> normalized q = q.
Proof.
  intros Hq. unfold normalized. rewrite Hq.
  destruct (decide _) as [_|Hn]; [|lra].
  rewrite sqrt_1. destruct q. simpl. f_equal; field.
Qed.

Lemma squaredNorm_mul a b :
  squaredNorm (mul a b) = squaredNorm a * squaredNorm b.
Proof. unfold squaredNorm, mul. simpl. ring. Qed.

Lemma squaredNorm_conjugate q : squaredNorm (conjugate q) = squaredNorm q.
Proof. unfold squaredNorm, conjugate. simpl. ring. Qed.

Lemma inverse_unit q : squaredNorm q = 1 -> inverse q = conjugate q.
Proof.
  intros Hq. unfold inverse, conjugate. rewrite Hq.
  destruct (decide _) as [_|Hn]; [|lra]. f_equal; field.
Qed.

(** a = (a conj(b)) b for a unit b. *)
Lemma mul_conjugate_mul a b :
  mul (mul a (conjugate b)) b =
  mk (squaredNorm b * w a) (squaredNorm b * x a)
     (squaredNorm b * y a) (squaredNorm b * z a).
Proof. unfold mul, conjugate, squaredNorm. simpl. f_equal; ring. Qed.

(** The rotation matrix does not see the sign of the quaternion. *)
Lemma toRotationMatrix_scaled s b :
  s * s = 1 ->
  toRotationMatrix (mk (s * w b) (s * x b) (s * y b) (s * z b)) =
  toRotationMatrix b.
Proof.
  intros Hs.
  assert (P : forall u v, 2 * (s * u) * (s * v) = 2 * u * v).
  { intros u v. transitivity (s * s * (2 * u * v)); [ring|].
    rewrite Hs. ring. }
  unfold toRotationMatrix. simpl. rewrite !P. reflexivity.
Qed.

(** From equal products of the coefficients to a vanishing imaginary
    part of a conj(b). *)
Lemma product_square_zero aw ax ay az bw bx by' bz :
  aw * aw = bw * bw -> ax * ax = bx * bx ->
  ay * ay = by' * by' -> az * az = bz * bz ->
  aw * ax = bw * bx -> aw * ay = bw * by' -> aw * az = bw * bz ->
  ax * ay = bx * by' -> ax * az = bx * bz -> ay * az = by' * bz ->
  - aw * bx + ax * bw - ay * bz + az * by' = 0.
Proof.
  intros Hww Hxx Hyy Hzz Hwx Hwy Hwz Hxy Hxz Hyz.
  apply Rsqr_0_uniq. unfold Rsqr.
  transitivity
    ((aw * aw) * (bx * bx) + (ax * ax) * (bw * bw)
     + (ay * ay) * (bz * bz) + (az * az) * (by' * by')
     + 2 * (- (aw * ax) * (bx * bw) + (aw * ay) * (bx * bz)
            - (aw * az) * (bx * by') - (ax * ay) * (bw * bz)
            + (ax * az) * (bw * by') - (ay * az) * (bz * by'))); [ring|].
  rewrite Hww, Hxx, Hyy, Hzz, Hwx, Hwy, Hwz, Hxy, Hxz, Hyz. ring.
Qed.

(** For unit quaternions: the imaginary part of a conj(b) vanishes exactly
    when a and b have the same rotation matrix. *)
Lemma same_rotation_iff a b :
  squaredNorm a = 1 -> squaredNorm b = 1 ->
  vec (mul a (conjugate b)) = mkVector3d 0 0 0 <->
  toRotationMatrix a = toRotationMatrix b.
Proof.
  intros Ha Hb. split.
  - intros Hv.
    pose proof (mul_conjugate_mul a b) as Hab. rewrite Hb in Hab.
    assert (Hx : x (mul a (conjugate b)) = 0)
      by exact (f_equal v3x Hv).
    assert (Hy : y (mul a (conjugate b)) = 0)
      by exact (f_equal v3y Hv).
    assert (Hz : z (mul a (conjugate b)) = 0)
      by exact (f_equal v3z Hv).
    set (d := mul a (conjugate b)) in *.
    assert (Hd : squaredNorm d = 1)
      by (unfold d; rewrite squaredNorm_mul, squaredNorm_conjugate, Ha, Hb;
          ring).
    assert (Hs : w d * w d = 1).
    { unfold squaredNorm in Hd. rewrite Hx, Hy, Hz in Hd. lra. }
    assert (Ea : a = mk (w d * w b) (w d * x b) (w d * y b) (w d * z b)).
    { unfold mul at 1 in Hab. rewrite Hx, Hy, Hz in Hab.
      destruct a as [aw ax ay az]. simpl in Hab.
      injection Hab as Hw' Hx' Hy' Hz'.
      f_equal; unfold d; simpl; lra. }
    rewrite Ea. by apply toRotationMatrix_scaled.
  - intros HC. unfold toRotationMatrix in HC. simpl in HC.
    destruct a as [aw ax ay az], b as [bw bx by' bz].
    unfold squaredNorm in Ha, Hb. simpl in *.
    injection HC as H00 H01 H02 H10 H11 H12 H20 H21 H22.
    assert (Hxx : ax * ax = bx * bx) by lra.
    assert (Hyy : ay * ay = by' * by') by lra.
    assert (Hzz : az * az = bz * bz) by lra.
    assert (Hww : aw * aw = bw * bw) by lra.
    assert (Hxy : ax * ay = bx * by') by lra.
    assert (Hwz : aw * az = bw * bz) by lra.
    assert (Hxz : ax * az = bx * bz) by lra.
    assert (Hwy : aw * ay = bw * by') by lra.
    assert (Hyz : ay * az = by' * bz) by lra.
    assert (Hwx : aw * ax = bw * bx) by lra.
    unfold vec, mul, conjugate. simpl. f_equal.
    + transitivity (- aw * bx + ax * bw - ay * bz + az * by'); [ring|].
      by apply product_square_zero.
    + transitivity (- aw * by' + ay * bw - az * bx + ax * bz); [ring|].
      apply product_square_zero; try assumption; lra.
    + transitivity (- aw * bz + az * bw - ax * by' + ay * bx); [ring|].
      apply product_square_zero; try assumption; lra.
Qed.

End QuaternionFacts.

(** ** RelativePoseError *)

Module RelativePoseErrorFacts.
Import Eigen Dense SumFacts LLTFacts WhiteningFacts TriangularFacts.
Import QuaternionFacts RelativePoseError.
Local Open Scope R_scope.

(** The members after [setInformation]. *)
Lemma setInformation_run information s :
  setInformation information s =
  ({| T_AB_ := T_AB_ s;
      information_ := information;
      covariance_ := inverse 6 information;
      squareRootInformation_ := transpose (matrixL (compute 6 information)) |},
   inr tt).
Proof. reflexivity. Qed.

Lemma RelativePoseError_run information T_AB :
  RelativePoseError information T_AB =
  ({| T_AB_ := T_AB;
      information_ := information;
      covariance_ := inverse 6 information;
      squareRootInformation_ := transpose (matrixL (compute 6 information)) |},
   inr tt).
Proof. reflexivity. Qed.

(** *** Poses have unit quaternions *)

Lemma make_unit r q :
  0 < Quaternion.squaredNorm q ->
  Quaternion.squaredNorm (Transformation.q (Transformation.make r q)) = 1.
Proof. intros Hq. simpl. by apply squaredNorm_normalized. Qed.

Lemma pose_of_unit p :
  proper_pose p ->
  Quaternion.squaredNorm (Transformation.q (pose_of p)) = 1.
Proof.
  intros Hp. unfold pose_of. apply make_unit.
  rewrite squaredNorm_normalized by exact Hp. lra.
Qed.

Lemma inverse_pose_unit T :
  Quaternion.squaredNorm (Transformation.q T) = 1 ->
  Quaternion.squaredNorm (Transformation.q (Transformation.inverse T)) = 1.
Proof.
  intros HT. unfold Transformation.inverse. apply make_unit.
  rewrite inverse_unit, squaredNorm_conjugate by exact HT. lra.
Qed.

Lemma mul_pose_unit T1 T2 :
  Quaternion.squaredNorm (Transformation.q T1) = 1 ->
  Quaternion.squaredNorm (Transformation.q T2) = 1 ->
  Quaternion.squaredNorm (Transformation.q (Transformation.mul T1 T2)) = 1.
Proof.
  intros H1 H2. unfold Transformation.mul. apply make_unit.
  rewrite squaredNorm_mul, H1, H2. lra.
Qed.

Lemma estimated_unit parameters :
  proper_pose (parameters 0%nat) -> proper_pose (parameters 1%nat) ->
  Quaternion.squaredNorm (Transformation.q (estimated_T_AB parameters)) = 1.
Proof.
  intros HA HB. unfold estimated_T_AB.
  apply mul_pose_unit; [apply inverse_pose_unit|]; by apply pose_of_unit.
Qed.

(** *** The error vector *)

Lemma error_zero_iff s parameters :
  Quaternion.squaredNorm (Transformation.q (T_AB_ s)) = 1 ->
  proper_pose (parameters 0%nat) -> proper_pose (parameters 1%nat) ->
  vec_eq 6 (error s parameters) (fun _ => 0) <->
  same_transform (T_AB_ s) (estimated_T_AB parameters).
Proof.
  intros Hm HA HB.
  pose proof (estimated_unit parameters HA HB) as He.
  unfold same_transform, Transformation.C.
  rewrite <- (same_rotation_iff _ _ Hm He).
  rewrite <- (inverse_unit _ He).
  unfold error.
  set (T := estimated_T_AB parameters).
  set (d := Quaternion.mul _ _).
  destruct (Transformation.r (T_AB_ s)) as [mx my mz].
  destruct (Transformation.r T) as [ex ey ez].
  destruct d as [dw dx dy dz].
  unfold Transformation.sub3, scale3, Quaternion.vec. simpl.
  split.
  - intros H.
    pose proof (H 0%nat ltac:(lia)) as H0.
    pose proof (H 1%nat ltac:(lia)) as H1.
    pose proof (H 2%nat ltac:(lia)) as H2.
    pose proof (H 3%nat ltac:(lia)) as H3.
    pose proof (H 4%nat ltac:(lia)) as H4.
    pose proof (H 5%nat ltac:(lia)) as H5.
    simpl in *. split; f_equal; lra.
  - intros [Hr Hv]. injection Hr as -> -> ->. injection Hv as -> -> ->.
    intros i Hi.
    do 6 (destruct i as [|i]; [simpl; lra|]). lia.
Qed.

(** *** The residual *)

Lemma residual_zero_iff_error_zero information s parameters :
  SPD 6 information ->
  squareRootInformation_ s = transpose (matrixL (compute 6 information)) ->
  vec_eq 6 (Evaluate s parameters).2 (fun _ => 0) <->
  vec_eq 6 (error s parameters) (fun _ => 0).
Proof.
  intros HA Hs. pose proof (compute_spd 6 information HA) as (_ & _ & Hprod).
  unfold Evaluate, EvaluateWithMinimalJacobians. simpl. rewrite Hs. split.
  - apply whitened_zero with (A := information); [exact (proj2 HA) | exact Hprod].
  - apply mvmul_zero.
Qed.

(** *** The identity matrix is symmetric positive definite *)

Lemma quad_Identity n v : quad n Identity v = sum n (fun i => v i * v i).
Proof.
  unfold quad. apply sum_ext. intros i Hi.
  rewrite (sum_ext n _ (fun j => if decide (j = i) then v i * v j else 0)).
  - by rewrite sum_delta.
  - intros j _. unfold Identity.
    destruct (decide (i = j)), (decide (j = i)); try lia; ring.
Qed.

Lemma Identity_SPD n : SPD n Identity.
Proof.
  split.
  - intros i j _ _. unfold Identity.
    destruct (decide (i = j)), (decide (j = i)); try lia; reflexivity.
  - intros v (i & Hi & Hvi). rewrite quad_Identity.
    assert (Hnn : 0 <= sum n (fun i => v i * v i))
      by (apply sum_nonneg; intros; nra).
    destruct (Rle_lt_or_eq_dec _ _ Hnn) as [Hlt|Heq]; [exact Hlt|].
    exfalso. apply Hvi.
    assert (Hsq : v i * v i = 0).
    { apply (sum_nonneg_zero n (fun i => v i * v i)); auto. intros; nra. }
    nra.
Qed.

Lemma Zero_not_pd n : (0 < n)%nat -> ~ positive_definite n Zero.
Proof.
  intros Hn Hpd.
  specialize (Hpd (fun _ => 1)).
  assert (Hq : quad n Zero (fun _ => 1) = 0).
  { unfold quad. apply sum_zero. intros i _. apply sum_zero. intros j _.
    unfold Zero. ring. }
  rewrite Hq in Hpd. apply (Rlt_irrefl 0), Hpd.
  exists 0%nat. split; [exact Hn | lra].
Qed.

Lemma compute_Zero n :
  (0 < n)%nat -> compute n Zero = {| m_matrix := Zero; m_info := NumericalIssue |}.
Proof.
  intros Hn. unfold compute, unblocked.
  destruct n as [|n]; [lia|]. simpl.
  unfold llt_step. simpl.
  destruct (decide _) as [_|Hx]; [reflexivity|].
  exfalso. apply Hx. unfold Zero. lra.
Qed.

End RelativePoseErrorFacts.

(** ** The Eigen model on small inputs *)

Module DenseExamples.
Import Eigen Dense SumFacts LLTFacts PoseExamples.
Local Open Scope R_scope.

Lemma sqrt_4 : sqrt 4 = 2.
Proof. replace 4 with (2 * 2) by ring. apply sqrt_square. lra. Qed.

(** [[4, 2], [2, 3]] = L L^T with L = [[2, 0], [1, sqrt 2]]. *)
Example llt_spd2 :
  m_info (compute 2 ex_spd2) = Success /\
  matrixL (compute 2 ex_spd2) 0%nat 0%nat = 2 /\
  matrixL (compute 2 ex_spd2) 1%nat 0%nat = 1 /\
  matrixL (compute 2 ex_spd2) 1%nat 1%nat = sqrt 2 /\
  matrixL (compute 2 ex_spd2) 0%nat 1%nat = 0.
Proof.
  unfold compute, unblocked. simpl.
  destruct (llt_step 2 ex_spd2 0) as [m1|] eqn:E0.
  2:{ apply llt_step_None in E0. simpl in E0. lra. }
  apply llt_step_inv in E0 as (_ & H00 & Hc0 & Hr0); [|lia].
  simpl in H00, Hc0.
  assert (H10 : m1 1%nat 0%nat = 1).
  { rewrite Hc0 by lia. simpl.
    replace (4 - 0) with 4 by ring. rewrite sqrt_4. lra. }
  assert (H11 : m1 1%nat 1%nat = 3) by (rewrite Hr0 by lia; reflexivity).
  destruct (llt_step 2 m1 1) as [m2|] eqn:E1.
  2:{ apply llt_step_None in E1. simpl in E1. rewrite H10, H11 in E1. lra. }
  apply llt_step_inv in E1 as (_ & H11' & _ & Hr1); [|lia].
  simpl in H11'. rewrite H10, H11 in H11'.
  unfold matrixL. simpl.
  split; [reflexivity|].
  rewrite !Hr1 by lia. rewrite H00, H10, H11'.
  replace (4 - 0) with 4 by ring. rewrite sqrt_4.
  replace (3 - (0 + 1 * 1)) with 2 by ring. auto.
Qed.

(** [[1, 2], [2, 1]]: the first column is done, the second pivot is
    1 - 2 * 2 < 0; the loop returns early and leaves [[1, 2], [2, 1]]
    with the first column replaced. *)
Example llt_indefinite2 :
  m_info (compute 2 ex_indefinite2) = NumericalIssue /\
  matrixL (compute 2 ex_indefinite2) 0%nat 0%nat = 1 /\
  matrixL (compute 2 ex_indefinite2) 1%nat 0%nat = 2 /\
  matrixL (compute 2 ex_indefinite2) 1%nat 1%nat = 1.
Proof.
  unfold compute, unblocked. simpl.
  destruct (llt_step 2 ex_indefinite2 0) as [m1|] eqn:E0.
  2:{ apply llt_step_None in E0. simpl in E0. lra. }
  apply llt_step_inv in E0 as (_ & H00 & Hc0 & Hr0); [|lia].
  simpl in H00, Hc0.
  replace (1 - 0) with 1 in * by ring. rewrite sqrt_1 in *.
  assert (H10 : m1 1%nat 0%nat = 2) by (rewrite Hc0 by lia; simpl; lra).
  assert (H11 : m1 1%nat 1%nat = 1) by (rewrite Hr0 by lia; reflexivity).
  destruct (llt_step 2 m1 1) as [m2|] eqn:E1.
  { apply llt_step_inv in E1 as (Hx & _); [|lia].
    simpl in Hx. rewrite H10, H11 in Hx. lra. }
  unfold matrixL. simpl. auto.
Qed.

(** Quaternions: i j = k, and the rotation matrices of 1 and of k. *)
Example quaternion_ij :
  Quaternion.mul (Quaternion.mk 0 1 0 0) (Quaternion.mk 0 0 1 0) =
  Quaternion.mk 0 0 0 1.
Proof. unfold Quaternion.mul. simpl. f_equal; ring. Qed.

Example rotation_of_one :
  Quaternion.toRotationMatrix (Quaternion.mk 1 0 0 0) =
  (mkVector3d 1 0 0, mkVector3d 0 1 0, mkVector3d 0 0 1).
Proof.
  unfold Quaternion.toRotationMatrix. simpl.
  repeat (f_equal; try ring).
Qed.

Example rotation_of_k :
  Quaternion.toRotationMatrix (Quaternion.mk 0 0 0 1) =
  (mkVector3d (-1) 0 0, mkVector3d 0 (-1) 0, mkVector3d 0 0 1).
Proof.
  unfold Quaternion.toRotationMatrix. simpl.
  repeat (f_equal; try ring).
Qed.

(** The inverse of a pose undoes it: T^-1 * T has zero translation and
    the identity rotation (here for a quarter turn about z and the
    translation (1, 2, 3)). *)
Example inverse_then_pose :
  let T := Transformation.mk (mkVector3d 1 2 3)
             (Quaternion.mk (/ sqrt 2) 0 0 (/ sqrt 2)) in
  Transformation.r (Transformation.mul (Transformation.inverse T) T) =
  mkVector3d 0 0 0.
Proof.
  intros T.
  assert (Hs : 0 < sqrt 2) by (apply sqrt_lt_R0; lra).
  assert (Hsq : sqrt 2 * sqrt 2 = 2) by (apply sqrt_sqrt; lra).
  assert (Hi : / sqrt 2 * / sqrt 2 = / 2).
  { rewrite <- Rinv_mult, Hsq. reflexivity. }
  assert (Hq : Quaternion.squaredNorm (Transformation.q T) = 1).
  { unfold Quaternion.squaredNorm. simpl. rewrite Hi. lra. }
  unfold Transformation.mul, Transformation.inverse, Transformation.make.
  simpl Transformation.r.
  unfold Transformation.C. simpl Transformation.q.
  rewrite QuaternionFacts.inverse_unit by exact Hq.
  rewrite QuaternionFacts.normalized_unit
    by (rewrite QuaternionFacts.squaredNorm_conjugate; exact Hq).
  unfold Quaternion.toRotationMatrix, Quaternion.conjugate. simpl.
  unfold Transformation.add3, Transformation.neg3, Transformation.dot3.
  simpl.
  set (c := / sqrt 2) in *.
  assert (Hc : c * c = / 2) by exact Hi.
  f_equal; nra.
Qed.

End DenseExamples.

(** ** The relative pose of two parameter blocks *)

Module RelativePoseFacts.
Import Eigen Quaternion QuaternionFacts RelativePoseError RelativePoseErrorFacts.
Import RelativePose.
Local Open Scope R_scope.

(** The rotation matrix of conj(a) b is C_a^T C_b for unit a and b. *)
Lemma toRotationMatrix_conjugate_mul a b :
  squaredNorm a = 1 -> squaredNorm b = 1 ->
  toRotationMatrix (mul (conjugate a) b) =
  (let C_A := toRotationMatrix a in
   let C_B := toRotationMatrix b in
   (mkVector3d (dot (col_x C_A) (col_x C_B)) (dot (col_x C_A) (col_y C_B))
               (dot (col_x C_A) (col_z C_B)),
    mkVector3d (dot (col_y C_A) (col_x C_B)) (dot (col_y C_A) (col_y C_B))
               (dot (col_y C_A) (col_z C_B)),
    mkVector3d (dot (col_z C_A) (col_x C_B)) (dot (col_z C_A) (col_y C_B))
               (dot (col_z C_A) (col_z C_B)))).
Proof.
  intros Ha Hb. destruct a as [aw ax ay az], b as [bw bx by' bz].
  unfold squaredNorm in Ha, Hb. simpl in Ha, Hb.
  unfold toRotationMatrix, mul, conjugate, dot, col_x, col_y, col_z.
  cbn [w x y z v3x v3y v3z].
  f_equal; [f_equal|]; f_equal; nsatz.
Qed.

(** *** The poses of the evaluation *)

Lemma pose_of_run p :
  proper_pose p ->
  pose_of p =
  Transformation.mk (position p)
    (normalized (mk (p 6%nat) (p 3%nat) (p 4%nat) (p 5%nat))).
Proof.
  intros Hp. unfold pose_of, Transformation.make, position.
  by rewrite (normalized_unit (normalized _))
    by (by apply squaredNorm_normalized).
Qed.

Lemma inverse_run r u :
  squaredNorm u = 1 ->
  Transformation.inverse (Transformation.mk r u) =
  Transformation.mk
    (Transformation.neg3
       (Transformation.mat3_mul_vec
          (Transformation.transpose3 (toRotationMatrix u)) r))
    (conjugate u).
Proof.
  intros Hu. unfold Transformation.inverse, Transformation.make.
  cbn [Transformation.r Transformation.q Transformation.C].
  rewrite (inverse_unit u Hu).
  by rewrite normalized_unit by (by rewrite squaredNorm_conjugate).
Qed.

Lemma mul_run r1 u1 r2 u2 :
  squaredNorm u1 = 1 -> squaredNorm u2 = 1 ->
  Transformation.mul (Transformation.mk r1 u1) (Transformation.mk r2 u2) =
  Transformation.mk
    (Transformation.add3
       (Transformation.mat3_mul_vec (toRotationMatrix u1) r2) r1)
    (mul u1 u2).
Proof.
  intros H1 H2. unfold Transformation.mul, Transformation.make.
  cbn [Transformation.r Transformation.q Transformation.C].
  by rewrite normalized_unit by (rewrite squaredNorm_mul, H1, H2; lra).
Qed.

(** Line 100 computes the relative pose of the two blocks: the
    translation C_A^T (r_B - r_A) and the rotation C_A^T C_B. *)
Lemma estimated_T_AB_relative parameters :
  proper_pose (parameters 0%nat) -> proper_pose (parameters 1%nat) ->
  Transformation.r (estimated_T_AB parameters) =
    relative_translation (parameters 0%nat) (parameters 1%nat) /\
  Transformation.C (estimated_T_AB parameters) =
    relative_rotation (parameters 0%nat) (parameters 1%nat).
Proof.
  intros HA HB. unfold estimated_T_AB.
  rewrite (pose_of_run _ HA), (pose_of_run _ HB).
  pose proof (squaredNorm_normalized _ HA) as HuA.
  pose proof (squaredNorm_normalized _ HB) as HuB.
  unfold relative_translation, relative_rotation, rotation.
  set (uA := normalized _) in *. set (uB := normalized _) in *.
  rewrite (inverse_run _ uA HuA).
  rewrite mul_run by (by rewrite ?squaredNorm_conjugate).
  unfold Transformation.C. cbn [Transformation.r Transformation.q].
  split; [|by apply toRotationMatrix_conjugate_mul].
  generalize (position (parameters 0%nat)) (position (parameters 1%nat)).
  intros [ax' ay' az'] [bx' by'' bz'].
  destruct uA as [aw ax ay az].
  unfold toRotationMatrix, conjugate, Transformation.add3,
    Transformation.neg3, Transformation.mat3_mul_vec,
    Transformation.transpose3, Transformation.dot3, dot, col_x, col_y, col_z.
  cbn [w x y z v3x v3y v3z]. f_equal; ring.
Qed.

(** Pose A composed with the relative pose is pose B: for every point p,
    C_A (C_AB p + r_AB) + r_A = C_B p + r_B. *)
Lemma relative_pose_composes pA pB p :
  proper_pose pA -> proper_pose pB ->
  transform_point (rotation pA) (position pA)
    (transform_point (relative_rotation pA pB)
       (relative_translation pA pB) p) =
  transform_point (rotation pB) (position pB) p.
Proof.
  intros HA HB.
  pose proof (squaredNorm_normalized _ HA) as HuA.
  unfold relative_translation, relative_rotation, rotation.
  set (uA := normalized _) in *.
  generalize (toRotationMatrix (normalized (mk (pB 6%nat) (pB 3%nat) (pB 4%nat) (pB 5%nat)))).
  generalize (position pA) (position pB).
  intros [ax' ay' az'] [bx' by'' bz'] [[b0 b1] b2].
  destruct b0 as [b00 b01 b02], b1 as [b10 b11 b12], b2 as [b20 b21 b22].
  destruct p as [px py pz].
  destruct uA as [aw ax ay az].
  unfold squaredNorm in HuA. simpl in HuA.
  unfold toRotationMatrix, transform_point, dot, col_x, col_y, col_z.
  cbn [w x y z v3x v3y v3z]. f_equal; nsatz.
Qed.

End RelativePoseFacts.

(** ** RelativePoseError: properties of the specification *)

Module RelativePoseErrorClaims.
Import Eigen Dense SumFacts LLTFacts WhiteningFacts TriangularFacts.
Import QuaternionFacts RelativePoseError RelativePoseErrorFacts PoseExamples.
Import RelativePose RelativePoseFacts.
Local Open Scope R_scope.

(** C1 as stated fails: for the zero matrix, which is symmetric and not
    positive definite, the decomposition reports NumericalIssue, and yet
    [setInformation] and the constructor return normally; the factor left
    by the failed decomposition is stored and every later evaluation
    whitens with it. *)
Lemma setInformation_not_pd_counterexample :
  symmetric 6 ex_not_pd /\ ~ positive_definite 6 ex_not_pd /\
  m_info (compute 6 ex_not_pd) = NumericalIssue /\
  (forall s, exists s',
     setInformation ex_not_pd s = (s', inr tt) /\
     squareRootInformation_ s' = transpose (matrixL (compute 6 ex_not_pd)) /\
     forall parameters,
       Evaluate s' parameters =
       (true, mvmul 6 (transpose (matrixL (compute 6 ex_not_pd)))
                (error s' parameters))) /\
  (forall T_AB, (RelativePoseError ex_not_pd T_AB).2 = inr tt) /\
  ~ (exists e s', setInformation ex_not_pd blank = (s', inl e)).
Proof.
  split; [intros i j _ _; reflexivity|].
  split; [apply Zero_not_pd; lia|].
  split; [unfold ex_not_pd; rewrite compute_Zero by lia; reflexivity|].
  split; [|split; [reflexivity|]].
  - intros s. eexists. split; [apply setInformation_run|].
    split; reflexivity.
  - intros (e & s' & H). rewrite setInformation_run in H. discriminate.
Qed.

(** C1, amended: for every 6x6 matrix, positive definite or not,
    [setInformation] and both constructors return without an exception:
    the status of the decomposition is never read.  The stored square-root
    information is the transposed lower triangular view of what the
    decomposition left in place, which the evaluation uses for whitening;
    for a symmetric matrix the decomposition itself reports
    NumericalIssue exactly when the matrix is not positive definite. *)
Theorem setInformation_never_fails information s :
  (exists s',
     setInformation information s = (s', inr tt) /\
     information_ s' = information /\
     squareRootInformation_ s' = transpose (matrixL (compute 6 information)) /\
     forall parameters,
       Evaluate s' parameters =
       (true, mvmul 6 (transpose (matrixL (compute 6 information)))
                (error s' parameters))) /\
  (forall T_AB, (RelativePoseError information T_AB).2 = inr tt) /\
  (forall translationVariance rotationVariance T_AB,
     (RelativePoseError_variance translationVariance rotationVariance T_AB).2
     = inr tt) /\
  (symmetric 6 information ->
   (m_info (compute 6 information) = NumericalIssue <->
    ~ positive_definite 6 information)).
Proof.
  split; [|split; [reflexivity|split; [reflexivity|]]].
  - eexists. split; [apply setInformation_run|].
    split; [reflexivity|]. split; reflexivity.
  - intros Hsym. rewrite <- (compute_info 6 information Hsym).
    destruct (m_info (compute 6 information)); intuition congruence.
Qed.

Lemma setInformation_never_fails_witness :
  m_info (compute 6 ex_not_pd) = NumericalIssue <->
  ~ positive_definite 6 ex_not_pd.
Proof.
  destruct (setInformation_never_fails ex_not_pd blank) as (_ & _ & _ & H).
  apply H. intros i j _ _. reflexivity.
Defined.

(** C6: for a symmetric positive definite 6x6 matrix M, [setInformation]
    stores M, stores as covariance the inverse of M, and stores as
    square-root information R the transpose of the lower Cholesky factor
    of M (the decomposition succeeds; R is upper triangular with a
    positive diagonal), with R^T R = M. *)
Theorem setInformation_spd M s :
  SPD 6 M ->
  exists s',
    setInformation M s = (s', inr tt) /\
    information_ s' = M /\
    is_inverse 6 M (covariance_ s') /\
    m_info (compute 6 M) = Success /\
    squareRootInformation_ s' = transpose (matrixL (compute 6 M)) /\
    (forall i j, (j < i)%nat -> squareRootInformation_ s' i j = 0) /\
    (forall i, (i < 6)%nat -> 0 < squareRootInformation_ s' i i) /\
    mat_eq 6 (mmul 6 (transpose (squareRootInformation_ s'))
                     (squareRootInformation_ s')) M.
Proof.
  intros HM. pose proof (compute_spd 6 M HM) as (Hinfo & Hpos & Hprod).
  eexists. split; [apply setInformation_run|]. simpl.
  split; [reflexivity|]. split; [by apply inverse_spd|].
  split; [exact Hinfo|]. split; [reflexivity|]. split; [|split].
  - intros i j Hij. unfold transpose, matrixL.
    destruct (decide (i <= j)%nat); [lia | reflexivity].
  - intros i Hi. unfold transpose. by apply Hpos.
  - exact Hprod.
Qed.

Lemma setInformation_spd_witness :
  exists s',
    setInformation Identity blank = (s', inr tt) /\
    information_ s' = Identity /\
    is_inverse 6 Identity (covariance_ s') /\
    m_info (compute 6 Identity) = Success /\
    squareRootInformation_ s' = transpose (matrixL (compute 6 Identity)) /\
    (forall i j, (j < i)%nat -> squareRootInformation_ s' i j = 0) /\
    (forall i, (i < 6)%nat -> 0 < squareRootInformation_ s' i i) /\
    mat_eq 6 (mmul 6 (transpose (squareRootInformation_ s'))
                     (squareRootInformation_ s')) Identity.
Proof. exact (setInformation_spd Identity blank (Identity_SPD 6)). Defined.

(** C2: for an error term built from a symmetric positive definite
    information matrix and a measured transform with a unit quaternion,
    and for parameter blocks A and B whose quaternions are not zero,
    [Evaluate] and [EvaluateWithMinimalJacobians] return true and write
    the same six residuals, and these are all zero exactly when the
    measured transform is inverse(pose A) composed with pose B: its
    translation is C_A^T (r_B - r_A) and its rotation matrix is C_A^T C_B,
    for the positions r_A, r_B of the two blocks and the rotation matrices
    C_A, C_B of their renormalised quaternions.  The transform computed at
    line 100 has this translation and this rotation. *)
Theorem residual_zero_iff information T_AB s parameters :
  SPD 6 information ->
  Quaternion.squaredNorm (Transformation.q T_AB) = 1 ->
  RelativePoseError information T_AB = (s, inr tt) ->
  proper_pose (parameters 0%nat) -> proper_pose (parameters 1%nat) ->
  Evaluate s parameters = EvaluateWithMinimalJacobians s parameters /\
  (Evaluate s parameters).1 = true /\
  (vec_eq 6 (Evaluate s parameters).2 (fun _ => 0) <->
   Transformation.r T_AB =
     relative_translation (parameters 0%nat) (parameters 1%nat) /\
   Quaternion.toRotationMatrix (Transformation.q T_AB) =
     relative_rotation (parameters 0%nat) (parameters 1%nat)) /\
  Transformation.r (estimated_T_AB parameters) =
    relative_translation (parameters 0%nat) (parameters 1%nat) /\
  Quaternion.toRotationMatrix (Transformation.q (estimated_T_AB parameters)) =
    relative_rotation (parameters 0%nat) (parameters 1%nat).
Proof.
  intros HM Hq Hrun HA HB. rewrite RelativePoseError_run in Hrun.
  injection Hrun as <-.
  pose proof (estimated_T_AB_relative parameters HA HB) as [Hr HC].
  unfold Transformation.C in HC.
  split; [reflexivity|]. split; [reflexivity|].
  split; [|split; [exact Hr | exact HC]].
  rewrite (residual_zero_iff_error_zero information _ parameters HM)
    by reflexivity.
  rewrite error_zero_iff by assumption.
  unfold same_transform, Transformation.C. cbn [T_AB_].
  by rewrite Hr, HC.
Qed.

Lemma ex_parameters_proper i : proper_pose (ex_parameters i).
Proof. unfold proper_pose, Quaternion.squaredNorm. simpl. lra. Qed.

Lemma residual_zero_iff_witness :
  let s := (RelativePoseError Identity Transformation.identity).1 in
  Evaluate s ex_parameters = EvaluateWithMinimalJacobians s ex_parameters /\
  (Evaluate s ex_parameters).1 = true /\
  (vec_eq 6 (Evaluate s ex_parameters).2 (fun _ => 0) <->
   Transformation.r Transformation.identity =
     relative_translation (ex_parameters 0%nat) (ex_parameters 1%nat) /\
   Quaternion.toRotationMatrix (Transformation.q Transformation.identity) =
     relative_rotation (ex_parameters 0%nat) (ex_parameters 1%nat)) /\
  Transformation.r (estimated_T_AB ex_parameters) =
    relative_translation (ex_parameters 0%nat) (ex_parameters 1%nat) /\
  Quaternion.toRotationMatrix
    (Transformation.q (estimated_T_AB ex_parameters)) =
    relative_rotation (ex_parameters 0%nat) (ex_parameters 1%nat).
Proof.
  intros s.
  refine (residual_zero_iff Identity Transformation.identity s ex_parameters
            (Identity_SPD 6) _ _ (ex_parameters_proper 0%nat)
            (ex_parameters_proper 1%nat)).
  - unfold Quaternion.squaredNorm. simpl. lra.
  - reflexivity.
Defined.

End RelativePoseErrorClaims.

(** ** Component *)

Module ComponentClaims.
Import Component.

(** C8: [load] either returns true with the IMU parameters, the camera
    rig, the graph content and the frame data of the component replaced
    by the persisted ones, or returns false with the component exactly as
    it was; there is no third outcome. *)
Theorem load_atomic {ImuParameters NCameraSystem GraphContent MultiFrame}
    (storage : gmap string
                 (Persisted ImuParameters NCameraSystem GraphContent MultiFrame))
    (path : string)
    (c : t ImuParameters NCameraSystem GraphContent MultiFrame) :
  (exists file imu rig graph frames,
     storage !! path = Some file /\
     p_imuParameters _ _ _ _ file = Some imu /\
     p_nCameraSystem _ _ _ _ file = Some rig /\
     p_graph _ _ _ _ file = Some graph /\
     p_multiFrames _ _ _ _ file = Some frames /\
     exists c', load _ _ _ _ storage path c = (true, c') /\
       imuParameters_ _ _ _ _ c' = imu /\ nCameraSystem_ _ _ _ _ c' = rig /\
       fullGraph_ _ _ _ _ c' = graph /\ multiFrames_ _ _ _ _ c' = frames /\
       graph_ownership _ _ _ _ c' = graph_ownership _ _ _ _ c) \/
  load _ _ _ _ storage path c = (false, c).
Proof.
  unfold load, deserialize.
  destruct (storage !! path) as [file|] eqn:Hf; [|right; reflexivity].
  simpl.
  destruct (p_imuParameters _ _ _ _ file) as [imu|] eqn:H1;
    [|right; reflexivity].
  destruct (p_nCameraSystem _ _ _ _ file) as [rig|] eqn:H2;
    [|right; reflexivity].
  destruct (p_graph _ _ _ _ file) as [graph|] eqn:H3; [|right; reflexivity].
  destruct (p_multiFrames _ _ _ _ file) as [frames|] eqn:H4;
    [|right; reflexivity].
  left. exists file, imu, rig, graph, frames. simpl.
  repeat (split; [assumption || reflexivity|]).
  eexists. split; [reflexivity|]. simpl. auto.
Qed.

End ComponentClaims.

(** ** The adapter: further properties of the constructor and the
       accessors *)

Module AdapterExtras.
Import Eigen Adapter AdapterFacts AdapterExamples AdapterOrder.

Section Order.
Variable points : gmap N Vector4d.
Variable matches : gmap KeypointIdentifier N.
Variable nCameraSystem : NCameraSystem.
Variable frameB : MultiFrame.

Local Abbreviation pr := (fun c : nat * nat * Vector4d => (cam_of c, kp_of c))
  (only parsing).

Lemma accepted_in_sorted im s m :
  StronglySorted pair_lt
    (map pr (accepted_in points matches frameB im (seq s m))).
Proof.
  revert s. induction m as [|m IH]; intros s; [constructor|].
  simpl seq. rewrite accepted_in_cons.
  destruct (classify points matches frameB im s); try apply IH.
  simpl. constructor; [apply IH|].
  apply Forall_forall. intros p Hp.
  apply list_elem_of_fmap in Hp as (c & -> & Hc).
  apply accepted_in_elem in Hc as (k & Hc & Hk & _).
  apply elem_of_seq in Hk. rewrite Hc. right. unfold cam_of, kp_of. simpl.
  split; [reflexivity | lia].
Qed.

Lemma accepted_of_sorted s m :
  StronglySorted pair_lt
    (map pr (accepted_of points matches frameB (seq s m))).
Proof.
  revert s. induction m as [|m IH]; intros s; [constructor|].
  unfold accepted_of. simpl. rewrite map_app.
  apply StronglySorted_app. split; [|split].
  - intros p q Hp Hq.
    apply list_elem_of_fmap in Hp as (c & -> & Hc).
    apply list_elem_of_fmap in Hq as (c' & -> & Hc').
    apply accepted_in_elem in Hc as (k & Hc & _).
    apply list_elem_of_In, in_flat_map in Hc' as (im' & Him' & Hc').
    apply list_elem_of_In, accepted_in_elem in Hc' as (k' & Hc' & _).
    apply in_seq in Him'. rewrite Hc, Hc'. left.
    unfold cam_of. simpl. lia.
  - apply accepted_in_sorted.
  - apply IH.
Qed.

Lemma stored_pairs_built d a0 ims cs :
  camIndices_ a0 = [] -> keypointIndices_ a0 = [] ->
  stored_pairs (after frameB d a0 ims cs) = map pr cs.
Proof.
  intros H1 H2. unfold stored_pairs, after. simpl. rewrite H1, H2. simpl.
  induction cs as [|c cs IH]; [reflexivity|]. simpl. by rewrite IH.
Qed.

End Order.

Lemma pair_lt_irrefl p : ~ pair_lt p p.
Proof. unfold pair_lt. lia. Qed.

Lemma StronglySorted_NoDup {A} (R : A -> A -> Prop) l :
  (forall x, ~ R x x) -> StronglySorted R l -> NoDup l.
Proof.
  intros Hirr. induction 1 as [|x l Hs IH Hall]; constructor; [|exact IH].
  intros Hin. eapply Forall_forall in Hall; [|exact Hin].
  by apply (Hirr x).
Qed.

(** X1: a rig whose cameras all have one distortion family that the
    switch does not know makes the constructor throw "Unsupported
    distortion type" as soon as it has at least one camera; the offset and
    rotation of camera 0 are the only data stored by then. *)
Theorem unsupported_family_is_fatal points matches nCameraSystem frameB :
  single_family nCameraSystem -> 0 < numCameras nCameraSystem ->
  distortionType nCameraSystem 0 = OtherDistortion ->
  LoopclosureNoncentralAbsoluteAdapter points matches nCameraSystem frameB =
  (push_camera (T_SC_r frameB 0) (T_SC_C frameB 0) empty,
   inl (Exception "Unsupported distortion type")).
Proof. apply construct_unsupported. Qed.

Lemma unsupported_family_is_fatal_witness :
  LoopclosureNoncentralAbsoluteAdapter ex_points ex_matches ex_rig_other
    ex_frame =
  (push_camera (T_SC_r ex_frame 0) (T_SC_C ex_frame 0) empty,
   inl (Exception "Unsupported distortion type")).
Proof.
  refine (unsupported_family_is_fatal ex_points ex_matches ex_rig_other
            ex_frame _ _ _).
  - intros i _. reflexivity.
  - simpl. lia.
  - reflexivity.
Defined.

(** X2: in an adapter the constructor returns, the (camera index,
    keypoint index) pairs of the correspondences are strictly increasing,
    camera first and keypoint second; so no keypoint is stored twice, and
    every stored pair is a keypoint of the frame. *)
Theorem correspondences_in_loop_order points matches nCameraSystem frameB a :
  LoopclosureNoncentralAbsoluteAdapter points matches nCameraSystem frameB =
  (a, inr tt) ->
  StronglySorted pair_lt (stored_pairs a) /\
  NoDup (stored_pairs a) /\
  length (stored_pairs a) = getNumberCorrespondences a /\
  forall im k, (im, k) ∈ stored_pairs a ->
    im < numCameras nCameraSystem /\ k < numKeypoints frameB im.
Proof.
  intros Hrun. apply construct_inv in Hrun as (_ & _ & ->).
  rewrite stored_pairs_built by reflexivity.
  pose proof (accepted_of_sorted points matches frameB 0
                (numCameras nCameraSystem)) as Hs.
  split; [exact Hs|]. split; [|split].
  - eapply StronglySorted_NoDup; [apply pair_lt_irrefl | exact Hs].
  - unfold getNumberCorrespondences, after. simpl.
    by rewrite !length_map.
  - intros im k Hin. apply list_elem_of_fmap in Hin as (c & Hc & Hin).
    apply accepted_elem in Hin as (H1 & H2 & _).
    injection Hc as -> ->. auto.
Qed.

Lemma correspondences_in_loop_order_witness :
  let a := after ex_frame Equidistant empty [0; 1]
             [(0, 0, hp_finite); (1, 1, hp_finite)] in
  StronglySorted pair_lt (stored_pairs a) /\
  NoDup (stored_pairs a) /\
  length (stored_pairs a) = getNumberCorrespondences a /\
  forall im k, (im, k) ∈ stored_pairs a ->
    im < numCameras ex_rig /\ k < numKeypoints ex_frame im.
Proof.
  intros a.
  refine (correspondences_in_loop_order ex_points ex_matches ex_rig ex_frame
            a _).
  unfold a. rewrite <- AdapterClaims.ex_accepted.
  exact (construct_ok ex_points ex_matches ex_rig ex_frame
           AdapterClaims.ex_rig_ok AdapterClaims.ex_ids_present).
Defined.

(** X3: in an adapter the constructor returns, the camera offset and the
    camera rotation of correspondence [i] are the translation and the
    rotation of T_SC of the camera whose index is stored for [i], as the
    frame had them at construction. *)
Theorem camera_extrinsics_of_correspondence points matches nCameraSystem
    frameB a :
  LoopclosureNoncentralAbsoluteAdapter points matches nCameraSystem frameB =
  (a, inr tt) ->
  forall i, i < getNumberCorrespondences a ->
    exists im, camIndices_ a !! i = Some im /\
      getCamOffset a i = Some (T_SC_r frameB im) /\
      getCamRotation a i = Some (T_SC_C frameB im).
Proof.
  intros Hrun i Hi. apply construct_inv in Hrun as (_ & _ & ->).
  pose proof (built_lengths points matches nCameraSystem frameB)
    as (Hp & _).
  unfold getNumberCorrespondences in Hi. rewrite Hp in Hi.
  apply lookup_lt_is_Some_2 in Hi as [c Hc].
  pose proof (built_lookup points matches nCameraSystem frameB i c Hc)
    as (_ & _ & _ & Hcam & _).
  apply list_elem_of_lookup_2, accepted_elem in Hc as (Him & _).
  exists (cam_of c). split; [exact Hcam|].
  unfold getCamOffset, getCamRotation. rewrite Hcam.
  cbn [mbind option_bind]. unfold after. simpl.
  rewrite !list_lookup_fmap, lookup_seq_lt by exact Him. auto.
Qed.

Lemma camera_extrinsics_of_correspondence_witness :
  let a := after ex_frame Equidistant empty [0; 1]
             [(0, 0, hp_finite); (1, 1, hp_finite)] in
  exists im, camIndices_ a !! 1 = Some im /\
    getCamOffset a 1 = Some (T_SC_r ex_frame im) /\
    getCamRotation a 1 = Some (T_SC_C ex_frame im).
Proof.
  intros a.
  refine (camera_extrinsics_of_correspondence ex_points ex_matches ex_rig
            ex_frame a _ 1 _).
  - unfold a. rewrite <- AdapterClaims.ex_accepted.
    exact (construct_ok ex_points ex_matches ex_rig ex_frame
             AdapterClaims.ex_rig_ok AdapterClaims.ex_ids_present).
  - unfold a, getNumberCorrespondences. simpl. lia.
Defined.

(** X4: every 3D point an adapter returns is the dehomogenised landmark
    of its keypoint: the landmark has w <> 0, and w times the stored
    point is (x, y, z). *)
Theorem stored_point_rehomogenised points matches nCameraSystem frameB a :
  LoopclosureNoncentralAbsoluteAdapter points matches nCameraSystem frameB =
  (a, inr tt) ->
  forall i p, getPoint a i = Some p ->
    exists im k lmId hp,
      camIndices_ a !! i = Some im /\ keypointIndices_ a !! i = Some k /\
      matches !! (id frameB, im, k) = Some lmId /\
      points !! lmId = Some hp /\
      h3 hp <> 0%R /\ scale3 (h3 hp) p = head3 hp.
Proof.
  intros Hrun i p Hp. apply construct_inv in Hrun as (_ & _ & ->).
  assert (Hi : i < length (accepted points matches nCameraSystem frameB)).
  { pose proof (built_lengths points matches nCameraSystem frameB)
      as (Hl & _).
    rewrite <- Hl. by eapply lookup_lt_Some. }
  apply lookup_lt_is_Some_2 in Hi as [c Hc].
  pose proof (built_lookup points matches nCameraSystem frameB i c Hc)
    as (Hpt & _ & _ & Hcam & Hkp).
  apply list_elem_of_lookup_2, accepted_elem in Hc as (_ & _ & Hcl).
  apply classify_Accept in Hcl as (lm & Hm & _ & Hpts & Hw).
  unfold getPoint in Hp. rewrite Hpt in Hp. injection Hp as <-.
  assert (Hne : h3 c.2 <> 0%R).
  { intros E. rewrite E, Rabs_R0 in Hw. lra. }
  exists (cam_of c), (kp_of c), lm, c.2.
  split; [exact Hcam|]. split; [exact Hkp|]. split; [exact Hm|].
  split; [exact Hpts|]. split; [exact Hne|].
  unfold point_of, scale3, div3, head3. simpl. f_equal; by field.
Qed.

Lemma stored_point_rehomogenised_witness :
  let a := after ex_frame Equidistant empty [0; 1]
             [(0, 0, hp_finite); (1, 1, hp_finite)] in
  exists im k lmId hp,
    camIndices_ a !! 0 = Some im /\ keypointIndices_ a !! 0 = Some k /\
    ex_matches !! (id ex_frame, im, k) = Some lmId /\
    ex_points !! lmId = Some hp /\
    h3 hp <> 0%R /\
    scale3 (h3 hp) (div3 (head3 hp_finite) (h3 hp_finite)) = head3 hp.
Proof.
  intros a.
  refine (stored_point_rehomogenised ex_points ex_matches ex_rig ex_frame
            a _ 0 (div3 (head3 hp_finite) (h3 hp_finite)) _).
  - unfold a. rewrite <- AdapterClaims.ex_accepted.
    exact (construct_ok ex_points ex_matches ex_rig ex_frame
             AdapterClaims.ex_rig_ok AdapterClaims.ex_ids_present).
  - reflexivity.
Defined.

(** *** What the accepted keypoints depend on *)

Lemma for_each_sim {S A} (Rel : S -> S -> Prop) (l : list A)
    (b1 b2 : A -> M S unit) :
  (forall x s1 s2, x ∈ l -> Rel s1 s2 ->
     Rel (b1 x s1).1 (b2 x s2).1 /\ (b1 x s1).2 = (b2 x s2).2) ->
  forall s1 s2, Rel s1 s2 ->
    Rel (for_each l b1 s1).1 (for_each l b2 s2).1 /\
    (for_each l b1 s1).2 = (for_each l b2 s2).2.
Proof.
  induction l as [|x l IH]; intros Hb s1 s2 Hrel; [by split|].
  rewrite !for_each_cons.
  destruct (Hb x s1 s2 ltac:(left) Hrel) as [Hr He].
  destruct (b1 x s1) as [s1' [e1|[]]], (b2 x s2) as [s2' [e2|[]]];
    simpl in *; try discriminate.
  - by split.
  - apply IH; [|exact Hr]. intros y t1 t2 Hy. apply Hb. by right.
Qed.

Import AdapterSimulation.

Lemma classify_same_layout points matches f1 f2 im k :
  id f1 = id f2 ->
  classify points matches f1 im k = classify points matches f2 im k.
Proof. intros Hid. unfold classify. by rewrite Hid. Qed.

Lemma keypoint_body_sim points matches f1 f2 fu1 fu2 im k a1 a2 :
  id f1 = id f2 -> same_geometry a1 a2 ->
  same_geometry (keypoint_body points matches f1 fu1 im k a1).1
                (keypoint_body points matches f2 fu2 im k a2).1 /\
  (keypoint_body points matches f1 fu1 im k a1).2 =
  (keypoint_body points matches f2 fu2 im k a2).2.
Proof.
  intros Hid (Hp & Hc & Hk). rewrite !keypoint_body_classify.
  rewrite (classify_same_layout points matches f1 f2 im k Hid).
  destruct (classify points matches f2 im k); simpl; split;
    try reflexivity; try (by repeat split).
  unfold same_geometry. simpl. by rewrite Hp, Hc, Hk.
Qed.

Lemma camera_body_sim points matches f1 f2 d im a1 a2 :
  same_layout f1 f2 -> same_geometry a1 a2 ->
  same_geometry (camera_body points matches f1 d im a1).1
                (camera_body points matches f2 d im a2).1 /\
  (camera_body points matches f1 d im a1).2 =
  (camera_body points matches f2 d im a2).2.
Proof.
  intros [Hid Hnum] Hrel.
  assert (Hpush : same_geometry
                    (push_camera (T_SC_r f1 im) (T_SC_C f1 im) a1)
                    (push_camera (T_SC_r f2 im) (T_SC_C f2 im) a2))
    by exact Hrel.
  destruct (decide (d = OtherDistortion)) as [->|Hd].
  - rewrite !camera_body_unsupported. simpl. by split.
  - rewrite !camera_body_supported by exact Hd. rewrite Hnum.
    apply for_each_sim; [|exact Hpush].
    intros k s1 s2 _ Hs. by apply keypoint_body_sim.
Qed.

(** X5: which keypoints are accepted, with which 3D points, and whether
    and how the constructor throws, depend on the frame only through its
    id and its numbers of keypoints: two frames that agree on these give
    the same exception or success and the same arrays of points, camera
    indices and keypoint indices, whatever their pixel locations,
    keypoint sizes, back-projections, focal lengths and extrinsics. *)
Theorem geometry_independent_of_pixel_data points matches nCameraSystem f1 f2 :
  same_layout f1 f2 ->
  (LoopclosureNoncentralAbsoluteAdapter points matches nCameraSystem f1).2 =
  (LoopclosureNoncentralAbsoluteAdapter points matches nCameraSystem f2).2 /\
  same_geometry
    (LoopclosureNoncentralAbsoluteAdapter points matches nCameraSystem f1).1
    (LoopclosureNoncentralAbsoluteAdapter points matches nCameraSystem f2).1.
Proof.
  intros Hlay.
  unfold LoopclosureNoncentralAbsoluteAdapter, construct, mbind, M_bind, bind.
  destruct (find_distortion_type nCameraSystem empty) as [a0 [e|d]];
    [by split|].
  assert (Hrel : same_geometry a0 a0) by (by repeat split).
  destruct (for_each_sim same_geometry (seq 0 (numCameras nCameraSystem))
              (camera_body points matches f1 d)
              (camera_body points matches f2 d)) with (s1 := a0) (s2 := a0)
    as [H1 H2]; [|exact Hrel|by split].
  intros im s1 s2 _ Hs. by apply camera_body_sim.
Qed.

Lemma geometry_independent_of_pixel_data_witness :
  (LoopclosureNoncentralAbsoluteAdapter ex_points ex_matches ex_rig
     ex_frame).2 =
  (LoopclosureNoncentralAbsoluteAdapter ex_points ex_matches ex_rig
     ex_frame_other_pixels).2 /\
  same_geometry
    (LoopclosureNoncentralAbsoluteAdapter ex_points ex_matches ex_rig
       ex_frame).1
    (LoopclosureNoncentralAbsoluteAdapter ex_points ex_matches ex_rig
       ex_frame_other_pixels).1.
Proof.
  apply (geometry_independent_of_pixel_data ex_points ex_matches ex_rig
           ex_frame ex_frame_other_pixels).
  split; [reflexivity | intros im; reflexivity].
Defined.

(** X6: when no keypoint of the frame has an entry in the association
    map, the landmark table is never consulted: for a rig that passes the
    distortion checks the constructor returns an adapter without
    correspondences, holding one offset and one rotation per camera,
    whatever the landmark table contains. *)
Theorem no_association_no_correspondence points matches nCameraSystem frameB :
  rig_ok nCameraSystem ->
  (forall im k, matches !! (id frameB, im, k) = None) ->
  exists a,
    LoopclosureNoncentralAbsoluteAdapter points matches nCameraSystem frameB =
    (a, inr tt) /\
    getNumberCorrespondences a = 0 /\ bearingVectors_ a = [] /\
    length (camOffsets_ a) = numCameras nCameraSystem /\
    length (camRotations_ a) = numCameras nCameraSystem.
Proof.
  intros Hrig Hnone.
  assert (Hids : ids_present points matches nCameraSystem frameB).
  { intros im k _ _ (lm & Hm & _). by rewrite Hnone in Hm. }
  assert (Hacc : accepted points matches nCameraSystem frameB = []).
  { destruct (accepted points matches nCameraSystem frameB) as [|c cs] eqn:E;
      [reflexivity|].
    assert (Hc : c ∈ accepted points matches nCameraSystem frameB)
      by (rewrite E; left).
    apply accepted_elem in Hc as (_ & _ & Hcl).
    apply classify_Accept in Hcl as (lm & Hm & _). by rewrite Hnone in Hm. }
  eexists. split; [by apply construct_ok|].
  rewrite Hacc. unfold getNumberCorrespondences, after. simpl.
  by rewrite !length_map, length_seq.
Qed.

Lemma no_association_no_correspondence_witness :
  exists a,
    LoopclosureNoncentralAbsoluteAdapter ex_points ∅ ex_rig ex_frame =
    (a, inr tt) /\
    getNumberCorrespondences a = 0 /\ bearingVectors_ a = [] /\
    length (camOffsets_ a) = numCameras ex_rig /\
    length (camRotations_ a) = numCameras ex_rig.
Proof.
  apply (no_association_no_correspondence ex_points ∅ ex_rig ex_frame
           AdapterClaims.ex_rig_ok).
  intros im k. apply lookup_empty.
Defined.

(** X16: when the focal lengths are not zero, every angular sigma of an
    adapter the constructor returns is non-negative, and it is 0 exactly
    when the size of its keypoint is 0. *)
Theorem sigma_angle_sign points matches nCameraSystem frameB a :
  (forall im, im < numCameras nCameraSystem ->
     focalLengthU frameB (distortionType nCameraSystem 0) im <> 0%R) ->
  LoopclosureNoncentralAbsoluteAdapter points matches nCameraSystem frameB =
  (a, inr tt) ->
  forall i, i < getNumberCorrespondences a ->
    exists im k sigma,
      camIndices_ a !! i = Some im /\ keypointIndices_ a !! i = Some k /\
      getSigmaAngle a i = Some sigma /\ (0 <= sigma)%R /\
      (sigma = 0%R <-> getKeypointSize frameB im k = 0%R).
Proof.
  intros Hfu Hrun i Hi. apply construct_inv in Hrun as (_ & _ & ->).
  pose proof (built_lengths points matches nCameraSystem frameB)
    as (Hp & _).
  unfold getNumberCorrespondences in Hi. rewrite Hp in Hi.
  apply lookup_lt_is_Some_2 in Hi as [c Hc].
  pose proof (built_lookup points matches nCameraSystem frameB i c Hc)
    as (_ & _ & Hsg & Hcam & Hkp).
  apply list_elem_of_lookup_2, accepted_elem in Hc as (Him & _).
  exists (cam_of c), (kp_of c), (sigma_at frameB (distortionType nCameraSystem 0) c).
  split; [exact Hcam|]. split; [exact Hkp|]. split; [exact Hsg|].
  unfold sigma_at, sigma_of.
  set (fu := focalLengthU frameB (distortionType nCameraSystem 0) (cam_of c)).
  set (size := getKeypointSize frameB (cam_of c) (kp_of c)).
  assert (Hf : fu <> 0%R) by (by apply Hfu).
  assert (Hff : (0 < fu * fu)%R) by nra.
  assert (Ht : (0 < / (fu * fu))%R) by (by apply Rinv_0_lt_compat).
  assert (Hr : (0 < sqrt 2)%R) by (apply sqrt_lt_R0; lra).
  replace 12.0%R with 12%R by lra.
  set (t := (/ (fu * fu))%R) in *. set (r2 := sqrt 2) in *.
  replace (r2 * (0.8 * size / 12) * (0.8 * size / 12) / (fu * fu))%R
    with ((r2 * t) * ((0.8 * size / 12) * (0.8 * size / 12)))%R
    by (unfold Rdiv; fold t; ring).
  assert (Hrt : (0 < r2 * t)%R) by (by apply Rmult_lt_0_compat).
  set (u := (0.8 * size / 12)%R).
  assert (Hu : u = (size / 15)%R) by (unfold u; lra).
  split; [nra|]. split.
  - intros E. assert (Huu : (u * u = 0)%R) by nra.
    assert (u = 0%R) by nra. lra.
  - intros E. assert (u = 0%R) by lra. subst u. nra.
Qed.

Lemma sigma_angle_sign_witness :
  let a := after ex_frame Equidistant empty [0; 1]
             [(0, 0, hp_finite); (1, 1, hp_finite)] in
  exists im k sigma,
    camIndices_ a !! 0 = Some im /\ keypointIndices_ a !! 0 = Some k /\
    getSigmaAngle a 0 = Some sigma /\ (0 <= sigma)%R /\
    (sigma = 0%R <-> getKeypointSize ex_frame im k = 0%R).
Proof.
  intros a.
  refine (sigma_angle_sign ex_points ex_matches ex_rig ex_frame a _ _ 0 _).
  - intros im _. simpl. lra.
  - unfold a. rewrite <- AdapterClaims.ex_accepted.
    exact (construct_ok ex_points ex_matches ex_rig ex_frame
             AdapterClaims.ex_rig_ok AdapterClaims.ex_ids_present).
  - unfold a, getNumberCorrespondences. simpl. lia.
Defined.

End AdapterExtras.

(** ** RelativePoseError: further properties *)

Module RelativePoseErrorExtras.
Import Eigen Dense SumFacts LLTFacts WhiteningFacts TriangularFacts.
Import QuaternionFacts RelativePoseError RelativePoseErrorFacts PoseExamples.
Import PoseVariants.
Local Open Scope R_scope.

(** X7: with a symmetric positive definite information matrix, the sum of
    the squares of the six residuals is the error vector's quadratic form
    with the information matrix, e^T M e: the whitening of lines 69-75
    and 107 weighs the error as the information matrix says. *)
Theorem residual_norm_is_information_form M T_AB s parameters :
  SPD 6 M -> RelativePoseError M T_AB = (s, inr tt) ->
  sum 6 (fun i => (Evaluate s parameters).2 i * (Evaluate s parameters).2 i)
  = quad 6 M (error s parameters).
Proof.
  intros HM Hrun. rewrite RelativePoseError_run in Hrun.
  injection Hrun as <-.
  pose proof (compute_spd 6 M HM) as (_ & _ & Hprod).
  symmetry. exact (quad_gram 6 M _ _ Hprod).
Qed.

Lemma residual_norm_is_information_form_witness :
  let s := (RelativePoseError Identity Transformation.identity).1 in
  sum 6 (fun i => (Evaluate s ex_parameters).2 i *
                  (Evaluate s ex_parameters).2 i)
  = quad 6 Identity (error s ex_parameters).
Proof.
  intros s.
  exact (residual_norm_is_information_form Identity Transformation.identity
           s ex_parameters (Identity_SPD 6) eq_refl).
Defined.

(** *** The decomposition reads the lower triangle only *)

Lemma llt_step_lower n m1 m2 k :
  (k < n)%nat -> same_lower n m1 m2 ->
  match llt_step n m1 k, llt_step n m2 k with
  | Some a, Some b => same_lower n a b
  | None, None => True
  | _, _ => False
  end.
Proof.
  intros Hk Hlow.
  assert (Hrow : forall i, (k <= i < n)%nat ->
            sum k (fun p => m1 i p * m1 k p) =
            sum k (fun p => m2 i p * m2 k p)).
  { intros i Hi. apply sum_ext. intros p Hp.
    rewrite (Hlow i p), (Hlow k p) by lia. reflexivity. }
  unfold llt_step. rewrite (Hlow k k), (Hrow k) by lia.
  destruct (decide _) as [|Hx]; [exact I|].
  intros i j Hij.
  destruct (decide (i = k /\ j = k)); [reflexivity|].
  destruct (decide (j = k /\ (k < i < n)%nat)) as [[-> Hi]|_].
  - rewrite (Hlow i k), (Hrow i) by lia. reflexivity.
  - by apply Hlow.
Qed.

Lemma llt_loop_lower n :
  forall m k m1 m2, (k + m = n)%nat -> same_lower n m1 m2 ->
    (llt_loop n (seq k m) m1).2 = (llt_loop n (seq k m) m2).2 /\
    same_lower n (llt_loop n (seq k m) m1).1 (llt_loop n (seq k m) m2).1.
Proof.
  induction m as [|m IH]; intros k m1 m2 Hkm Hlow; [by split|].
  simpl. pose proof (llt_step_lower n m1 m2 k ltac:(lia) Hlow) as Hstep.
  destruct (llt_step n m1 k) as [a|], (llt_step n m2 k) as [b|];
    try contradiction.
  - apply IH; [lia | exact Hstep].
  - by split.
Qed.

Lemma compute_lower n M1 M2 :
  same_lower n M1 M2 ->
  m_info (compute n M1) = m_info (compute n M2) /\
  mat_eq n (matrixL (compute n M1)) (matrixL (compute n M2)).
Proof.
  intros Hlow.
  destruct (llt_loop_lower n n 0 M1 M2 ltac:(lia) Hlow) as [Hret Hmat].
  unfold compute, unblocked.
  destruct (llt_loop n (seq 0 n) M1) as [a r1],
           (llt_loop n (seq 0 n) M2) as [b r2]. simpl in *. subst r2.
  split; [reflexivity|].
  intros i j Hi Hj. unfold matrixL. simpl.
  destruct (decide (j <= i)%nat); [apply Hmat; lia | reflexivity].
Qed.

(** X8: the square-root information depends on the lower triangle of the
    information matrix only.  Two information matrices that agree on and
    below the diagonal give the same decomposition status and the same
    residuals for every pair of poses, whatever stands above the diagonal
    (the matrix is never checked for symmetry). *)
Theorem upper_triangle_is_ignored M1 M2 T_AB :
  same_lower 6 M1 M2 ->
  m_info (compute 6 M1) = m_info (compute 6 M2) /\
  mat_eq 6 (squareRootInformation_ (RelativePoseError M1 T_AB).1)
           (squareRootInformation_ (RelativePoseError M2 T_AB).1) /\
  forall parameters i, (i < 6)%nat ->
    (Evaluate (RelativePoseError M1 T_AB).1 parameters).2 i =
    (Evaluate (RelativePoseError M2 T_AB).1 parameters).2 i.
Proof.
  intros Hlow. destruct (compute_lower 6 M1 M2 Hlow) as [Hinfo HL].
  rewrite !RelativePoseError_run. simpl.
  split; [exact Hinfo|]. split.
  - intros i j Hi Hj. unfold transpose. by apply HL.
  - intros parameters i Hi. unfold mvmul. apply sum_ext. intros k Hk.
    unfold transpose. rewrite (HL k i Hk Hi). reflexivity.
Qed.

Lemma ex_upper_changed_lower : same_lower 6 Identity ex_upper_changed.
Proof.
  intros i j Hij. unfold ex_upper_changed.
  destruct (decide _) as [[-> ->]|_]; [lia | reflexivity].
Qed.

Lemma upper_triangle_is_ignored_witness :
  m_info (compute 6 Identity) = m_info (compute 6 ex_upper_changed) /\
  mat_eq 6
    (squareRootInformation_
       (RelativePoseError Identity Transformation.identity).1)
    (squareRootInformation_
       (RelativePoseError ex_upper_changed Transformation.identity).1) /\
  forall parameters i, (i < 6)%nat ->
    (Evaluate (RelativePoseError Identity Transformation.identity).1
       parameters).2 i =
    (Evaluate (RelativePoseError ex_upper_changed Transformation.identity).1
       parameters).2 i.
Proof.
  exact (upper_triangle_is_ignored Identity ex_upper_changed
           Transformation.identity ex_upper_changed_lower).
Defined.

(** *** The variance constructor *)

Lemma variance_information_diagonal tv rv i j :
  variance_information tv rv i j =
  if decide (i = j) then variance_diagonal tv rv i else 0.
Proof.
  unfold variance_information, variance_diagonal, Identity.
  repeat destruct (decide _); try lia; try reflexivity;
    unfold Rdiv; ring.
Qed.

(** The decomposition of a diagonal matrix with a positive diagonal: the
    square roots of the diagonal. *)
Lemma llt_loop_diagonal n d :
  (forall i, (i < n)%nat -> 0 < d i) ->
  forall m k mat, (k + m = n)%nat ->
    (forall i j, mat i j =
       if decide (i = j)
       then (if decide (i < k)%nat then sqrt (d i) else d i) else 0) ->
    exists mat', llt_loop n (seq k m) mat = (mat', None) /\
      forall i j, mat' i j =
        if decide (i = j)
        then (if decide (i < n)%nat then sqrt (d i) else d i) else 0.
Proof.
  intros Hd. induction m as [|m IH]; intros k mat Hkm Hmat.
  - assert (k = n) as -> by lia. simpl. eauto.
  - simpl.
    assert (Hsum : forall i, sum k (fun p => mat i p * mat k p) = 0).
    { intros i. apply sum_zero. intros p Hp. rewrite (Hmat k p).
      destruct (decide (k = p)); [lia | ring]. }
    assert (Hkk : mat k k = d k).
    { rewrite Hmat. destruct (decide (k = k)); [|done].
      destruct (decide (k < k)%nat); [lia | reflexivity]. }
    destruct (llt_step n mat k) as [mat'|] eqn:Hstep.
    2:{ apply llt_step_None in Hstep. rewrite Hsum, Hkk in Hstep.
        specialize (Hd k ltac:(lia)). lra. }
    apply llt_step_inv in Hstep as (_ & H1 & H2 & H3); [|lia].
    rewrite Hsum, Hkk, Rminus_0_r in H1, H2.
    apply (IH (S k) mat'); [lia|].
    intros i j. destruct (decide (j = k /\ (k <= i < n)%nat)) as [[-> Hi]|Hn].
    + destruct (decide (i = k)) as [->|Hik].
      * rewrite H1. destruct (decide (k = k)); [|done].
        destruct (decide (k < S k)%nat); [reflexivity | lia].
      * rewrite H2 by lia. rewrite Hsum, (Hmat i k).
        destruct (decide (i = k)); [lia|]. unfold Rdiv. ring.
    + rewrite H3 by exact Hn. rewrite Hmat.
      destruct (decide (i = j)) as [->|_]; [|reflexivity].
      destruct (decide (j < k)%nat), (decide (j < S k)%nat);
        try reflexivity; lia.
Qed.

Lemma variance_diagonal_pos tv rv i :
  0 < tv -> 0 < rv -> (i < 6)%nat -> 0 < variance_diagonal tv rv i.
Proof.
  intros Ht Hr Hi. unfold variance_diagonal.
  replace 1.0 with 1 by lra.
  destruct (decide (i < 3)%nat); [|destruct (decide (i < 6)%nat); [|lia]];
    unfold Rdiv; rewrite !Rmult_1_l; by apply Rinv_0_lt_compat.
Qed.

Lemma sqrt_variance_diagonal tv rv i :
  (i < 6)%nat ->
  sqrt (variance_diagonal tv rv i) =
  / sqrt (if decide (i < 3)%nat then tv else rv).
Proof.
  intros Hi. unfold variance_diagonal. replace 1.0 with 1 by lra.
  destruct (decide (i < 3)%nat); [|destruct (decide (i < 6)%nat); [|lia]];
    unfold Rdiv; rewrite !Rmult_1_l; apply sqrt_inv.
Qed.

(** X9: the constructor from two positive variances builds a symmetric
    positive definite information matrix whose decomposition succeeds,
    and the evaluation divides the three translation errors by the
    standard deviation sqrt(translationVariance) and the three rotation
    errors by sqrt(rotationVariance). *)
Theorem variance_constructor_whitening translationVariance rotationVariance
    T_AB :
  0 < translationVariance -> 0 < rotationVariance ->
  exists s,
    RelativePoseError_variance translationVariance rotationVariance T_AB =
    (s, inr tt) /\
    T_AB_ s = T_AB /\
    SPD 6 (information_ s) /\
    m_info (compute 6 (information_ s)) = Success /\
    forall parameters i, (i < 6)%nat ->
      (Evaluate s parameters).2 i =
      error s parameters i /
      sqrt (if decide (i < 3)%nat then translationVariance
            else rotationVariance).
Proof.
  intros Ht Hr. eexists. split; [reflexivity|]. simpl.
  set (M := variance_information translationVariance rotationVariance).
  set (d := variance_diagonal translationVariance rotationVariance).
  destruct (llt_loop_diagonal 6 d
              (fun i Hi => variance_diagonal_pos _ _ i Ht Hr Hi) 6 0 M
              ltac:(lia)) as (mat' & Hrun & Hmat').
  { intros i j. unfold M. rewrite variance_information_diagonal.
    destruct (decide (i = j)); [|reflexivity].
    destruct (decide (i < 0)%nat); [lia | reflexivity]. }
  assert (Hc : compute 6 M = {| m_matrix := mat'; m_info := Success |}).
  { unfold compute, unblocked. by rewrite Hrun. }
  assert (Hsym : symmetric 6 M).
  { intros i j _ _. unfold M. rewrite !variance_information_diagonal.
    repeat case_decide; subst; try lia; reflexivity. }
  assert (Hinfo : m_info (compute 6 M) = Success) by (by rewrite Hc).
  split; [reflexivity|]. split; [|split; [exact Hinfo|]].
  - split; [exact Hsym|]. by apply compute_info.
  - intros parameters i Hi. unfold mvmul. rewrite Hc.
    set (e := error _ parameters).
    rewrite (sum_ext 6 _ (fun k => if decide (k = i)
                                   then sqrt (d i) * e k else 0)).
    + rewrite sum_delta by exact Hi. unfold d.
      rewrite sqrt_variance_diagonal by exact Hi. unfold Rdiv. ring.
    + intros k Hk. unfold transpose, matrixL. simpl. rewrite Hmat'.
      repeat case_decide; subst; try lia; try ring.
Qed.

Lemma variance_constructor_whitening_witness :
  exists s,
    RelativePoseError_variance 4 9 Transformation.identity = (s, inr tt) /\
    T_AB_ s = Transformation.identity /\
    SPD 6 (information_ s) /\
    m_info (compute 6 (information_ s)) = Success /\
    forall parameters i, (i < 6)%nat ->
      (Evaluate s parameters).2 i =
      error s parameters i / sqrt (if decide (i < 3)%nat then 4 else 9).
Proof.
  apply (variance_constructor_whitening 4 9 Transformation.identity); lra.
Defined.

(** X10: a negative translation variance is not rejected.  The
    constructor returns normally although the decomposition reports
    NumericalIssue at the first column; the information matrix itself is
    then stored as square-root information, so the evaluation divides the
    errors by the variances (not by the standard deviations), the
    translation residuals with the opposite sign. *)
Theorem negative_variance_is_accepted translationVariance rotationVariance
    T_AB :
  translationVariance < 0 ->
  exists s,
    RelativePoseError_variance translationVariance rotationVariance T_AB =
    (s, inr tt) /\
    m_info (compute 6 (information_ s)) = NumericalIssue /\
    (forall i j, squareRootInformation_ s i j = information_ s i j) /\
    forall parameters i, (i < 6)%nat ->
      (Evaluate s parameters).2 i =
      error s parameters i /
      (if decide (i < 3)%nat then translationVariance else rotationVariance).
Proof.
  intros Ht. eexists. split; [reflexivity|]. simpl.
  set (M := variance_information translationVariance rotationVariance).
  assert (Hc : compute 6 M = {| m_matrix := M; m_info := NumericalIssue |}).
  { unfold compute, unblocked. simpl. unfold llt_step. simpl.
    destruct (decide _) as [_|Hx]; [reflexivity|].
    exfalso. apply Hx. unfold M. rewrite variance_information_diagonal.
    simpl. unfold variance_diagonal. simpl.
    assert (Hinv : / translationVariance < 0)
      by (by apply Rinv_lt_0_compat).
    unfold Rdiv. lra. }
  assert (HR : forall i j, transpose (matrixL (compute 6 M)) i j = M i j).
  { intros i j. rewrite Hc. unfold transpose, matrixL. simpl.
    unfold M. rewrite !variance_information_diagonal.
    repeat case_decide; subst; try lia; reflexivity. }
  split; [by rewrite Hc|]. split; [exact HR|].
  intros parameters i Hi. unfold mvmul.
  set (e := error _ parameters).
  rewrite (sum_ext 6 _ (fun k => if decide (k = i)
                                 then M i i * e k else 0)).
  - rewrite sum_delta by exact Hi. unfold M.
    rewrite variance_information_diagonal.
    destruct (decide (i = i)); [|done]. unfold variance_diagonal.
    replace 1.0 with 1 by lra.
    destruct (decide (i < 3)%nat); [|destruct (decide (i < 6)%nat); [|lia]];
      unfold Rdiv; ring.
  - intros k Hk. rewrite HR. unfold M.
    rewrite !variance_information_diagonal.
    repeat case_decide; subst; try lia; ring.
Qed.

Lemma negative_variance_is_accepted_witness :
  exists s,
    RelativePoseError_variance (-4) 9 Transformation.identity = (s, inr tt) /\
    m_info (compute 6 (information_ s)) = NumericalIssue /\
    (forall i j, squareRootInformation_ s i j = information_ s i j) /\
    forall parameters i, (i < 6)%nat ->
      (Evaluate s parameters).2 i =
      error s parameters i / (if decide (i < 3)%nat then -4 else 9).
Proof.
  apply (negative_variance_is_accepted (-4) 9 Transformation.identity); lra.
Defined.

(** *** The norm and the sign of the parameter quaternions *)

Lemma squaredNorm_zero q :
  ~ 0 < Quaternion.squaredNorm q -> q = Quaternion.mk 0 0 0 0.
Proof.
  intros Hq. destruct q as [qw qx qy qz].
  unfold Quaternion.squaredNorm in Hq. simpl in Hq.
  assert (qw = 0 /\ qx = 0 /\ qy = 0 /\ qz = 0) as (-> & -> & -> & ->)
    by (repeat split; nra).
  reflexivity.
Qed.

Lemma normalized_scale c q :
  0 < c ->
  Quaternion.normalized
    (Quaternion.mk (c * Quaternion.w q) (c * Quaternion.x q)
                   (c * Quaternion.y q) (c * Quaternion.z q)) =
  Quaternion.normalized q.
Proof.
  intros Hc. destruct (decide (0 < Quaternion.squaredNorm q)) as [Hq|Hq].
  - assert (Hn : Quaternion.squaredNorm
                   (Quaternion.mk (c * Quaternion.w q) (c * Quaternion.x q)
                      (c * Quaternion.y q) (c * Quaternion.z q)) =
                 (c * c) * Quaternion.squaredNorm q)
      by (unfold Quaternion.squaredNorm; simpl; ring).
    unfold Quaternion.normalized. rewrite Hn.
    destruct (decide (0 < c * c * _)) as [_|Hn'].
    2:{ exfalso. apply Hn'. apply Rmult_lt_0_compat; [nra | exact Hq]. }
    destruct (decide (0 < Quaternion.squaredNorm q)); [|contradiction].
    rewrite sqrt_mult, sqrt_square by nra.
    assert (Hs : 0 < sqrt (Quaternion.squaredNorm q)) by (by apply sqrt_lt_R0).
    simpl. f_equal; field; lra.
  - apply squaredNorm_zero in Hq. subst q. simpl.
    rewrite !Rmult_0_r. reflexivity.
Qed.

Lemma pose_of_scale c p :
  0 < c -> pose_of (scale_quaternion c p) = pose_of p.
Proof.
  intros Hc. unfold pose_of, scale_quaternion.
  repeat case_decide; try lia.
  pose proof (normalized_scale c (Quaternion.mk (p 6%nat) (p 3%nat)
                                    (p 4%nat) (p 5%nat)) Hc) as Hnorm.
  cbn [Quaternion.w Quaternion.x Quaternion.y Quaternion.z] in Hnorm.
  by rewrite Hnorm.
Qed.

(** X11: the evaluation renormalises the quaternions it is given
    (lines 92-97): multiplying the quaternion of either parameter block by
    a positive factor changes neither the returned flag nor any
    residual. *)
Theorem residual_ignores_quaternion_norm s parameters cA cB :
  0 < cA -> 0 < cB ->
  Evaluate s (rescale cA cB parameters) = Evaluate s parameters.
Proof.
  intros HA HB.
  unfold Evaluate, EvaluateWithMinimalJacobians, error, estimated_T_AB.
  unfold rescale. by rewrite !pose_of_scale.
Qed.

Lemma residual_ignores_quaternion_norm_witness :
  Evaluate (RelativePoseError Identity Transformation.identity).1
    (rescale 2 3 ex_parameters) =
  Evaluate (RelativePoseError Identity Transformation.identity).1
    ex_parameters.
Proof.
  apply (residual_ignores_quaternion_norm
           (RelativePoseError Identity Transformation.identity).1
           ex_parameters 2 3); lra.
Defined.

Lemma normalized_qneg q :
  Quaternion.normalized (qneg q) = qneg (Quaternion.normalized q).
Proof.
  assert (Hn : Quaternion.squaredNorm (qneg q) = Quaternion.squaredNorm q)
    by (unfold Quaternion.squaredNorm, qneg; simpl; ring).
  unfold Quaternion.normalized. rewrite Hn.
  destruct (decide _) as [Hq|_]; [|reflexivity].
  assert (Hs : 0 < sqrt (Quaternion.squaredNorm q)) by (by apply sqrt_lt_R0).
  unfold qneg. simpl. f_equal; field; lra.
Qed.

Lemma inverse_qneg q :
  Quaternion.inverse (qneg q) = qneg (Quaternion.inverse q).
Proof.
  assert (Hn : Quaternion.squaredNorm (qneg q) = Quaternion.squaredNorm q)
    by (unfold Quaternion.squaredNorm, qneg; simpl; ring).
  unfold Quaternion.inverse. rewrite Hn.
  destruct (decide _) as [Hq|_].
  - unfold qneg. simpl. f_equal; field; lra.
  - unfold qneg. simpl. f_equal; ring.
Qed.

Lemma mul_qneg_l a b : Quaternion.mul (qneg a) b = qneg (Quaternion.mul a b).
Proof. unfold Quaternion.mul, qneg. simpl. f_equal; ring. Qed.

Lemma mul_qneg_r a b : Quaternion.mul a (qneg b) = qneg (Quaternion.mul a b).
Proof. unfold Quaternion.mul, qneg. simpl. f_equal; ring. Qed.

Lemma toRotationMatrix_qneg q :
  Quaternion.toRotationMatrix (qneg q) = Quaternion.toRotationMatrix q.
Proof.
  unfold Quaternion.toRotationMatrix, qneg. simpl.
  repeat (f_equal; try ring).
Qed.

Lemma make_qneg r q :
  Transformation.make r (qneg q) = tneg (Transformation.make r q).
Proof. unfold Transformation.make, tneg. simpl. by rewrite normalized_qneg. Qed.

Lemma C_tneg T : Transformation.C (tneg T) = Transformation.C T.
Proof. unfold Transformation.C, tneg. simpl. apply toRotationMatrix_qneg. Qed.

Lemma inverse_tneg T :
  Transformation.inverse (tneg T) = tneg (Transformation.inverse T).
Proof.
  unfold Transformation.inverse. rewrite C_tneg. simpl.
  by rewrite inverse_qneg, make_qneg.
Qed.

Lemma mul_tneg_l T1 T2 :
  Transformation.mul (tneg T1) T2 = tneg (Transformation.mul T1 T2).
Proof.
  unfold Transformation.mul. rewrite C_tneg. simpl.
  by rewrite mul_qneg_l, make_qneg.
Qed.

Lemma mul_tneg_r T1 T2 :
  Transformation.mul T1 (tneg T2) = tneg (Transformation.mul T1 T2).
Proof.
  unfold Transformation.mul. simpl. by rewrite mul_qneg_r, make_qneg.
Qed.

Lemma pose_of_flip p : pose_of (scale_quaternion (-1) p) = tneg (pose_of p).
Proof.
  unfold pose_of, scale_quaternion. repeat case_decide; try lia.
  replace (Quaternion.mk (-1 * p 6%nat) (-1 * p 3%nat) (-1 * p 4%nat)
             (-1 * p 5%nat))
    with (qneg (Quaternion.mk (p 6%nat) (p 3%nat) (p 4%nat) (p 5%nat)))
    by (unfold qneg; simpl; f_equal; ring).
  by rewrite normalized_qneg, make_qneg.
Qed.

Lemma estimated_flip parameters b0 :
  (b0 < 2)%nat ->
  estimated_T_AB (flip b0 parameters) = tneg (estimated_T_AB parameters).
Proof.
  intros Hb. unfold estimated_T_AB, flip.
  destruct b0 as [|[|b0]]; [| |lia]; repeat case_decide; try lia.
  - by rewrite pose_of_flip, inverse_tneg, mul_tneg_l.
  - by rewrite pose_of_flip, mul_tneg_r.
Qed.

(** X12: the error is not a function of the relative transform alone.
    Replacing the quaternion of one parameter block by its negative
    leaves the estimated translation and rotation matrix as they are, and
    leaves the three translation errors, but it negates the three rotation
    errors of lines 102-103. *)
Theorem quaternion_sign_flips_rotation_error s parameters b0 i :
  (b0 < 2)%nat -> (i < 6)%nat ->
  same_transform (estimated_T_AB (flip b0 parameters))
                 (estimated_T_AB parameters) /\
  error s (flip b0 parameters) i =
  if decide (i < 3)%nat then error s parameters i
  else - error s parameters i.
Proof.
  intros Hb Hi. split.
  - rewrite (estimated_flip parameters b0 Hb). split; [reflexivity|].
    apply C_tneg.
  - unfold error. rewrite (estimated_flip parameters b0 Hb).
    set (T := estimated_T_AB parameters).
    unfold tneg at 1. cbn [Transformation.r].
    unfold tneg. cbn [Transformation.q].
    rewrite inverse_qneg, mul_qneg_r.
    set (d := Quaternion.mul _ _).
    do 6 (destruct i as [|i]; [simpl; try reflexivity; ring|]). lia.
Qed.

Lemma quaternion_sign_flips_rotation_error_witness :
  let s := (RelativePoseError Identity Transformation.identity).1 in
  same_transform (estimated_T_AB (flip 1%nat ex_parameters))
                 (estimated_T_AB ex_parameters) /\
  error s (flip 1%nat ex_parameters) 4%nat =
  if decide (4 < 3)%nat then error s ex_parameters 4%nat
  else - error s ex_parameters 4%nat.
Proof.
  intros s.
  apply (quaternion_sign_flips_rotation_error s ex_parameters 1%nat 4%nat);
    lia.
Defined.

Lemma normalized_zero :
  Quaternion.normalized (Quaternion.mk 0 0 0 0) = Quaternion.mk 0 0 0 0.
Proof.
  unfold Quaternion.normalized.
  destruct (decide _) as [Hq|_]; [|reflexivity].
  unfold Quaternion.squaredNorm in Hq. simpl in Hq. lra.
Qed.

Lemma inverse_zero :
  Quaternion.inverse (Quaternion.mk 0 0 0 0) = Quaternion.mk 0 0 0 0.
Proof.
  unfold Quaternion.inverse.
  destruct (decide _) as [Hq|_]; [|reflexivity].
  unfold Quaternion.squaredNorm in Hq. simpl in Hq. lra.
Qed.

Lemma mul_zero_l q :
  Quaternion.mul (Quaternion.mk 0 0 0 0) q = Quaternion.mk 0 0 0 0.
Proof. unfold Quaternion.mul. simpl. f_equal; ring. Qed.

Lemma mul_zero_r q :
  Quaternion.mul q (Quaternion.mk 0 0 0 0) = Quaternion.mk 0 0 0 0.
Proof. unfold Quaternion.mul. simpl. f_equal; ring. Qed.

(** X13: a parameter block A whose quaternion is zero is not rejected:
    the renormalisation leaves it zero, the estimated relative quaternion
    is zero, and the three rotation errors are 0 for every measurement and
    every pose B.  (This is why the zero residual says something about the
    rotation only for quaternions that are not zero.) *)
Theorem zero_quaternion_hides_rotation_error s parameters i :
  (forall j, (3 <= j < 7)%nat -> parameters 0%nat j = 0) ->
  (3 <= i < 6)%nat ->
  Transformation.q (estimated_T_AB parameters) = Quaternion.mk 0 0 0 0 /\
  error s parameters i = 0.
Proof.
  intros Hz Hi.
  assert (Hq : Transformation.q (estimated_T_AB parameters) =
               Quaternion.mk 0 0 0 0).
  { unfold estimated_T_AB, Transformation.mul, Transformation.inverse,
      pose_of, Transformation.make. simpl.
    rewrite !Hz by lia.
    by rewrite !normalized_zero, inverse_zero, normalized_zero, mul_zero_l,
      normalized_zero. }
  split; [exact Hq|].
  unfold error. rewrite Hq, inverse_zero, mul_zero_r. simpl.
  destruct i as [|[|[|[|[|[|i]]]]]]; try lia; simpl; ring.
Qed.

Lemma zero_quaternion_hides_rotation_error_witness :
  let s := (RelativePoseError Identity Transformation.identity).1 in
  Transformation.q (estimated_T_AB ex_parameters_zero_A) =
  Quaternion.mk 0 0 0 0 /\
  error s ex_parameters_zero_A 3%nat = 0.
Proof.
  intros s.
  apply (zero_quaternion_hides_rotation_error s ex_parameters_zero_A 3%nat);
    [|lia].
  intros j Hj. reflexivity.
Defined.

(** X17: when the measured transform has the translation and the rotation
    of the estimated one, the six residuals are 0 for every stored
    square-root information, also for one left by a failed decomposition
    (for unit measured quaternion and parameter quaternions that are not
    zero). *)
Theorem matching_estimate_zero_residual s parameters :
  Quaternion.squaredNorm (Transformation.q (T_AB_ s)) = 1 ->
  proper_pose (parameters 0%nat) -> proper_pose (parameters 1%nat) ->
  same_transform (T_AB_ s) (estimated_T_AB parameters) ->
  vec_eq 6 (Evaluate s parameters).2 (fun _ => 0).
Proof.
  intros Hq HA HB Hsame. unfold Evaluate, EvaluateWithMinimalJacobians.
  simpl. apply mvmul_zero. by apply error_zero_iff.
Qed.

Lemma ex_estimated_identity :
  estimated_T_AB ex_parameters = Transformation.identity.
Proof.
  assert (Hn : Quaternion.normalized (Quaternion.mk 1 0 0 0) =
               Quaternion.mk 1 0 0 0).
  { apply normalized_unit. unfold Quaternion.squaredNorm. simpl. lra. }
  assert (Hp : forall b, pose_of (ex_parameters b) = Transformation.identity).
  { intros b. unfold pose_of, Transformation.make, ex_parameters.
    by rewrite !Hn. }
  assert (Hi : Quaternion.inverse (Quaternion.mk 1 0 0 0) =
               Quaternion.mk 1 0 0 0).
  { rewrite inverse_unit by (unfold Quaternion.squaredNorm; simpl; lra).
    unfold Quaternion.conjugate. simpl. f_equal; ring. }
  unfold estimated_T_AB. rewrite !Hp.
  unfold Transformation.mul, Transformation.inverse, Transformation.make,
    Transformation.identity, Transformation.C. simpl.
  rewrite Hi, Hn. simpl.
  replace (Quaternion.mul (Quaternion.mk 1 0 0 0) (Quaternion.mk 1 0 0 0))
    with (Quaternion.mk 1 0 0 0)
    by (unfold Quaternion.mul; simpl; f_equal; ring).
  rewrite Hn. f_equal.
  unfold Transformation.add3, Transformation.neg3, Transformation.dot3,
    Transformation.mat3_mul_vec, Transformation.transpose3,
    Quaternion.toRotationMatrix. simpl. f_equal; ring.
Qed.

Lemma matching_estimate_zero_residual_witness :
  vec_eq 6
    (Evaluate (RelativePoseError ex_not_pd Transformation.identity).1
       ex_parameters).2 (fun _ => 0).
Proof.
  apply (matching_estimate_zero_residual
           (RelativePoseError ex_not_pd Transformation.identity).1
           ex_parameters).
  - unfold Quaternion.squaredNorm. simpl. lra.
  - unfold proper_pose, Quaternion.squaredNorm. simpl. lra.
  - unfold proper_pose, Quaternion.squaredNorm. simpl. lra.
  - simpl T_AB_. rewrite ex_estimated_identity. by split.
Defined.

End RelativePoseErrorExtras.

(** ** RelativePoseError: the minimal Jacobians *)

Module RelativePoseErrorJacobianFacts.
Import Eigen Dense SumFacts RelativePoseError RelativePoseErrorJacobians.
Local Open Scope R_scope.

(** X15: the two minimal Jacobians cancel but for one block.  For every
    entry, J0_minimal + J1_minimal is the square-root information times
    the matrix that has -C_AW * crossMx(r_B - r_A) in rows 0-2, columns
    3-5 and zeros elsewhere; so each of the first three columns of
    J1_minimal (the translation of pose B) is the negative of the same
    column of J0_minimal (the translation of pose A). *)
Theorem minimal_jacobians_cancel crossMx plus oplus s parameters i j :
  (j < 6)%nat ->
  J0_minimal crossMx plus oplus s parameters i j
  + J1_minimal plus oplus s parameters i j
  = mmul 6 (squareRootInformation_ s) (coupling crossMx parameters) i j /\
  ((j < 3)%nat ->
   J1_minimal plus oplus s parameters i j =
   - J0_minimal crossMx plus oplus s parameters i j).
Proof.
  intros Hj.
  assert (Hk : forall k, (k < 6)%nat ->
            J0_unweighted crossMx plus oplus s parameters k j
            + J1_unweighted plus oplus s parameters k j
            = coupling crossMx parameters k j).
  { intros k Hk. unfold J0_unweighted, J1_unweighted, coupling, mopp, Identity.
    repeat case_decide; try lia; ring. }
  assert (Hsum : J0_minimal crossMx plus oplus s parameters i j
                 + J1_minimal plus oplus s parameters i j
                 = mmul 6 (squareRootInformation_ s)
                     (coupling crossMx parameters) i j).
  { unfold J0_minimal, J1_minimal, mmul. rewrite <- sum_plus.
    apply sum_ext. intros k Hk'. rewrite <- (Hk k Hk'). ring. }
  split; [exact Hsum|].
  intros Hj3.
  assert (Hz : mmul 6 (squareRootInformation_ s)
                 (coupling crossMx parameters) i j = 0).
  { unfold mmul. apply sum_zero. intros k _. unfold coupling.
    case_decide; [lia | ring]. }
  rewrite Hz in Hsum. lra.
Qed.

Lemma minimal_jacobians_cancel_witness :
  J0_minimal (fun _ => Identity) (fun _ => Identity) (fun _ => Identity)
    blank PoseExamples.ex_parameters 0%nat 4%nat
  + J1_minimal (fun _ => Identity) (fun _ => Identity)
      blank PoseExamples.ex_parameters 0%nat 4%nat
  = mmul 6 (squareRootInformation_ blank)
      (coupling (fun _ => Identity) PoseExamples.ex_parameters) 0%nat 4%nat.
Proof.
  apply (minimal_jacobians_cancel (fun _ => Identity) (fun _ => Identity)
           (fun _ => Identity) blank PoseExamples.ex_parameters 0%nat 4%nat).
  lia.
Defined.

End RelativePoseErrorJacobianFacts.
